(** * Fixed-width unsigned integers of the RSA implementation (bigint.h)

    A shallow embedding of [template <unsigned int bits> struct Bigint] and
    of the operations defined on it, followed by the properties of the
    specification that were checked against it.

    A value is its [storage] array: [bits / 32] words of type
    [unsigned int], least significant word first.  The width is given by the
    number [n] of words, so [bits = 32 * n] (the specification takes [bits]
    to be a positive multiple of 32).  Words are integers of [Z]; every
    conversion to a C integer type is written out with [uint], [ull] and
    [ushort]. *)

From Stdlib Require Import ZArith Lia Ascii String Bool.
From stdpp Require Import base numbers list.

Local Open Scope Z_scope.

(** ** C integer types *)

(** Conversion to [unsigned int] (32 bits). *)
Definition uint (z : Z) : Z := z mod 2 ^ 32.

(** Conversion to [unsigned long long] (64 bits). *)
Definition ull (z : Z) : Z := z mod 2 ^ 64.

(** Conversion to [unsigned short] (16 bits), on array indices. *)
Definition ushort (i : nat) : nat := Z.to_nat (Z.of_nat i mod 2 ^ 16).

(** [__builtin_clz] on a non-zero [unsigned int]: the number of leading zero
    bits. *)
Definition clz (w : Z) : Z := 31 - Z.log2 w.

(** ** Storage *)

(** [unsigned int *storage], as the sequence of the allocated words. *)
Abbreviation Bigint := (list Z) (only parsing).

(** What a call can end in: a value, a C++ exception, or an access to
    [storage] outside the allocated words (undefined behaviour in C++). *)
Inductive exn : Type :=
| domain_error.

Inductive outcome (A : Type) : Type :=
| Returns (a : A)
| Throws (e : exn)
| OutOfBounds (i : nat).
Arguments Returns {A} a.
Arguments Throws {A} e.
Arguments OutOfBounds {A} i.

#[global] Instance outcome_bind : MBind outcome := fun A B f m =>
  match m with
  | Returns a => f a
  | Throws e => Throws e
  | OutOfBounds i => OutOfBounds i
  end.

(** [storage[i] = v], checked against the allocation. *)
Definition store (i : nat) (v : Z) (s : Bigint) : outcome Bigint :=
  if (i <? length s)%nat then Returns (<[i := v]> s) else OutOfBounds i.

(** [new unsigned int[bits / 32]{0}] *)
Definition zero (n : nat) : Bigint := replicate n 0.

(** [Bigint(const unsigned long long &x)]: both stores are unconditional. *)
Definition Bigint_of_u64 (n : nat) (x : Z) : outcome Bigint :=
  s0 ← store 0 (uint x) (zero n);
  store 1 (uint (ull x ≫ 32)) s0.

(** The same constructor where both words exist ([2 <= n]); the operators
    below build their results and constants with it. *)
Definition of_u64 (n : nat) (x : Z) : Bigint :=
  <[1%nat := uint (ull x ≫ 32)]> (<[0%nat := uint x]> (zero n)).

(** The range of [unsigned int]. *)
Definition in_word (w : Z) : Prop := 0 <= w < 2 ^ 32.

(** Values whose storage has [n] words, each an [unsigned int]. *)
Definition wf (n : nat) (a : Bigint) : Prop :=
  length a = n /\ Forall in_word a.

(** The number stored, little-endian. *)
Fixpoint value (a : Bigint) : Z :=
  match a with
  | [] => 0
  | w :: r => w + 2 ^ 32 * value r
  end.

Section Width.

Variable n : nat.

(** ** Comparison and bit length *)

(** [operator==] *)
Fixpoint eq_loop (k i : nat) (a x : Bigint) : bool :=
  match k with
  | O => true
  | S k' =>
      if negb (a !!! i =? x !!! i) then false
      else eq_loop k' (S i) a x
  end.

Definition op_eq (a x : Bigint) : bool := eq_loop n 0 a x.

(** [operator!=] *)
Fixpoint ne_loop (k i : nat) (a x : Bigint) : bool :=
  match k with
  | O => false
  | S k' =>
      if negb (a !!! i =? x !!! i) then true
      else ne_loop k' (S i) a x
  end.

Definition op_ne (a x : Bigint) : bool := ne_loop n 0 a x.

(** [operator<]: [i] runs from [n - 1] down to [0]; the argument counts
    [i + 1]. *)
Fixpoint lt_loop (k : nat) (a x : Bigint) : bool :=
  match k with
  | O => false
  | S i =>
      if negb (a !!! i =? 0) || negb (x !!! i =? 0)
      then a !!! i <? x !!! i
      else lt_loop i a x
  end.

Definition op_lt (a x : Bigint) : bool := lt_loop n a x.

(** [operator>] *)
Fixpoint gt_loop (k : nat) (a x : Bigint) : bool :=
  match k with
  | O => false
  | S i =>
      if negb (a !!! i =? 0) || negb (x !!! i =? 0)
      then a !!! i >? x !!! i
      else gt_loop i a x
  end.

Definition op_gt (a x : Bigint) : bool := gt_loop n a x.

(** [num_bits]: [while (i > 0 && storage[i] == 0) --i;] *)
Fixpoint num_bits_scan (i : nat) (a : Bigint) : nat :=
  match i with
  | O => O
  | S i' => if a !!! i =? 0 then num_bits_scan i' a else i
  end.

Definition num_bits (a : Bigint) : Z :=
  let i := num_bits_scan (n - 1) a in
  if a !!! i =? 0 then uint (Z.of_nat i * 8 * 4)
  else uint ((Z.of_nat i + 1) * 8 * 4 - clz (a !!! i)).

Definition is_even (a : Bigint) : bool := negb (negb (Z.land (a !!! 0%nat) 1 =? 0)).
Definition is_odd (a : Bigint) : bool := negb (Z.land (a !!! 0%nat) 1 =? 0).

(** ** Addition, subtraction, multiplication *)

(** [operator+]: [k] iterations are left, [i] is the loop index. *)
Fixpoint add_loop (k i : nat) (a x : Bigint) (carry : Z) (res : Bigint) : Bigint :=
  match k with
  | O => res
  | S k' =>
      let temp := ull (a !!! i + x !!! i + carry) in
      add_loop k' (S i) a x (uint (temp ≫ 32)) (<[i := uint temp]> res)
  end.

Definition op_add (a x : Bigint) : Bigint := add_loop n 0 a x 0 (of_u64 n 0).

(** [operator-] *)
Fixpoint sub_loop (k i : nat) (a x : Bigint) (borrow : Z) (res : Bigint) : Bigint :=
  match k with
  | O => res
  | S k' =>
      let temp := ull (a !!! i - ull (x !!! i + borrow)) in
      sub_loop k' (S i) a x (uint (temp ≫ 63)) (<[i := uint temp]> res)
  end.

Definition op_sub (a x : Bigint) : Bigint := sub_loop n 0 a x 0 (of_u64 n 0).

(** [operator*]: the inner loop over [j]; [k = i + j] is an
    [unsigned short], and the loop is left at the first [k] outside the
    storage. *)
Fixpoint mul_inner (cnt j i : nat) (a x : Bigint) (carry : Z) (res : Bigint) : Bigint :=
  match cnt with
  | O => res
  | S cnt' =>
      let k := ushort (i + j) in
      if (k <? n)%nat then
        let temp := ull (res !!! k + ull (a !!! i * x !!! j) + carry) in
        mul_inner cnt' (S j) i a x (temp ≫ 32) (<[k := uint temp]> res)
      else res
  end.

Fixpoint mul_outer (cnt i : nat) (a x : Bigint) (res : Bigint) : Bigint :=
  match cnt with
  | O => res
  | S cnt' => mul_outer cnt' (S i) a x (mul_inner n 0 i a x 0 res)
  end.

Definition op_mul (a x : Bigint) : Bigint := mul_outer n 0 a x (of_u64 n 0).

(** ** Shifts *)

(** [operator<<]: the loops run [i] from [n - 1] down to [full_shifts + 1];
    the argument counts [i - full_shifts]. *)
Fixpoint shl_loop_aligned (k full_shifts : nat) (lshift : Z) (a ret : Bigint) : Bigint :=
  match k with
  | O => ret
  | S k' =>
      let i := (full_shifts + k)%nat in
      shl_loop_aligned k' full_shifts lshift a
        (<[i := uint (a !!! (i - full_shifts)%nat ≪ lshift)]> ret)
  end.

Fixpoint shl_loop (k full_shifts : nat) (lshift rshift : Z) (a ret : Bigint) : Bigint :=
  match k with
  | O => ret
  | S k' =>
      let i := (full_shifts + k)%nat in
      let lo := uint (a !!! (i - full_shifts)%nat ≪ lshift) in
      let lo := Z.lor lo (a !!! (i - full_shifts - 1)%nat ≫ rshift) in
      shl_loop k' full_shifts lshift rshift a (<[i := lo]> ret)
  end.

Definition op_shl (a : Bigint) (shift : Z) : Bigint :=
  if Z.of_nat n * 32 <=? shift then of_u64 n 0
  else
    let ret := of_u64 n 0 in
    let full_shifts := Z.to_nat (shift / 32) in
    let lshift := shift mod 32 in
    let rshift := 32 - lshift in
    let ret :=
      if lshift =? 0
      then shl_loop_aligned (n - 1 - full_shifts) full_shifts lshift a ret
      else shl_loop (n - 1 - full_shifts) full_shifts lshift rshift a ret in
    <[full_shifts := uint (a !!! 0%nat ≪ lshift)]> ret.

(** [operator>>] *)
Fixpoint shr_loop_aligned (k i full_shifts : nat) (a ret : Bigint) : Bigint :=
  match k with
  | O => ret
  | S k' =>
      shr_loop_aligned k' (S i) full_shifts a
        (<[i := a !!! (i + full_shifts)%nat]> ret)
  end.

Fixpoint shr_loop (k i full_shifts : nat) (small_shift : Z) (a ret : Bigint) : Bigint :=
  match k with
  | O => ret
  | S k' =>
      let lo := a !!! (i + full_shifts)%nat ≫ small_shift in
      let lo := Z.lor lo (uint (a !!! (i + full_shifts + 1)%nat ≪ (32 - small_shift))) in
      shr_loop k' (S i) full_shifts small_shift a (<[i := lo]> ret)
  end.

Definition op_shr (a : Bigint) (shift : Z) : Bigint :=
  if Z.of_nat n * 32 <=? shift then of_u64 n 0
  else
    let ret := of_u64 n 0 in
    let full_shifts := Z.to_nat (shift / 32) in
    let small_shift := Z.land shift (32 - 1) in
    let m := (n - full_shifts)%nat in
    if small_shift =? 0
    then shr_loop_aligned m 0 full_shifts a ret
    else
      let ret := shr_loop (m - 1) 0 full_shifts small_shift a ret in
      <[(m - 1)%nat := a !!! (m - 1 + full_shifts)%nat ≫ small_shift]> ret.

(** ** Division and remainder *)

(** [operator/]: the body of [while (true)], left when [bd-- == 0]. *)
Fixpoint div_loop (bd : nat) (rem quo c e : Bigint) : Bigint :=
  let r := op_sub rem c in
  let d := uint (1 - r !!! (n - 1)%nat ≫ 31) in
  let rem' := if negb (d =? 0) then r else rem in
  let quo' := if negb (d =? 0) then op_add quo e else quo in
  match bd with
  | O => quo'
  | S bd' => div_loop bd' rem' quo' (op_shr c 1) (op_shr e 1)
  end.

Definition op_div (a x : Bigint) : Bigint :=
  if op_lt a x then a
  else
    let bd := uint (num_bits a - num_bits x) in
    div_loop (Z.to_nat bd) a (of_u64 n 0) (op_shl x bd) (op_shl (of_u64 n 1) bd).

(** [operator%] *)
Fixpoint mod_loop (bd : nat) (rem c : Bigint) : Bigint :=
  let r := op_sub rem c in
  let d := r !!! (n - 1)%nat ≫ 31 in
  let rem' := if d =? 0 then r else rem in
  match bd with
  | O => rem'
  | S bd' => mod_loop bd' rem' (op_shr c 1)
  end.

Definition op_mod (a x : Bigint) : Bigint :=
  if op_lt a x then a
  else
    let bd := uint (num_bits a - num_bits x) in
    mod_loop (Z.to_nat bd) a (op_shl x bd).

(** The two operators as calls: neither body contains a [throw] nor any
    test of the divisor, so a call ends by returning its value. *)
Definition call_div (a x : Bigint) : outcome Bigint := Returns (op_div a x).
Definition call_mod (a x : Bigint) : outcome Bigint := Returns (op_mod a x).

(** ** Number-theoretic algorithms

    The loops [while (b_temp != null)] and [while (a > 1)] are run on a
    bound [fuel] of iterations; [None] stands for a loop that did not
    finish within it. *)

(** [gcd] *)
Fixpoint gcd_loop (fuel : nat) (a b_temp : Bigint) : option Bigint :=
  match fuel with
  | O => None
  | S fuel' =>
      if op_ne b_temp (of_u64 n 0)
      then gcd_loop fuel' b_temp (op_mod a b_temp)
      else Some a
  end.

Definition gcd (fuel : nat) (this b : Bigint) : option Bigint :=
  gcd_loop fuel this b.

(** [exponentiation]: [this] is the base, [b] the exponent, [m] the
    modulus. *)
Fixpoint exponentiation_loop (fuel : nat) (a b_temp c m : Bigint) : option Bigint :=
  match fuel with
  | O => None
  | S fuel' =>
      if op_ne b_temp (of_u64 n 0)
      then
        let c' := if is_odd b_temp then op_mod (op_mul c a) m else c in
        exponentiation_loop fuel' (op_mod (op_mul a a) m) (op_shr b_temp 1) c' m
      else Some c
  end.

Definition exponentiation (fuel : nat) (this b m : Bigint) : option Bigint :=
  exponentiation_loop fuel this b (of_u64 n 1) m.

(** [inverse]: the coefficients [x0], [x1] are magnitudes with a sign
    flag. *)
Fixpoint inverse_loop (fuel : nat) (a b_temp x0 : Bigint) (x0_sign : bool)
    (x1 : Bigint) (x1_sign : bool) : option (Bigint * bool) :=
  match fuel with
  | O => None
  | S fuel' =>
      if op_gt a (of_u64 n 1) then
        let q := op_div a b_temp in
        let t := b_temp in
        let b_temp' := op_mod a b_temp in
        let a' := t in
        let t2 := x0 in
        let t2_sign := x0_sign in
        let qx0 := op_mul q x0 in
        let x0' :=
          if negb (Bool.eqb x0_sign x1_sign) then op_add x1 qx0
          else if op_gt x1 qx0 then op_sub x1 qx0 else op_sub qx0 x1 in
        let x0_sign' :=
          if negb (Bool.eqb x0_sign x1_sign) then x1_sign
          else if op_gt x1 qx0 then x1_sign else negb x0_sign in
        inverse_loop fuel' a' b_temp' x0' x0_sign' t2 t2_sign
      else Some (x1, x1_sign)
  end.

Definition inverse (fuel : nat) (this b : Bigint) : option Bigint :=
  match inverse_loop fuel this b (of_u64 n 0) false (of_u64 n 1) false with
  | Some (x1, x1_sign) => Some (if x1_sign then op_sub b x1 else x1)
  | None => None
  end.

(** ** Randomization and the Fermat test

    [std::random_device] is an oracle: [rd k] is the word returned by the
    [k]-th call of [rd()], and [pos] counts the calls made so far. *)
Fixpoint rng_loop (k i : nat) (rd : nat -> Z) (pos : nat) (a : Bigint) : Bigint * nat :=
  match k with
  | O => (a, pos)
  | S k' => rng_loop k' (S i) rd (S pos) (<[i := uint (rd pos)]> a)
  end.

(** [rng]: the index [i] is an [unsigned short], so the loop is never left
    when the word count does not fit one. *)
Definition rng (size_max : Z) (rd : nat -> Z) (pos : nat) (a : Bigint)
    : option (Bigint * nat) :=
  let cnt := if size_max =? 0 then n else Z.to_nat (size_max / 32) in
  if 2 ^ 16 <=? Z.of_nat cnt then None else Some (rng_loop cnt 0 rd pos a).

(** [prime_check]: [k] trials are left. *)
Fixpoint prime_check_loop (k fuel : nat) (this high one a : Bigint)
    (rd : nat -> Z) (pos : nat) : option bool :=
  match k with
  | O => Some true
  | S k' =>
      '(a', pos') ← rng (num_bits high) rd pos a;
      g ← gcd fuel this a';
      if op_ne g one then Some false
      else
        e ← exponentiation fuel a' high this;
        if op_ne e one then Some false
        else prime_check_loop k' fuel this high one a' rd pos'
  end.

Definition prime_check (fuel : nat) (this : Bigint) (rd : nat -> Z) : option bool :=
  prime_check_loop 100 fuel this (op_sub this (of_u64 n 1)) (of_u64 n 1)
    (of_u64 n 0) rd 0.

End Width.

Import ListNotations.

(** ** Hexadecimal text *)

Section Text.

(** What [sscanf] stores for digits that denote a number outside
    [unsigned int]; the C standard leaves it undefined. *)
Variable scanf_overflow : Z -> Z.

Variable n : nat.

(** Value of a hexadecimal digit, [None] for any other character. *)
Definition hex_digit_value (c : ascii) : option Z :=
  let k := Z.of_N (N_of_ascii c) in
  if (48 <=? k) && (k <=? 57) then Some (k - 48)
  else if (97 <=? k) && (k <=? 102) then Some (k - 87)
  else if (65 <=? k) && (k <=? 70) then Some (k - 55)
  else None.

Definition isxdigit (c : ascii) : bool :=
  match hex_digit_value c with Some _ => true | None => false end.

(** [string_check] *)
Fixpoint string_check (x : list ascii) : bool :=
  match x with
  | [] => true
  | c :: x' => if negb (isxdigit c) then false else string_check x'
  end.

(** The digits that a conversion [%wX] takes from the front of [s]. *)
Fixpoint scan_digits (w : nat) (s : list ascii) : list Z :=
  match w, s with
  | S w', c :: s' =>
      match hex_digit_value c with
      | Some d => d :: scan_digits w' s'
      | None => []
      end
  | _, _ => []
  end.

Definition digits_value (ds : list Z) : Z :=
  foldl (fun v d => 16 * v + d) 0 ds.

(** [sscanf (s, "%wX", &storage[i])]: nothing is stored when no digit is
    read.  [sscanf (s, "%X", ...)] is the case [w = length s]. *)
Definition sscanf_X (w : nat) (s : list ascii) (i : nat) (storage : Bigint)
    : outcome Bigint :=
  match scan_digits w s with
  | [] => Returns storage
  | ds =>
      let v := digits_value ds in
      store i (if v <? 2 ^ 32 then v else uint (scanf_overflow v)) storage
  end.

(** The loop over the runs of 8 digits, [startpos] an offset into [x]. *)
Fixpoint runs_loop (k i startpos : nat) (x : list ascii) (storage : Bigint)
    : outcome (Bigint * nat) :=
  match k with
  | O => Returns (storage, i)
  | S k' =>
      storage' ← sscanf_X 8 (drop startpos x) i storage;
      runs_loop k' (S i) (startpos - 8) x storage'
  end.

(** [Bigint(const char *const &x)]; the width [(int) strlen (x) % 8] of the
    last conversion is [length x mod 8] for every string shorter than
    [2 ^ 31] characters. *)
Definition Bigint_of_string (x : list ascii) : outcome Bigint :=
  if negb (string_check x) then Throws domain_error
  else
    let storage := zero n in
    let number_of_runs := ushort (length x / 8) in
    if (1 <? number_of_runs)%nat then
      '(storage', i) ← runs_loop number_of_runs 0 (length x - 8) x storage;
      if negb (length x mod 8 =? 0)%nat
      then sscanf_X (length x mod 8) x i storage'
      else Returns storage'
    else sscanf_X (length x) x 0 storage.

(** Output of an [unsigned int] under [std::hex]: lower-case digits, no
    leading zero. *)
Definition hex_digit (d : Z) : ascii :=
  nth (Z.to_nat d) (list_ascii_of_string "0123456789abcdef") "0"%char.

Fixpoint hex_digits (fuel : nat) (w : Z) (acc : list ascii) : list ascii :=
  match fuel with
  | O => acc
  | S fuel' =>
      let acc' := hex_digit (w mod 16) :: acc in
      if w / 16 =? 0 then acc' else hex_digits fuel' (w / 16) acc'
  end.

Definition hex (w : Z) : list ascii := hex_digits 8 w [].

(** [std::setw (k) << std::setfill (c)] applied to the next output. *)
Definition setw_fill (k : nat) (c : ascii) (s : list ascii) : list ascii :=
  replicate (k - length s) c ++ s.

(** [operator<<(std::ostream &, const Bigint &)]: the characters written;
    [i] runs from [size - 1] down to [0], the argument counts [i + 1]. *)
Fixpoint render_loop (k : nat) (x : Bigint) (isnull : bool) (os : list ascii)
    : list ascii * bool :=
  match k with
  | O => (os, isnull)
  | S i =>
      if isnull then
        if negb (x !!! i =? 0)
        then render_loop i x false (os ++ hex (x !!! i))
        else render_loop i x true os
      else render_loop i x false (os ++ setw_fill 8 "0"%char (hex (x !!! i)))
  end.

Definition render (x : Bigint) : list ascii :=
  let size := ushort n in
  let '(os, isnull) := render_loop size x true [] in
  if isnull then os ++ ["0"%char] else os.

End Text.

(** [sscanf] of the GNU C library converts with [strtoul] and keeps the low
    32 bits. *)
Definition glibc_overflow (v : Z) : Z := v mod 2 ^ 32.

(** A string literal as the characters of a C string. *)
Definition str (s : string) : list ascii := list_ascii_of_string s.

(** ** Vocabulary of the proofs *)

(** Loops that store [f i] at each index [i] they visit: downwards from
    [base + k] to [base + 1], and upwards from [i]. *)
Fixpoint fill_down (f : nat -> Z) (k base : nat) (ret : list Z) : list Z :=
  match k with
  | O => ret
  | S k' => fill_down f k' base (<[(base + k)%nat := f (base + k)%nat]> ret)
  end.

Fixpoint fill_up (f : nat -> Z) (k i : nat) (ret : list Z) : list Z :=
  match k with
  | O => ret
  | S k' => fill_up f k' (S i) (<[i := f i]> ret)
  end.

(** Number of significant bits of a number: 0 for 0. *)
Definition bit_length (v : Z) : Z := if v =? 0 then 0 else Z.log2 v + 1.

(** [2 ^ (bits - 1)], the weight of the top bit. *)
Definition half (n : nat) : Z := 2 ^ (32 * Z.of_nat n - 1).

(** Sign flags of [inverse] as numbers, and the invariant of its loop for
    the operands [A] and [B]: the flagged magnitudes [x1], [x0] are the
    coefficients of [A] in [a] and [b_temp] modulo [B]. *)
Definition sgn (s : bool) : Z := if s then -1 else 1.

Definition inverse_invariant (n : nat) (A B : Z) (a b_temp x0 : list Z) (x0_sign : bool)
    (x1 : list Z) (x1_sign : bool) : Prop :=
  wf n a /\ wf n b_temp /\ wf n x0 /\ wf n x1 /\
  value x0 <= B /\ value x1 <= B /\
  1 <= value a /\ Z.gcd (value a) (value b_temp) = 1 /\
  (value a < value b_temp -> value x0 = 0) /\
  value a * value x0 + value b_temp * value x1 = B /\
  (sgn x0_sign * value x0) * (sgn x1_sign * value x1) <= 0 /\
  (exists u, value a = sgn x1_sign * value x1 * A + u * B) /\
  (exists v, value b_temp = sgn x0_sign * value x0 * A + v * B).

(** The text the specification expects back from rendering: the digits in
    lower case, without leading zeros, and ["0"] when nothing is left. *)
Definition lower (c : ascii) : ascii :=
  let k := N_of_ascii c in
  if ((65 <=? k) && (k <=? 90))%N then ascii_of_N (k + 32) else c.

Fixpoint strip_zero_chars (s : list ascii) : list ascii :=
  match s with
  | c :: s' => if Ascii.eqb c "0" then strip_zero_chars s' else s
  | [] => []
  end.

Definition canonical (s : list ascii) : list ascii :=
  match strip_zero_chars (map lower s) with
  | [] => ["0"%char]
  | t => t
  end.

(** Digit sequences: the [k] low hexadecimal digits of a number, most
    significant first; all the digits of a storage; leading zeros removed. *)
Fixpoint number_digits (k : nat) (v : Z) : list Z :=
  match k with
  | O => []
  | S k' => number_digits k' (v / 16) ++ [v mod 16]
  end.

Fixpoint be_digits (x : list Z) : list Z :=
  match x with
  | [] => []
  | w :: x' => be_digits x' ++ number_digits 8 w
  end.

Fixpoint strip0 (ds : list Z) : list Z :=
  match ds with
  | d :: ds' => if d =? 0 then strip0 ds' else ds
  | [] => []
  end.

Definition is_digit (d : Z) : Prop := 0 <= d < 16.

Definition digit_values (s : list ascii) : list Z :=
  map (fun c => default 0 (hex_digit_value c)) s.

(** The number that [cnt] outputs of the random device make, from output
    [pos] on, as the low words of a value; and the test of Fermat that
    [prime_check] applies to a candidate [p] with a base [a]. *)
Definition drawn (rd : nat -> Z) (pos cnt : nat) : Z :=
  value (map (fun j => uint (rd (pos + j)%nat)) (seq 0 cnt)).

Definition fermat_passes (p a : Z) : bool :=
  (Z.gcd p a =? 1) && (a ^ (p - 1) mod p =? 1).

(** * Properties *)

(** ** Words and stored numbers *)

Definition pow32 (k : nat) : Z := 2 ^ (32 * Z.of_nat k).

Lemma pow32_0 : pow32 0 = 1.
Proof. reflexivity. Qed.

Lemma pow32_S k : pow32 (S k) = 2 ^ 32 * pow32 k.
Proof.
  unfold pow32. rewrite Nat2Z.inj_succ.
  replace (32 * Z.succ (Z.of_nat k)) with (32 + 32 * Z.of_nat k) by lia.
  rewrite Z.pow_add_r by lia. reflexivity.
Qed.

Lemma pow32_pos k : 0 < pow32 k.
Proof. unfold pow32. apply Z.pow_pos_nonneg; lia. Qed.

Lemma pow32_add j k : pow32 (j + k) = pow32 j * pow32 k.
Proof.
  unfold pow32. rewrite Nat2Z.inj_add, Z.mul_add_distr_l, Z.pow_add_r by lia.
  reflexivity.
Qed.

Lemma uint_range z : in_word (uint z).
Proof. unfold in_word, uint. apply Z.mod_pos_bound. reflexivity. Qed.

Lemma uint_small z : in_word z -> uint z = z.
Proof. unfold in_word, uint. intros. apply Z.mod_small. assumption. Qed.

Lemma ull_small z : 0 <= z < 2 ^ 64 -> ull z = z.
Proof. unfold ull. intros. apply Z.mod_small. assumption. Qed.

Lemma wf_length n a : wf n a -> length a = n.
Proof. intros [H _]. exact H. Qed.

Lemma wf_words n a : wf n a -> Forall in_word a.
Proof. intros [_ H]. exact H. Qed.

Lemma wf_lookup n a i : wf n a -> in_word (a !!! i).
Proof.
  intros [_ H]. destruct (decide (i < length a)%nat) as [Hi|Hi].
  - eapply Forall_lookup_1; [exact H|]. apply list_lookup_lookup_total_lt. exact Hi.
  - rewrite list_lookup_total_alt, lookup_ge_None_2 by lia. cbn. unfold in_word. lia.
Qed.

Lemma words_lookup (a : Bigint) i : Forall in_word a -> in_word (a !!! i).
Proof. intros H. apply (wf_lookup (length a)). split; [reflexivity|exact H]. Qed.

Lemma zero_length n : length (zero n) = n.
Proof. apply length_replicate. Qed.

Lemma zero_wf n : wf n (zero n).
Proof.
  split; [apply zero_length|]. apply Forall_replicate. unfold in_word. lia.
Qed.

Lemma value_zero n : value (zero n) = 0.
Proof. induction n as [|n IH]; cbn; [reflexivity|]. unfold zero in IH. rewrite IH. lia. Qed.

Lemma of_u64_0 n : of_u64 n 0 = zero n.
Proof.
  unfold of_u64. change (uint (ull 0 ≫ 32)) with 0. change (uint 0) with 0.
  destruct n as [|[|n]]; reflexivity.
Qed.

Lemma of_u64_length n x : length (of_u64 n x) = n.
Proof. unfold of_u64. rewrite !length_insert. apply zero_length. Qed.

Lemma of_u64_wf n x : wf n (of_u64 n x).
Proof.
  split; [apply of_u64_length|]. unfold of_u64.
  apply Forall_insert; [apply Forall_insert|]; try apply uint_range.
  apply zero_wf.
Qed.

Lemma of_u64_value n x : (1 <= n)%nat -> in_word x -> value (of_u64 n x) = x.
Proof.
  intros Hn Hx. unfold of_u64.
  assert (ull x ≫ 32 = 0) as ->.
  { unfold in_word in Hx. rewrite ull_small by lia. rewrite Z.shiftr_div_pow2 by lia.
    apply Z.div_small. lia. }
  change (uint 0) with 0. rewrite uint_small by exact Hx.
  destruct n as [|[|n]]; [lia| |]; cbn -[Z.pow Z.mul].
  - lia.
  - change (replicate n 0) with (zero n). rewrite value_zero. lia.
Qed.

Lemma Bigint_of_u64_defined n x :
  (2 <= n)%nat -> Bigint_of_u64 n x = Returns (of_u64 n x).
Proof.
  intros Hn. destruct n as [|[|n]]; [lia|lia|]. reflexivity.
Qed.

Lemma value_range a : Forall in_word a -> 0 <= value a < pow32 (length a).
Proof.
  induction 1 as [|w a Hw _ IH]; cbn [value length].
  - rewrite pow32_0. lia.
  - rewrite pow32_S. unfold in_word in Hw. nia.
Qed.

Lemma value_wf_range n a : wf n a -> 0 <= value a < pow32 n.
Proof. intros [<- H]. apply value_range. exact H. Qed.

Lemma value_app a b : value (a ++ b) = value a + pow32 (length a) * value b.
Proof.
  induction a as [|w a IH]; cbn [value length app].
  - rewrite pow32_0. lia.
  - rewrite IH, pow32_S. lia.
Qed.

Lemma value_inj a b :
  length a = length b -> Forall in_word a -> Forall in_word b ->
  value a = value b -> a = b.
Proof.
  intros Hl Ha. revert b Hl. induction Ha as [|w a Hw Ha IH]; intros [|v b] Hl Hb Hv;
    cbn in Hl; try discriminate; [reflexivity|].
  inversion Hb as [|? ? Hv' Hb']; subst. cbn [value] in Hv.
  unfold in_word in *.
  assert (w = v) as ->.
  { assert (w mod 2 ^ 32 = v mod 2 ^ 32) as E.
    { replace w with (v + 2 ^ 32 * value b - 2 ^ 32 * value a) at 1 by lia.
      replace (v + 2 ^ 32 * value b - 2 ^ 32 * value a)
        with (v + (value b - value a) * 2 ^ 32) by lia.
      apply Z.mod_add. lia. }
    rewrite !Z.mod_small in E by lia. exact E. }
  f_equal. apply IH; [lia|exact Hb'|lia].
Qed.

Lemma wf_value_inj n a b : wf n a -> wf n b -> value a = value b -> a = b.
Proof.
  intros [Hla Ha] [Hlb Hb]. apply value_inj; [congruence|exact Ha|exact Hb].
Qed.

Lemma drop_lookup_total (a : Bigint) i :
  (i < length a)%nat -> drop i a = a !!! i :: drop (S i) a.
Proof.
  intros Hi. apply drop_S. apply list_lookup_lookup_total_lt. exact Hi.
Qed.

Lemma take_S_eq_lookup (r s : Bigint) i :
  (i < length r)%nat -> (i < length s)%nat ->
  take (S i) r = take (S i) s -> r !!! i = s !!! i /\ take i r = take i s.
Proof.
  intros Hr Hs E. split.
  - assert (take (S i) r !! i = take (S i) s !! i) as E' by (rewrite E; reflexivity).
    rewrite !lookup_take_lt in E' by lia.
    rewrite !list_lookup_total_alt, E'. reflexivity.
  - assert (take i (take (S i) r) = take i (take (S i) s)) as E' by (rewrite E; reflexivity).
    rewrite !take_take in E'. replace (i `min` S i)%nat with i in E' by lia. exact E'.
Qed.

(** ** Addition and subtraction compute modulo [2 ^ bits] *)

Section AddSub.

Variable n : nat.
Variables a x : list Z.
Hypothesis a_wf : wf n a.
Hypothesis x_wf : wf n x.

Lemma add_loop_spec k : forall i carry res,
  (i + k = n)%nat -> length res = n -> 0 <= carry <= 1 ->
  let r := add_loop k i a x carry res in
  length r = n /\ take i r = take i res /\ Forall in_word (drop i r) /\
  exists c, 0 <= c <= 1 /\
    value (drop i r) + c * pow32 k = value (drop i a) + value (drop i x) + carry.
Proof.
  pose proof (wf_length _ _ a_wf) as Hla. pose proof (wf_length _ _ x_wf) as Hlx.
  induction k as [|k IH]; intros i carry res Hik Hres Hc; cbn zeta.
  - cbn [add_loop]. rewrite !drop_ge by lia. cbn [value]. rewrite pow32_0.
    repeat split; [exact Hres|constructor|]. exists carry. lia.
  - cbn [add_loop].
    pose proof (wf_lookup n a i a_wf) as Ha. pose proof (wf_lookup n x i x_wf) as Hx.
    unfold in_word in Ha, Hx.
    set (t := a !!! i + x !!! i + carry).
    assert (0 <= t < 2 ^ 33) as Ht by (unfold t; lia).
    rewrite (ull_small t) by lia. fold t.
    rewrite Z.shiftr_div_pow2 by lia.
    assert (0 <= t / 2 ^ 32 <= 1) as Hq.
    { split; [apply Z.div_pos; lia|]. apply Z.lt_succ_r, Z.div_lt_upper_bound; lia. }
    rewrite (uint_small (t / 2 ^ 32)) by (unfold in_word; lia).
    destruct (IH (S i) (t / 2 ^ 32) (<[i := uint t]> res)) as (Hl & Ht' & Hw & c & Hc' & Hv);
      [lia|rewrite length_insert; exact Hres|exact Hq|].
    set (r := add_loop k (S i) a x (t / 2 ^ 32) (<[i := uint t]> res)) in *.
    apply take_S_eq_lookup in Ht' as [Hri Hti]; [|lia|rewrite length_insert; lia].
    rewrite list_lookup_total_insert_eq in Hri by lia.
    rewrite take_insert_ge in Hti by lia.
    rewrite (drop_lookup_total r i), (drop_lookup_total a i), (drop_lookup_total x i) by lia.
    rewrite Hri. cbn [value]. repeat split; [exact Hl|exact Hti| |].
    + constructor; [apply uint_range|exact Hw].
    + exists c. split; [exact Hc'|]. rewrite pow32_S. unfold uint.
      pose proof (Z.div_mod t (2 ^ 32) ltac:(lia)). fold t in H. nia.
Qed.

Lemma op_add_wf : wf n (op_add n a x).
Proof.
  destruct (add_loop_spec n 0 0 (of_u64 n 0)) as (Hl & _ & Hw & _);
    [lia|apply of_u64_length|lia|].
  split; [exact Hl|exact Hw].
Qed.

Lemma op_add_value : value (op_add n a x) = (value a + value x) mod pow32 n.
Proof.
  destruct (add_loop_spec n 0 0 (of_u64 n 0)) as (Hl & _ & Hw & c & Hc & Hv);
    [lia|apply of_u64_length|lia|].
  rewrite !drop_0 in Hv. fold (op_add n a x) in Hv.
  pose proof (value_wf_range n _ op_add_wf) as Hr.
  apply Z.mod_unique with (q := c); lia.
Qed.

Lemma sub_loop_spec k : forall i borrow res,
  (i + k = n)%nat -> length res = n -> 0 <= borrow <= 1 ->
  let r := sub_loop k i a x borrow res in
  length r = n /\ take i r = take i res /\ Forall in_word (drop i r) /\
  exists c, 0 <= c <= 1 /\
    value (drop i r) - c * pow32 k = value (drop i a) - value (drop i x) - borrow.
Proof.
  pose proof (wf_length _ _ a_wf) as Hla. pose proof (wf_length _ _ x_wf) as Hlx.
  induction k as [|k IH]; intros i borrow res Hik Hres Hc; cbn zeta.
  - cbn [sub_loop]. rewrite !drop_ge by lia. cbn [value]. rewrite pow32_0.
    repeat split; [exact Hres|constructor|]. exists borrow. lia.
  - cbn [sub_loop].
    pose proof (wf_lookup n a i a_wf) as Ha. pose proof (wf_lookup n x i x_wf) as Hx.
    unfold in_word in Ha, Hx.
    rewrite (ull_small (x !!! i + borrow)) by lia.
    set (d := a !!! i - (x !!! i + borrow)).
    assert (- 2 ^ 32 <= d < 2 ^ 32) as Hd by (unfold d; lia).
    assert (exists b', 0 <= b' <= 1 /\ uint (ull d ≫ 63) = b' /\
                       uint (ull d) = d + b' * 2 ^ 32) as (b' & Hb' & Eb & Ew).
    { destruct (Z.ltb_spec d 0).
      - exists 1. assert (ull d = d + 2 ^ 64) as ->.
        { unfold ull. symmetry. apply Z.mod_unique with (q := -1); lia. }
        rewrite Z.shiftr_div_pow2 by lia. unfold uint. split; [lia|split].
        + assert ((d + 2 ^ 64) / 2 ^ 63 = 1) as ->; [|reflexivity].
          symmetry. apply Z.div_unique with (r := d + 2 ^ 63); lia.
        + symmetry. apply Z.mod_unique with (q := 2 ^ 32 - 1); lia.
      - exists 0. rewrite ull_small by lia.
        rewrite Z.shiftr_div_pow2 by lia. unfold uint. split; [lia|split].
        + rewrite Z.div_small by lia. reflexivity.
        + rewrite Z.mod_small; lia. }
    rewrite Eb.
    destruct (IH (S i) b' (<[i := uint (ull d)]> res)) as (Hl & Ht' & Hw & c & Hc' & Hv);
      [lia|rewrite length_insert; exact Hres|exact Hb'|].
    set (r := sub_loop k (S i) a x b' (<[i := uint (ull d)]> res)) in *.
    apply take_S_eq_lookup in Ht' as [Hri Hti]; [|lia|rewrite length_insert; lia].
    rewrite list_lookup_total_insert_eq in Hri by lia.
    rewrite take_insert_ge in Hti by lia.
    rewrite (drop_lookup_total r i), (drop_lookup_total a i), (drop_lookup_total x i) by lia.
    rewrite Hri. cbn [value]. repeat split; [exact Hl|exact Hti| |].
    + constructor; [apply uint_range|exact Hw].
    + exists c. split; [exact Hc'|]. rewrite pow32_S, Ew. unfold d. nia.
Qed.

Lemma op_sub_wf : wf n (op_sub n a x).
Proof.
  destruct (sub_loop_spec n 0 0 (of_u64 n 0)) as (Hl & _ & Hw & _);
    [lia|apply of_u64_length|lia|].
  split; [exact Hl|exact Hw].
Qed.

Lemma op_sub_value : value (op_sub n a x) = (value a - value x) mod pow32 n.
Proof.
  destruct (sub_loop_spec n 0 0 (of_u64 n 0)) as (Hl & _ & Hw & c & Hc & Hv);
    [lia|apply of_u64_length|lia|].
  rewrite !drop_0 in Hv. fold (op_sub n a x) in Hv.
  pose proof (value_wf_range n _ op_sub_wf) as Hr.
  apply Z.mod_unique with (q := - c); lia.
Qed.

End AddSub.

(** ** Equality *)

Lemma eq_loop_true k : forall i (a x : list Z),
  eq_loop k i a x = true <-> forall j, (i <= j < i + k)%nat -> a !!! j = x !!! j.
Proof.
  induction k as [|k IH]; intros i a x; cbn [eq_loop].
  - split; [intros _ j Hj; lia|reflexivity].
  - destruct (Z.eqb_spec (a !!! i) (x !!! i)) as [E|E]; cbn [negb].
    + rewrite IH. split; intros H j Hj.
      * destruct (decide (j = i)) as [->|Hne]; [exact E|apply H; lia].
      * apply H. lia.
    + split; [discriminate|]. intros H. exfalso. apply E, H. lia.
Qed.

Lemma ne_loop_eq_loop k : forall i (a x : list Z),
  ne_loop k i a x = negb (eq_loop k i a x).
Proof.
  induction k as [|k IH]; intros i a x; cbn [ne_loop eq_loop]; [reflexivity|].
  destruct (negb (a !!! i =? x !!! i)); [reflexivity|apply IH].
Qed.

Lemma op_ne_op_eq n a x : op_ne n a x = negb (op_eq n a x).
Proof. apply ne_loop_eq_loop. Qed.

Lemma op_eq_refl n a : op_eq n a a = true.
Proof. apply eq_loop_true. reflexivity. Qed.

Lemma op_eq_true n a x : wf n a -> wf n x -> op_eq n a x = true -> a = x.
Proof.
  intros [Hla _] [Hlx _] H. unfold op_eq in H. rewrite eq_loop_true in H.
  apply (list_eq_same_length _ _ n); [exact Hlx|exact Hla|].
  intros i v w Hi Hv Hw. specialize (H i ltac:(lia)).
  rewrite !list_lookup_total_alt, Hv, Hw in H. exact H.
Qed.

Lemma op_eq_value n a x :
  wf n a -> wf n x -> op_eq n a x = bool_decide (value a = value x).
Proof.
  intros Ha Hx. destruct (op_eq n a x) eqn:E.
  - apply op_eq_true in E; [|assumption..]. subst. symmetry. apply bool_decide_eq_true. reflexivity.
  - symmetry. apply bool_decide_eq_false. intros Hv.
    apply (wf_value_inj n) in Hv; [|assumption..]. subst.
    rewrite op_eq_refl in E. discriminate.
Qed.

(** ** Comparison *)

Lemma lt_gt_loop_skip k : forall m (a x : list Z),
  (forall j, (m <= j < m + k)%nat -> a !!! j = 0 /\ x !!! j = 0) ->
  lt_loop (m + k) a x = lt_loop m a x /\ gt_loop (m + k) a x = gt_loop m a x.
Proof.
  induction k as [|k IH]; intros m a x H.
  - rewrite Nat.add_0_r. split; reflexivity.
  - replace (m + S k)%nat with (S (m + k)) by lia. cbn [lt_loop gt_loop].
    destruct (H (m + k)%nat ltac:(lia)) as [-> ->]. cbn.
    apply IH. intros j Hj. apply H. lia.
Qed.

(** ** Bits of a stored number *)

Lemma testbit_word_high w k : in_word w -> 32 <= k -> Z.testbit w k = false.
Proof.
  intros Hw Hk. unfold in_word in Hw.
  rewrite <- (Z.mod_small w (2 ^ 32)) by lia.
  apply Z.mod_pow2_bits_high. lia.
Qed.

Lemma testbit_cons w v k :
  in_word w -> 0 <= k ->
  Z.testbit (w + 2 ^ 32 * v) k =
  if k <? 32 then Z.testbit w k else Z.testbit v (k - 32).
Proof.
  intros Hw Hk. unfold in_word in Hw. destruct (Z.ltb_spec k 32).
  - rewrite <- (Z.mod_pow2_bits_low (w + 2 ^ 32 * v) 32 k) by lia.
    rewrite (Z.mul_comm (2 ^ 32) v), Z.mod_add by lia.
    rewrite Z.mod_small by lia. reflexivity.
  - replace k with (k - 32 + 32) at 1 by lia.
    rewrite <- Z.div_pow2_bits by lia.
    rewrite (Z.mul_comm (2 ^ 32) v), Z.div_add by lia.
    rewrite Z.div_small by lia. reflexivity.
Qed.

Lemma testbit_value (a : list Z) (j : nat) t :
  Forall in_word a -> (j < length a)%nat -> 0 <= t < 32 ->
  Z.testbit (value a) (32 * Z.of_nat j + t) = Z.testbit (a !!! j) t.
Proof.
  intros Ha Hj Ht. revert j Hj. induction Ha as [|w a Hw Ha IH]; intros j Hj.
  - cbn in Hj. lia.
  - cbn [value]. rewrite testbit_cons by (assumption || lia). destruct j as [|j].
    + replace (32 * Z.of_nat 0 + t) with t by lia.
      destruct (Z.ltb_spec t 32); [reflexivity|lia].
    + destruct (Z.ltb_spec (32 * Z.of_nat (S j) + t) 32); [lia|].
      replace (32 * Z.of_nat (S j) + t - 32) with (32 * Z.of_nat j + t) by lia.
      rewrite IH by (cbn in Hj; lia). reflexivity.
Qed.

Lemma testbit_value_high (a : list Z) k :
  Forall in_word a -> 32 * Z.of_nat (length a) <= k -> Z.testbit (value a) k = false.
Proof.
  intros Ha Hk. pose proof (value_range a Ha) as Hr. unfold pow32 in Hr.
  rewrite <- (Z.mod_small (value a) (2 ^ (32 * Z.of_nat (length a)))) by lia.
  apply Z.mod_pow2_bits_high. lia.
Qed.

(** A storage holds the number [v] when its words carry the bits of [v]. *)
Lemma value_eq_bits (a : list Z) v :
  Forall in_word a -> 0 <= v < pow32 (length a) ->
  (forall (j : nat) t, (j < length a)%nat -> 0 <= t < 32 ->
     Z.testbit (a !!! j) t = Z.testbit v (32 * Z.of_nat j + t)) ->
  value a = v.
Proof.
  intros Ha Hv H. apply Z.bits_inj'. intros k Hk.
  destruct (Z.lt_ge_cases k (32 * Z.of_nat (length a))) as [Hlt|Hge].
  - pose proof (Z.div_mod k 32 ltac:(lia)) as E.
    pose proof (Z.mod_pos_bound k 32 ltac:(lia)) as Hm.
    assert (0 <= k / 32) as Hd by (apply Z.div_pos; lia).
    replace k with (32 * Z.of_nat (Z.to_nat (k / 32)) + k mod 32) by lia.
    rewrite testbit_value by (assumption || lia). apply H; lia.
  - rewrite testbit_value_high by assumption.
    unfold pow32 in Hv. rewrite <- (Z.mod_small v (2 ^ (32 * Z.of_nat (length a)))) by lia.
    symmetry. apply Z.mod_pow2_bits_high. lia.
Qed.

Lemma lor_in_word x y : in_word x -> in_word y -> in_word (Z.lor x y).
Proof.
  unfold in_word. intros Hx Hy.
  assert (Z.lor x y = Z.lor x y mod 2 ^ 32) as ->.
  { rewrite <- !Z.land_ones by lia. rewrite Z.land_lor_distr_l.
    rewrite !Z.land_ones by lia. rewrite !Z.mod_small by lia. reflexivity. }
  apply Z.mod_pos_bound. lia.
Qed.

Lemma shiftr_in_word w k : in_word w -> 0 <= k -> in_word (w ≫ k).
Proof.
  unfold in_word. intros Hw Hk. rewrite Z.shiftr_div_pow2 by lia.
  assert (0 < 2 ^ k) by (apply Z.pow_pos_nonneg; lia).
  split; [apply Z.div_pos; lia|].
  apply Z.le_lt_trans with w; [|lia]. apply Z.div_le_upper_bound; nia.
Qed.

Lemma testbit_uint z t : 0 <= t < 32 -> Z.testbit (uint z) t = Z.testbit z t.
Proof. intros Ht. unfold uint. apply Z.mod_pow2_bits_low. lia. Qed.

(** ** The filling loops *)

Lemma fill_down_length f k : forall base ret,
  length (fill_down f k base ret) = length ret.
Proof.
  induction k as [|k IH]; intros base ret; cbn [fill_down]; [reflexivity|].
  rewrite IH, length_insert. reflexivity.
Qed.

Lemma fill_down_lookup f k : forall base ret j,
  (base + k < length ret)%nat ->
  fill_down f k base ret !!! j =
  if bool_decide (base < j <= base + k)%nat then f j else ret !!! j.
Proof.
  induction k as [|k IH]; intros base ret j Hk; cbn [fill_down].
  - rewrite bool_decide_eq_false_2 by lia. reflexivity.
  - rewrite IH by (rewrite length_insert; lia).
    destruct (decide (j = base + S k)%nat) as [->|Hne].
    + rewrite bool_decide_eq_false_2 by lia. rewrite bool_decide_eq_true_2 by lia.
      apply list_lookup_total_insert_eq. lia.
    + rewrite list_lookup_total_insert_ne by lia.
      destruct (decide (base < j <= base + k)%nat).
      * rewrite !bool_decide_eq_true_2 by lia. reflexivity.
      * rewrite !bool_decide_eq_false_2 by lia. reflexivity.
Qed.

Lemma fill_up_length f k : forall i ret,
  length (fill_up f k i ret) = length ret.
Proof.
  induction k as [|k IH]; intros i ret; cbn [fill_up]; [reflexivity|].
  rewrite IH, length_insert. reflexivity.
Qed.

Lemma fill_up_lookup f k : forall i ret j,
  (i + k <= length ret)%nat ->
  fill_up f k i ret !!! j =
  if bool_decide (i <= j < i + k)%nat then f j else ret !!! j.
Proof.
  induction k as [|k IH]; intros i ret j Hk; cbn [fill_up].
  - rewrite bool_decide_eq_false_2 by lia. reflexivity.
  - rewrite IH by (rewrite length_insert; lia).
    destruct (decide (j = i)) as [->|Hne].
    + rewrite bool_decide_eq_false_2 by lia. rewrite bool_decide_eq_true_2 by lia.
      apply list_lookup_total_insert_eq. lia.
    + rewrite list_lookup_total_insert_ne by lia.
      destruct (decide (S i <= j < S i + k)%nat).
      * rewrite !bool_decide_eq_true_2 by lia. reflexivity.
      * rewrite !bool_decide_eq_false_2 by lia. reflexivity.
Qed.

Lemma zero_lookup n j : (j < n)%nat -> zero n !!! j = 0.
Proof. intros H. apply lookup_total_replicate_2. exact H. Qed.

Lemma Forall_in_word_lookup (a : list Z) :
  (forall j, (j < length a)%nat -> in_word (a !!! j)) -> Forall in_word a.
Proof.
  intros H. apply Forall_lookup_2. intros j w Hj.
  pose proof (lookup_lt_Some _ _ _ Hj) as Hlt. specialize (H j Hlt).
  rewrite list_lookup_total_alt, Hj in H. exact H.
Qed.

(** ** Shifts multiply and divide by powers of two *)

Lemma shl_loop_aligned_fill k fs l (a ret : list Z) :
  shl_loop_aligned k fs l a ret =
  fill_down (fun i => uint (a !!! (i - fs)%nat ≪ l)) k fs ret.
Proof.
  revert ret. induction k as [|k IH]; intros ret; cbn [shl_loop_aligned fill_down];
    [reflexivity|apply IH].
Qed.

Lemma shl_loop_fill k fs l r (a ret : list Z) :
  shl_loop k fs l r a ret =
  fill_down (fun i => Z.lor (uint (a !!! (i - fs)%nat ≪ l))
                            (a !!! (i - fs - 1)%nat ≫ r)) k fs ret.
Proof.
  revert ret. induction k as [|k IH]; intros ret; cbn [shl_loop fill_down];
    [reflexivity|apply IH].
Qed.

Lemma shr_loop_aligned_fill k i fs (a ret : list Z) :
  shr_loop_aligned k i fs a ret = fill_up (fun i => a !!! (i + fs)%nat) k i ret.
Proof.
  revert i ret. induction k as [|k IH]; intros i ret; cbn [shr_loop_aligned fill_up];
    [reflexivity|apply IH].
Qed.

Lemma shr_loop_fill k i fs s (a ret : list Z) :
  shr_loop k i fs s a ret =
  fill_up (fun i => Z.lor (a !!! (i + fs)%nat ≫ s)
                          (uint (a !!! (i + fs + 1)%nat ≪ (32 - s)))) k i ret.
Proof.
  revert i ret. induction k as [|k IH]; intros i ret; cbn [shr_loop fill_up];
    [reflexivity|apply IH].
Qed.

Section Shifts.

Variable n : nat.
Variable a : list Z.
Hypothesis a_wf : wf n a.

Lemma op_shl_big s : Z.of_nat n * 32 <= s -> op_shl n a s = zero n.
Proof.
  intros H. unfold op_shl. destruct (Z.leb_spec (Z.of_nat n * 32) s); [|lia].
  apply of_u64_0.
Qed.

Lemma op_shr_big s : Z.of_nat n * 32 <= s -> op_shr n a s = zero n.
Proof.
  intros H. unfold op_shr. destruct (Z.leb_spec (Z.of_nat n * 32) s); [|lia].
  apply of_u64_0.
Qed.

Lemma op_shl_length s : length (op_shl n a s) = n.
Proof.
  unfold op_shl. destruct (_ <=? _); [apply of_u64_length|].
  rewrite length_insert. destruct (_ =? _).
  - rewrite shl_loop_aligned_fill, fill_down_length. apply of_u64_length.
  - rewrite shl_loop_fill, fill_down_length. apply of_u64_length.
Qed.

Lemma op_shr_length s : length (op_shr n a s) = n.
Proof.
  unfold op_shr. destruct (_ <=? _); [apply of_u64_length|].
  destruct (_ =? _).
  - rewrite shr_loop_aligned_fill, fill_up_length. apply of_u64_length.
  - rewrite length_insert, shr_loop_fill, fill_up_length. apply of_u64_length.
Qed.

Lemma testbit_value_word (j : nat) t :
  (j < n)%nat -> 0 <= t < 32 ->
  Z.testbit (value a) (32 * Z.of_nat j + t) = Z.testbit (a !!! j) t.
Proof.
  intros Hj Ht. apply testbit_value; [apply (wf_words n); exact a_wf| |exact Ht].
  rewrite (wf_length n) by exact a_wf. exact Hj.
Qed.

Lemma op_shl_word s (j : nat) t :
  0 <= s < Z.of_nat n * 32 -> (j < n)%nat -> 0 <= t < 32 ->
  in_word (op_shl n a s !!! j) /\
  Z.testbit (op_shl n a s !!! j) t = Z.testbit (value a) (32 * Z.of_nat j + t - s).
Proof.
  intros Hs Hj Ht. unfold op_shl.
  destruct (Z.leb_spec (Z.of_nat n * 32) s) as [|_]; [lia|]. rewrite of_u64_0.
  pose proof (Z.div_mod s 32 ltac:(lia)) as Es.
  pose proof (Z.mod_pos_bound s 32 ltac:(lia)) as Hl.
  assert (0 <= s / 32 < Z.of_nat n) as Hfs.
  { split; [apply Z.div_pos; lia|apply Z.div_lt_upper_bound; lia]. }
  set (fs := Z.to_nat (s / 32)). set (l := s mod 32) in *.
  assert (s = 32 * Z.of_nat fs + l) as Es' by (unfold fs; lia).
  assert (fs < n)%nat as Hfsn by (unfold fs; lia).
  pose proof (fun i => wf_lookup n a i a_wf) as Hw.
  destruct (decide (j = fs)) as [->|Hne].
  - rewrite list_lookup_total_insert_eq.
    2:{ destruct (l =? 0).
        - rewrite shl_loop_aligned_fill, fill_down_length, zero_length. lia.
        - rewrite shl_loop_fill, fill_down_length, zero_length. lia. }
    split; [apply uint_range|].
    rewrite testbit_uint, Z.shiftl_spec by lia.
    replace (32 * Z.of_nat fs + t - s) with (t - l) by lia.
    destruct (Z.lt_ge_cases t l).
    + rewrite !Z.testbit_neg_r by lia. reflexivity.
    + replace (t - l) with (32 * Z.of_nat 0 + (t - l)) at 2 by lia.
      rewrite testbit_value_word by lia. reflexivity.
  - rewrite list_lookup_total_insert_ne by lia.
    destruct (Z.eqb_spec l 0) as [El|El].
    + rewrite shl_loop_aligned_fill, fill_down_lookup by (rewrite zero_length; lia).
      destruct (decide (fs < j)%nat).
      * rewrite bool_decide_eq_true_2 by lia. split; [apply uint_range|].
        rewrite testbit_uint, Z.shiftl_spec by lia.
        replace (32 * Z.of_nat j + t - s) with (32 * Z.of_nat (j - fs) + (t - l)) by lia.
        rewrite testbit_value_word by lia. reflexivity.
      * rewrite bool_decide_eq_false_2 by lia. rewrite zero_lookup by lia.
        split; [unfold in_word; lia|].
        rewrite Z.bits_0, Z.testbit_neg_r by lia. reflexivity.
    + rewrite shl_loop_fill, fill_down_lookup by (rewrite zero_length; lia).
      destruct (decide (fs < j)%nat).
      * rewrite bool_decide_eq_true_2 by lia.
        split; [apply lor_in_word; [apply uint_range|apply shiftr_in_word; [apply Hw|lia]]|].
        rewrite Z.lor_spec, testbit_uint, Z.shiftl_spec, Z.shiftr_spec by lia.
        destruct (Z.lt_ge_cases t l).
        -- rewrite (Z.testbit_neg_r _ (t - l)) by lia. cbn [orb].
           replace (32 * Z.of_nat j + t - s)
             with (32 * Z.of_nat (j - fs - 1) + (t + (32 - l))) by lia.
           rewrite testbit_value_word by lia. reflexivity.
        -- rewrite (testbit_word_high _ (t + (32 - l))) by (apply Hw || lia).
           rewrite orb_false_r.
           replace (32 * Z.of_nat j + t - s) with (32 * Z.of_nat (j - fs) + (t - l)) by lia.
           rewrite testbit_value_word by lia. reflexivity.
      * rewrite bool_decide_eq_false_2 by lia. rewrite zero_lookup by lia.
        split; [unfold in_word; lia|].
        rewrite Z.bits_0, Z.testbit_neg_r by lia. reflexivity.
Qed.

Lemma op_shl_wf s : wf n (op_shl n a s).
Proof.
  split; [apply op_shl_length|].
  destruct (Z.le_gt_cases (Z.of_nat n * 32) s).
  - rewrite op_shl_big by assumption. apply zero_wf.
  - destruct (Z.lt_ge_cases s 0).
    + apply Forall_in_word_lookup. rewrite op_shl_length. intros j Hj.
      unfold op_shl. destruct (Z.leb_spec (Z.of_nat n * 32) s); [lia|].
      assert (s / 32 < 0) by (apply Z.div_lt_upper_bound; lia).
      replace (Z.to_nat (s / 32)) with 0%nat by lia.
      pose proof (Z.mod_pos_bound s 32 ltac:(lia)).
      pose proof (fun i => wf_lookup n a i a_wf) as Hw.
      destruct (decide (j = 0%nat)) as [->|Hne].
      * rewrite list_lookup_total_insert_eq; [apply uint_range|].
        destruct (_ =? _).
        -- rewrite shl_loop_aligned_fill, fill_down_length, of_u64_length. lia.
        -- rewrite shl_loop_fill, fill_down_length, of_u64_length. lia.
      * rewrite list_lookup_total_insert_ne by lia. destruct (_ =? _).
        -- rewrite shl_loop_aligned_fill, fill_down_lookup by (rewrite of_u64_length; lia).
           rewrite bool_decide_eq_true_2 by lia. apply uint_range.
        -- rewrite shl_loop_fill, fill_down_lookup by (rewrite of_u64_length; lia).
           rewrite bool_decide_eq_true_2 by lia.
           apply lor_in_word; [apply uint_range|apply shiftr_in_word; [apply Hw|lia]].
    + apply Forall_in_word_lookup. rewrite op_shl_length. intros j Hj.
      apply (op_shl_word s j 0); lia.
Qed.

Lemma op_shl_value s :
  0 <= s -> value (op_shl n a s) = (value a * 2 ^ s) mod pow32 n.
Proof.
  intros Hs. destruct (Z.le_gt_cases (Z.of_nat n * 32) s) as [Hbig|Hsmall].
  - rewrite op_shl_big, value_zero by assumption. symmetry.
    replace s with (32 * Z.of_nat n + (s - 32 * Z.of_nat n)) by lia.
    rewrite Z.pow_add_r by lia. fold (pow32 n).
    rewrite Z.mul_assoc, (Z.mul_comm (value a)), <- Z.mul_assoc.
    rewrite Z.mul_comm. apply Z.mod_mul. pose proof (pow32_pos n). lia.
  - pose proof (pow32_pos n) as Hp.
    apply value_eq_bits.
    + apply (wf_words n), op_shl_wf.
    + rewrite op_shl_length. apply Z.mod_pos_bound. exact Hp.
    + rewrite op_shl_length. intros j t Hj Ht.
      destruct (op_shl_word s j t) as [_ ->]; [lia..|].
      unfold pow32. rewrite Z.mod_pow2_bits_low by lia.
      rewrite Z.mul_pow2_bits by lia. reflexivity.
Qed.

Lemma testbit_value_above k :
  32 * Z.of_nat n <= k -> Z.testbit (value a) k = false.
Proof.
  intros Hk. apply testbit_value_high; [apply (wf_words n); exact a_wf|].
  rewrite (wf_length n) by exact a_wf. exact Hk.
Qed.

Lemma op_shr_word s (j : nat) t :
  0 <= s < Z.of_nat n * 32 -> (j < n)%nat -> 0 <= t < 32 ->
  in_word (op_shr n a s !!! j) /\
  Z.testbit (op_shr n a s !!! j) t = Z.testbit (value a) (32 * Z.of_nat j + t + s).
Proof.
  intros Hs Hj Ht. unfold op_shr.
  destruct (Z.leb_spec (Z.of_nat n * 32) s) as [|_]; [lia|]. rewrite of_u64_0.
  change (32 - 1) with (Z.ones 5). rewrite Z.land_ones by lia. change (2 ^ 5) with 32.
  pose proof (Z.div_mod s 32 ltac:(lia)) as Es.
  pose proof (Z.mod_pos_bound s 32 ltac:(lia)) as Hl.
  assert (0 <= s / 32 < Z.of_nat n) as Hfs.
  { split; [apply Z.div_pos; lia|apply Z.div_lt_upper_bound; lia]. }
  set (fs := Z.to_nat (s / 32)). set (l := s mod 32) in *.
  assert (s = 32 * Z.of_nat fs + l) as Es' by (unfold fs; lia).
  assert (fs < n)%nat as Hfsn by (unfold fs; lia).
  pose proof (fun i => wf_lookup n a i a_wf) as Hw.
  destruct (Z.eqb_spec l 0) as [El|El].
  - rewrite shr_loop_aligned_fill, fill_up_lookup by (rewrite zero_length; lia).
    destruct (decide (j < n - fs)%nat).
    + rewrite bool_decide_eq_true_2 by lia. split; [apply Hw|].
      replace (32 * Z.of_nat j + t + s) with (32 * Z.of_nat (j + fs) + t) by lia.
      rewrite testbit_value_word by lia. reflexivity.
    + rewrite bool_decide_eq_false_2 by lia. rewrite zero_lookup by lia.
      split; [unfold in_word; lia|].
      rewrite Z.bits_0, testbit_value_above by lia. reflexivity.
  - destruct (decide (j = n - fs - 1)%nat) as [->|Hne].
    + rewrite list_lookup_total_insert_eq
        by (rewrite shr_loop_fill, fill_up_length, zero_length; lia).
      split; [apply shiftr_in_word; [apply Hw|lia]|].
      rewrite Z.shiftr_spec by lia.
      replace (n - fs - 1 + fs)%nat with (n - 1)%nat by lia.
      destruct (Z.lt_ge_cases (t + l) 32).
      * replace (32 * Z.of_nat (n - fs - 1) + t + s)
          with (32 * Z.of_nat (n - 1) + (t + l)) by lia.
        rewrite testbit_value_word by lia. reflexivity.
      * rewrite testbit_word_high by (apply Hw || lia).
        rewrite testbit_value_above by lia. reflexivity.
    + rewrite list_lookup_total_insert_ne by lia.
      rewrite shr_loop_fill, fill_up_lookup by (rewrite zero_length; lia).
      destruct (decide (j < n - fs - 1)%nat).
      * rewrite bool_decide_eq_true_2 by lia.
        split; [apply lor_in_word; [apply shiftr_in_word; [apply Hw|lia]|apply uint_range]|].
        rewrite Z.lor_spec, testbit_uint, Z.shiftl_spec, Z.shiftr_spec by lia.
        destruct (Z.lt_ge_cases (t + l) 32).
        -- rewrite (Z.testbit_neg_r _ (t - (32 - l))) by lia. rewrite orb_false_r.
           replace (32 * Z.of_nat j + t + s) with (32 * Z.of_nat (j + fs) + (t + l)) by lia.
           rewrite testbit_value_word by lia. reflexivity.
        -- rewrite (testbit_word_high _ (t + l)) by (apply Hw || lia). cbn [orb].
           replace (32 * Z.of_nat j + t + s)
             with (32 * Z.of_nat (j + fs + 1) + (t - (32 - l))) by lia.
           rewrite testbit_value_word by lia. reflexivity.
      * rewrite bool_decide_eq_false_2 by lia. rewrite zero_lookup by lia.
        split; [unfold in_word; lia|].
        rewrite Z.bits_0, testbit_value_above by lia. reflexivity.
Qed.

Lemma op_shr_wf s : 0 <= s -> wf n (op_shr n a s).
Proof.
  intros Hs. split; [apply op_shr_length|].
  destruct (Z.le_gt_cases (Z.of_nat n * 32) s).
  - rewrite op_shr_big by assumption. apply zero_wf.
  - apply Forall_in_word_lookup. rewrite op_shr_length. intros j Hj.
    apply (op_shr_word s j 0); lia.
Qed.

Lemma op_shr_value s : 0 <= s -> value (op_shr n a s) = value a / 2 ^ s.
Proof.
  intros Hs. pose proof (value_wf_range n a a_wf) as Ha.
  assert (0 < 2 ^ s) as Hp by (apply Z.pow_pos_nonneg; lia).
  destruct (Z.le_gt_cases (Z.of_nat n * 32) s) as [Hbig|Hsmall].
  - rewrite op_shr_big, value_zero by assumption. symmetry.
    apply Z.div_small. split; [lia|]. apply Z.lt_le_trans with (pow32 n); [lia|].
    unfold pow32. apply Z.pow_le_mono_r; lia.
  - apply value_eq_bits.
    + apply (wf_words n), op_shr_wf, Hs.
    + rewrite op_shr_length. split; [apply Z.div_pos; lia|].
      apply Z.le_lt_trans with (value a); [|lia].
      apply Z.div_le_upper_bound; nia.
    + rewrite op_shr_length. intros j t Hj Ht.
      destruct (op_shr_word s j t) as [_ ->]; [lia..|].
      rewrite Z.div_pow2_bits by lia. reflexivity.
Qed.

End Shifts.

(** ** Significant bits *)

Lemma bit_length_0 : bit_length 0 = 0.
Proof. reflexivity. Qed.

Lemma bit_length_pos v : 0 < v -> bit_length v = Z.log2 v + 1.
Proof. intros H. unfold bit_length. destruct (Z.eqb_spec v 0); [lia|reflexivity]. Qed.

Lemma bit_length_nonneg v : 0 <= bit_length v.
Proof.
  unfold bit_length. destruct (v =? 0); [lia|]. pose proof (Z.log2_nonneg v). lia.
Qed.

Lemma bit_length_upper v : 0 <= v -> v < 2 ^ bit_length v.
Proof.
  intros H. unfold bit_length. destruct (Z.eqb_spec v 0) as [->|Hne]; [reflexivity|].
  replace (Z.log2 v + 1) with (Z.succ (Z.log2 v)) by lia.
  apply Z.log2_spec. lia.
Qed.

Lemma bit_length_lower v : 0 < v -> 2 ^ (bit_length v - 1) <= v.
Proof.
  intros H. rewrite bit_length_pos by exact H.
  replace (Z.log2 v + 1 - 1) with (Z.log2 v) by lia. apply Z.log2_spec. exact H.
Qed.

Lemma bit_length_unique v k : 0 < k -> 2 ^ (k - 1) <= v < 2 ^ k -> bit_length v = k.
Proof.
  intros Hk Hv. assert (0 < 2 ^ (k - 1)) by (apply Z.pow_pos_nonneg; lia).
  rewrite bit_length_pos by lia.
  rewrite (Z.log2_unique v (k - 1)); [lia|lia|].
  replace (Z.succ (k - 1)) with k by lia. exact Hv.
Qed.

Lemma bit_length_mono u v : 0 <= u <= v -> bit_length u <= bit_length v.
Proof.
  intros H. unfold bit_length.
  destruct (Z.eqb_spec u 0) as [->|Hu]; destruct (Z.eqb_spec v 0) as [->|Hv]; try lia.
  - pose proof (Z.log2_nonneg v). lia.
  - pose proof (Z.log2_le_mono u v). lia.
Qed.

Lemma bit_length_le_bound v k : 0 <= k -> 0 <= v < 2 ^ k -> bit_length v <= k.
Proof.
  intros Hk Hv. unfold bit_length. destruct (Z.eqb_spec v 0); [lia|].
  assert (Z.log2 v < k); [|lia]. apply Z.log2_lt_pow2; lia.
Qed.

Lemma value_all_zero (l : list Z) :
  (forall j, (j < length l)%nat -> l !!! j = 0) -> value l = 0.
Proof.
  induction l as [|w l IH]; intros H; cbn [value]; [reflexivity|].
  rewrite IH.
  - specialize (H 0%nat ltac:(cbn; lia)). cbn in H. lia.
  - intros j Hj. apply (H (S j)). cbn. lia.
Qed.

Lemma value_zero_words (l : list Z) :
  Forall in_word l -> value l = 0 -> forall j, (j < length l)%nat -> l !!! j = 0.
Proof.
  induction 1 as [|w l Hw Hl IH]; intros Hv j Hj; cbn in Hj; [lia|].
  cbn [value] in Hv. pose proof (value_range l Hl) as Hr. unfold in_word in Hw.
  destruct j as [|j]; cbn.
  - lia.
  - apply IH; lia.
Qed.

Lemma value_take_S (a : list Z) i :
  (i < length a)%nat -> value (take (S i) a) = value (take i a) + pow32 i * a !!! i.
Proof.
  intros Hi. rewrite (take_S_r a i (a !!! i)) by (apply list_lookup_lookup_total_lt; exact Hi).
  rewrite value_app, length_take. replace (i `min` length a)%nat with i by lia.
  cbn [value]. lia.
Qed.

Lemma value_take_range (a : list Z) i :
  Forall in_word a -> 0 <= value (take i a) < pow32 i.
Proof.
  intros Ha. pose proof (value_range (take i a) (Forall_take _ i _ Ha)) as H.
  rewrite length_take in H. split; [lia|].
  apply Z.lt_le_trans with (pow32 (i `min` length a)); [lia|].
  unfold pow32. apply Z.pow_le_mono_r; lia.
Qed.

Lemma value_high_zeros (a : list Z) i :
  (i <= length a)%nat ->
  (forall j, (i <= j < length a)%nat -> a !!! j = 0) -> value a = value (take i a).
Proof.
  intros Hi H. rewrite <- (take_drop i a) at 1. rewrite value_app.
  rewrite (value_all_zero (drop i a)); [lia|].
  intros j Hj. rewrite length_drop in Hj.
  rewrite list_lookup_total_alt, lookup_drop, <- list_lookup_total_alt.
  apply H. lia.
Qed.

(** The top word decides the bit length. *)
Lemma bit_length_top_word lo w (i : nat) :
  0 <= lo < pow32 i -> 0 < w ->
  bit_length (lo + pow32 i * w) = 32 * Z.of_nat i + Z.log2 w + 1.
Proof.
  intros Hlo Hw. pose proof (Z.log2_spec w Hw) as Hs. pose proof (Z.log2_nonneg w) as Hn.
  apply bit_length_unique; [lia|].
  replace (32 * Z.of_nat i + Z.log2 w + 1 - 1) with (32 * Z.of_nat i + Z.log2 w) by lia.
  replace (32 * Z.of_nat i + Z.log2 w + 1) with (32 * Z.of_nat i + Z.succ (Z.log2 w)) by lia.
  rewrite !Z.pow_add_r by lia. fold (pow32 i). nia.
Qed.

Lemma num_bits_scan_spec (a : list Z) m :
  let i := num_bits_scan m a in
  (i <= m)%nat /\ (forall j, (i < j <= m)%nat -> a !!! j = 0) /\
  (i <> 0%nat -> a !!! i <> 0).
Proof.
  induction m as [|m IH]; cbn [num_bits_scan]; cbn zeta.
  - split; [lia|split]; [intros j Hj; lia|intros H; congruence].
  - destruct (Z.eqb_spec (a !!! S m) 0) as [E|E].
    + destruct IH as (H1 & H2 & H3). split; [lia|split]; [|exact H3].
      intros j Hj. destruct (decide (j = S m)) as [->|]; [exact E|apply H2; lia].
    + split; [lia|split]; [intros j Hj; lia|intros _; exact E].
Qed.

Lemma num_bits_value n (a : list Z) :
  (1 <= n)%nat -> Z.of_nat n * 32 < 2 ^ 32 -> wf n a ->
  num_bits n a = bit_length (value a).
Proof.
  intros Hn Hbits Ha. unfold num_bits.
  destruct (num_bits_scan_spec a (n - 1)) as (H1 & H2 & H3).
  set (i := num_bits_scan (n - 1) a) in *.
  pose proof (wf_length n a Ha) as Hl. pose proof (wf_words n a Ha) as Hw.
  pose proof (wf_lookup n a i Ha) as Hwi. unfold in_word in Hwi.
  assert (value a = value (take i a) + pow32 i * a !!! i) as Ev.
  { rewrite <- value_take_S by lia. apply value_high_zeros; [lia|].
    intros j Hj. apply H2. lia. }
  pose proof (value_take_range a i Hw) as Hlo.
  destruct (Z.eqb_spec (a !!! i) 0) as [E|E].
  - destruct (decide (i = 0%nat)) as [Hi0|Hi0]; [|exfalso; exact (H3 Hi0 E)].
    rewrite Ev, E, Hi0. rewrite Hi0, pow32_0 in Hlo.
    replace (value (take 0 a) + pow32 0 * 0) with 0 by lia. reflexivity.
  - rewrite Ev, bit_length_top_word by lia. unfold clz.
    assert (Z.log2 (a !!! i) < 32) by (apply Z.log2_lt_pow2; lia).
    pose proof (Z.log2_nonneg (a !!! i)).
    rewrite uint_small by (unfold in_word; lia). lia.
Qed.

(** ** The ordering operators against the numeric order *)

Lemma lt_gt_loop_spec k : forall a x : list Z,
  (k <= length a)%nat -> (k <= length x)%nat -> Forall in_word a -> Forall in_word x ->
  (lt_loop k a x = true -> value (take k a) < value (take k x)) /\
  (lt_loop k a x = false ->
     bit_length (value (take k x)) <= bit_length (value (take k a))) /\
  (gt_loop k a x = true -> value (take k x) < value (take k a)).
Proof.
  induction k as [|k IH]; intros a x Hla Hlx Ha Hx.
  - cbn [lt_loop gt_loop take value]. repeat split; try discriminate; intros; lia.
  - cbn [lt_loop gt_loop]. rewrite !value_take_S by lia.
    pose proof (value_take_range a k Ha) as Ra. pose proof (value_take_range x k Hx) as Rx.
    pose proof (words_lookup a k Ha) as Wa. pose proof (words_lookup x k Hx) as Wx.
    unfold in_word in Wa, Wx. pose proof (pow32_pos k) as Hp.
    destruct (Z.eqb_spec (a !!! k) 0) as [Ea|Ea]; destruct (Z.eqb_spec (x !!! k) 0) as [Ex|Ex];
      cbn [negb orb].
    1:{ rewrite Ea, Ex, !Z.mul_0_r, !Z.add_0_r. apply IH; (lia || assumption). }
    all: repeat split.
    all: try (intros H; apply Z.ltb_lt in H; nia).
    all: try (intros H; apply Z.gtb_gt in H; nia).
    all: intros H; apply Z.ltb_ge in H.
    + rewrite Ea in *. lia.
    + rewrite Ex, Z.mul_0_r, Z.add_0_r. apply bit_length_mono. nia.
    + destruct (decide (a !!! k = x !!! k)) as [E|E].
      * rewrite E, !bit_length_top_word by lia. lia.
      * apply bit_length_mono. nia.
Qed.

Section Ordering.

Variable n : nat.
Variables a x : list Z.
Hypothesis a_wf : wf n a.
Hypothesis x_wf : wf n x.

Lemma op_lt_true : op_lt n a x = true -> value a < value x.
Proof.
  destruct a_wf as [Hla Ha], x_wf as [Hlx Hx]. intros H.
  destruct (lt_gt_loop_spec n a x) as (H1 & _); [lia|lia|assumption|assumption|].
  specialize (H1 H). rewrite <- Hla in H1 at 1. rewrite <- Hlx in H1.
  rewrite !firstn_all in H1. exact H1.
Qed.

Lemma op_lt_false : op_lt n a x = false -> bit_length (value x) <= bit_length (value a).
Proof.
  destruct a_wf as [Hla Ha], x_wf as [Hlx Hx]. intros H.
  destruct (lt_gt_loop_spec n a x) as (_ & H1 & _); [lia|lia|assumption|assumption|].
  specialize (H1 H). rewrite <- Hla in H1 at 2. rewrite <- Hlx in H1.
  rewrite !firstn_all in H1. exact H1.
Qed.

Lemma op_gt_true : op_gt n a x = true -> value x < value a.
Proof.
  destruct a_wf as [Hla Ha], x_wf as [Hlx Hx]. intros H.
  destruct (lt_gt_loop_spec n a x) as (_ & _ & H1); [lia|lia|assumption|assumption|].
  specialize (H1 H). rewrite <- Hla in H1 at 2. rewrite <- Hlx in H1.
  rewrite !firstn_all in H1. exact H1.
Qed.

End Ordering.

(** On values of a single word the operators are the numeric order. *)
Lemma single_word_shape n (a : list Z) :
  wf n a -> (1 <= n)%nat -> value a < 2 ^ 32 ->
  value a = a !!! 0%nat /\ forall j, (1 <= j < n)%nat -> a !!! j = 0.
Proof.
  intros [Hla Ha] Hn Hv. destruct a as [|w l]; [cbn in Hla; lia|].
  inversion Ha as [|? ? Hw Hl]; subst. cbn [value] in *. unfold in_word in Hw.
  pose proof (value_range l Hl) as Hr.
  assert (value l = 0) as E by nia. split; [cbn; lia|].
  intros j Hj. destruct j as [|j]; [lia|]. cbn.
  apply value_zero_words; [exact Hl|exact E|]. cbn in Hj. lia.
Qed.

Lemma op_lt_gt_single_word n (a x : list Z) :
  (1 <= n)%nat -> wf n a -> wf n x -> value a < 2 ^ 32 -> value x < 2 ^ 32 ->
  op_lt n a x = (value a <? value x) /\ op_gt n a x = (value a >? value x).
Proof.
  intros Hn Ha Hx Hva Hvx.
  destruct (single_word_shape n a Ha Hn Hva) as [Ea Za].
  destruct (single_word_shape n x Hx Hn Hvx) as [Ex Zx].
  unfold op_lt, op_gt. replace n with (1 + (n - 1))%nat by lia.
  destruct (lt_gt_loop_skip (n - 1) 1 a x) as [-> ->].
  { intros j Hj. split; [apply Za|apply Zx]; lia. }
  cbn [lt_loop gt_loop]. rewrite Ea, Ex.
  destruct (Z.eqb_spec (a !!! 0%nat) 0) as [E1|E1];
    destruct (Z.eqb_spec (x !!! 0%nat) 0) as [E2|E2]; cbn [negb orb]; try (split; reflexivity).
  rewrite E1, E2. split; reflexivity.
Qed.

(** ** Division and remainder *)

Lemma pow32_half n : (1 <= n)%nat -> pow32 n = 2 * half n.
Proof.
  intros Hn. unfold pow32, half.
  replace (32 * Z.of_nat n) with (1 + (32 * Z.of_nat n - 1)) at 1 by lia.
  rewrite Z.pow_add_r by lia. reflexivity.
Qed.

Lemma half_pos n : (1 <= n)%nat -> 0 < half n.
Proof. intros Hn. unfold half. apply Z.pow_pos_nonneg; lia. Qed.

Lemma top_bit n (r : list Z) :
  (1 <= n)%nat -> wf n r -> r !!! (n - 1)%nat ≫ 31 = value r / half n.
Proof.
  intros Hn [Hl Hw]. rewrite Z.shiftr_div_pow2 by lia.
  assert (value r = value (take (n - 1) r) + pow32 (n - 1) * r !!! (n - 1)%nat) as ->.
  { rewrite <- value_take_S by lia. replace (S (n - 1)) with (length r) by lia.
    rewrite firstn_all. reflexivity. }
  pose proof (value_take_range r (n - 1) Hw) as Hlo. pose proof (pow32_pos (n - 1)) as Hp.
  assert (half n = pow32 (n - 1) * 2 ^ 31) as ->.
  { unfold half, pow32. rewrite <- Z.pow_add_r by lia. f_equal. lia. }
  rewrite <- Z.div_div by lia. f_equal.
  rewrite Z.mul_comm, Z.div_add by lia. rewrite Z.div_small by lia. reflexivity.
Qed.

Lemma sub_top_bit n (rem c : list Z) :
  (1 <= n)%nat -> wf n rem -> wf n c ->
  value rem < 2 * value c -> value c <= value rem + half n ->
  let r := op_sub n rem c in
  (value c <= value rem -> r !!! (n - 1)%nat ≫ 31 = 0 /\ value r = value rem - value c) /\
  (value rem < value c -> r !!! (n - 1)%nat ≫ 31 = 1).
Proof.
  intros Hn Hrem Hc H2 Hh r. unfold r.
  rewrite top_bit by (exact Hn || apply op_sub_wf; assumption).
  rewrite op_sub_value by assumption.
  pose proof (value_wf_range n rem Hrem) as Rr. pose proof (value_wf_range n c Hc) as Rc.
  pose proof (pow32_half n Hn) as Ep. pose proof (half_pos n Hn) as Hp.
  split; intros Hcmp.
  - rewrite Z.mod_small by lia. split; [|reflexivity]. apply Z.div_small. lia.
  - assert ((value rem - value c) mod pow32 n = value rem - value c + pow32 n) as ->.
    { symmetry. apply Z.mod_unique with (q := -1); lia. }
    symmetry. apply Z.div_unique with (r := value rem - value c + half n); lia.
Qed.

Section Division.

Variable n : nat.
Hypothesis n_pos : (1 <= n)%nat.

Variable x : list Z.
Hypothesis x_pos : 0 < value x.

Variable va : Z.
Hypothesis va_range : 0 <= va < pow32 n.

Lemma div_mod_step k (rem quo c e : list Z) :
  0 <= k -> wf n rem -> wf n quo -> wf n c -> wf n e ->
  value c = value x * 2 ^ k -> value e = 2 ^ k ->
  value rem < 2 * value c -> value c <= value rem + half n ->
  value quo * value x + value rem = va ->
  let r := op_sub n rem c in
  let top := r !!! (n - 1)%nat ≫ 31 in
  let rem' := if top =? 0 then r else rem in
  let quo' := if top =? 0 then op_add n quo e else quo in
  negb (uint (1 - top) =? 0) = (top =? 0) /\
  wf n rem' /\ wf n quo' /\
  value quo' * value x + value rem' = va /\ value rem' < value c.
Proof.
  intros Hk Hrem Hquo Hc He Ec Ee H2 Hh Hva.
  pose proof (value_wf_range n rem Hrem) as Rr.
  pose proof (value_wf_range n quo Hquo) as Rq.
  pose proof (value_wf_range n c Hc) as Rc.
  destruct (sub_top_bit n rem c n_pos Hrem Hc H2 Hh) as [Hge Hlt].
  pose proof (op_sub_wf n rem c Hrem Hc) as Hr.
  pose proof (op_add_wf n quo e Hquo He) as Hqe.
  pose proof (op_add_value n quo e Hquo He) as Eqe.
  assert (0 < 2 ^ k) as Hpk by (apply Z.pow_pos_nonneg; lia).
  cbn zeta. destruct (Z.le_gt_cases (value c) (value rem)) as [Hcmp|Hcmp].
  - destruct (Hge Hcmp) as [-> Er]. change (uint (1 - 0)) with 1. cbn [Z.eqb negb].
    assert (value (op_add n quo e) = value quo + 2 ^ k) as Eq'.
    { rewrite Eqe, Ee. apply Z.mod_small. nia. }
    split; [reflexivity|]. split; [assumption|]. split; [assumption|]. split; nia.
  - rewrite (Hlt Hcmp). change (uint (1 - 1)) with 0. cbn [Z.eqb negb].
    split; [reflexivity|]. split; [assumption|]. split; [assumption|]. split; lia.
Qed.

Lemma div_mod_loop_spec k : forall rem quo c e : list Z,
  wf n rem -> wf n quo -> wf n c -> wf n e ->
  value c = value x * 2 ^ Z.of_nat k -> value e = 2 ^ Z.of_nat k ->
  value rem < 2 * value c -> value c <= value rem + half n ->
  value quo * value x + value rem = va ->
  let q := div_loop n k rem quo c e in
  let m := mod_loop n k rem c in
  wf n q /\ wf n m /\ value q * value x + value m = va /\ 0 <= value m < value x.
Proof.
  induction k as [|k IH]; intros rem quo c e Hrem Hquo Hc He Ec Ee H2 Hh Hva.
  - destruct (div_mod_step 0 rem quo c e) as (Ed & Hr' & Hq' & Hv' & Hlt);
      try assumption; [lia|].
    cbn [div_loop mod_loop]; cbn zeta. rewrite Ed.
    set (top := op_sub n rem c !!! (n - 1)%nat ≫ 31) in *. cbn zeta in *.
    change (2 ^ Z.of_nat 0) with 1 in Ec.
    pose proof (value_wf_range n _ Hr').
    split; [assumption|]. split; [assumption|]. split; lia.
  - destruct (div_mod_step (Z.of_nat (S k)) rem quo c e) as (Ed & Hr' & Hq' & Hv' & Hlt);
      try assumption; [lia|].
    cbn [div_loop mod_loop]; cbn zeta. rewrite Ed.
    set (top := op_sub n rem c !!! (n - 1)%nat ≫ 31) in *. cbn zeta in *.
    assert (0 < 2 ^ Z.of_nat k) as Hpk by (apply Z.pow_pos_nonneg; lia).
    rewrite Nat2Z.inj_succ, Z.pow_succ_r in Ec, Ee by lia.
    pose proof (value_wf_range n c Hc) as Rc.
    assert (value (op_shr n c 1) = value x * 2 ^ Z.of_nat k) as Ec'.
    { rewrite op_shr_value by (assumption || lia). rewrite Ec. change (2 ^ 1) with 2.
      replace (value x * (2 * 2 ^ Z.of_nat k)) with (value x * 2 ^ Z.of_nat k * 2) by lia.
      apply Z.div_mul. lia. }
    apply IH; try assumption.
    + apply op_shr_wf; [assumption|lia].
    + apply op_shr_wf; [assumption|lia].
    + rewrite op_shr_value by (assumption || lia). rewrite Ee. change (2 ^ 1) with 2.
      rewrite Z.mul_comm. apply Z.div_mul. lia.
    + rewrite Ec'. lia.
    + rewrite Ec'. pose proof (pow32_half n n_pos). pose proof (half_pos n n_pos).
      pose proof (value_wf_range n _ Hr'). nia.
Qed.

End Division.

Lemma div_mod_value n (a x : list Z) :
  (1 <= n)%nat -> Z.of_nat n * 32 < 2 ^ 32 -> wf n a -> wf n x -> 0 < value x ->
  wf n (op_div n a x) /\ wf n (op_mod n a x) /\
  value (op_mod n a x) = value a mod value x /\
  value (op_div n a x) = if op_lt n a x then value a else value a / value x.
Proof.
  intros Hn Hbits Ha Hx Hpos. unfold op_div, op_mod.
  pose proof (value_wf_range n a Ha) as Ra. pose proof (value_wf_range n x Hx) as Rx.
  destruct (op_lt n a x) eqn:Hlt.
  - apply op_lt_true in Hlt; [|assumption..].
    rewrite Z.mod_small by lia.
    split; [assumption|]. split; [assumption|]. split; reflexivity.
  - apply op_lt_false in Hlt; [|assumption..].
    rewrite !num_bits_value by assumption.
    set (na := bit_length (value a)) in *. set (nx := bit_length (value x)) in *.
    assert (1 <= nx) as Hnx.
    { unfold nx. rewrite bit_length_pos by lia. pose proof (Z.log2_nonneg (value x)). lia. }
    assert (0 < value a) as Hapos.
    { destruct (Z.eq_dec (value a) 0) as [E|E]; [|lia]. unfold na in Hlt.
      rewrite E, bit_length_0 in Hlt. lia. }
    assert (na <= 32 * Z.of_nat n) as Hna by (apply bit_length_le_bound; [lia|apply Ra]).
    pose proof (bit_length_upper (value a) ltac:(lia)) as Ua. fold na in Ua.
    pose proof (bit_length_lower (value a) Hapos) as La. fold na in La.
    pose proof (bit_length_upper (value x) ltac:(lia)) as Ux. fold nx in Ux.
    pose proof (bit_length_lower (value x) Hpos) as Lx. fold nx in Lx.
    rewrite uint_small by (unfold in_word; lia).
    set (bd := na - nx) in *.
    assert (0 < 2 ^ bd) as Hpbd by (apply Z.pow_pos_nonneg; lia).
    assert (2 ^ na = 2 ^ (nx - 1) * 2 * 2 ^ bd) as Ena.
    { replace na with ((nx - 1) + 1 + bd) by lia. rewrite !Z.pow_add_r by lia. reflexivity. }
    assert (2 ^ nx = 2 ^ (nx - 1) * 2) as Enx.
    { replace nx with ((nx - 1) + 1) at 1 by lia. rewrite Z.pow_add_r by lia. reflexivity. }
    assert (0 < 2 ^ (nx - 1)) as Hpnx by (apply Z.pow_pos_nonneg; lia).
    assert (2 ^ (na - 1) = 2 ^ (nx - 1) * 2 ^ bd) as Ena1.
    { replace (na - 1) with ((nx - 1) + bd) by lia. rewrite !Z.pow_add_r by lia. reflexivity. }
    assert (2 ^ na <= pow32 n) as Hnap by (unfold pow32; apply Z.pow_le_mono_r; lia).
    assert (2 ^ (na - 1) <= half n) as Hnah by (unfold half; apply Z.pow_le_mono_r; lia).
    assert (value (op_shl n x bd) = value x * 2 ^ bd) as Ec.
    { rewrite op_shl_value by (assumption || lia). apply Z.mod_small. nia. }
    assert (value (op_shl n (of_u64 n 1) bd) = 2 ^ bd) as Ee.
    { rewrite op_shl_value by (apply of_u64_wf || lia).
      rewrite of_u64_value by (unfold in_word; lia). rewrite Z.mul_1_l.
      apply Z.mod_small. nia. }
    destruct (div_mod_loop_spec n Hn x Hpos (value a) Ra (Z.to_nat bd)
                a (of_u64 n 0) (op_shl n x bd) (op_shl n (of_u64 n 1) bd))
      as (Hq & Hm & Hv & Hr).
    + exact Ha.
    + apply of_u64_wf.
    + apply op_shl_wf. exact Hx.
    + apply op_shl_wf, of_u64_wf.
    + rewrite Z2Nat.id by lia. exact Ec.
    + rewrite Z2Nat.id by lia. exact Ee.
    + rewrite Ec. nia.
    + rewrite Ec. nia.
    + rewrite of_u64_0, value_zero. lia.
    + split; [exact Hq|]. split; [exact Hm|]. split.
      * apply Z.mod_unique with (q := value (div_loop n (Z.to_nat bd) a (of_u64 n 0)
            (op_shl n x bd) (op_shl n (of_u64 n 1) bd))); lia.
      * apply Z.div_unique with (r := value (mod_loop n (Z.to_nat bd) a (op_shl n x bd))); lia.
Qed.

(** ** Division by the zero value *)

Section DivisionByZero.

Variable n : nat.
Hypothesis n_pos : (1 <= n)%nat.
Hypothesis n_bits : Z.of_nat n * 32 < 2 ^ 32.

Variable a : list Z.
Hypothesis a_wf : wf n a.

Lemma op_sub_zero : op_sub n a (zero n) = a.
Proof.
  apply (wf_value_inj n); [apply op_sub_wf; [exact a_wf|apply zero_wf]|exact a_wf|].
  rewrite op_sub_value by (exact a_wf || apply zero_wf).
  rewrite value_zero, Z.sub_0_r. apply Z.mod_small, value_wf_range, a_wf.
Qed.

Lemma op_shr_zero s : 0 <= s -> op_shr n (zero n) s = zero n.
Proof.
  intros Hs. apply (wf_value_inj n); [apply op_shr_wf; [apply zero_wf|exact Hs]|apply zero_wf|].
  rewrite op_shr_value by (apply zero_wf || exact Hs).
  rewrite value_zero. apply Z.div_0_l. assert (0 < 2 ^ s) by (apply Z.pow_pos_nonneg; lia). lia.
Qed.

Lemma op_shl_zero s : 0 <= s -> op_shl n (zero n) s = zero n.
Proof.
  intros Hs. apply (wf_value_inj n); [apply op_shl_wf; apply zero_wf|apply zero_wf|].
  rewrite op_shl_value by (apply zero_wf || exact Hs).
  rewrite value_zero. apply Z.mod_0_l. pose proof (pow32_pos n). lia.
Qed.

Lemma op_lt_zero : op_lt n a (zero n) = false.
Proof.
  destruct (op_lt n a (zero n)) eqn:E; [|reflexivity].
  apply op_lt_true in E; [|exact a_wf|apply zero_wf].
  rewrite value_zero in E. pose proof (value_wf_range n a a_wf). lia.
Qed.

Lemma mod_loop_zero k : mod_loop n k a (zero n) = a.
Proof.
  induction k as [|k IH]; cbn [mod_loop]; cbn zeta; rewrite op_sub_zero.
  - destruct (_ =? _); reflexivity.
  - rewrite op_shr_zero by lia. destruct (_ =? _); exact IH.
Qed.

Lemma op_mod_zero : op_mod n a (zero n) = a.
Proof.
  unfold op_mod. rewrite op_lt_zero, op_shl_zero; [apply mod_loop_zero|].
  apply uint_range.
Qed.

Lemma top_bit_cases :
  (value a < half n /\ a !!! (n - 1)%nat ≫ 31 = 0) \/
  (half n <= value a /\ a !!! (n - 1)%nat ≫ 31 = 1).
Proof.
  rewrite top_bit by assumption.
  pose proof (value_wf_range n a a_wf) as Ra. pose proof (pow32_half n n_pos) as Ep.
  pose proof (half_pos n n_pos) as Hp.
  destruct (Z.lt_ge_cases (value a) (half n)) as [H|H]; [left|right]; split; try assumption.
  - apply Z.div_small. lia.
  - symmetry. apply Z.div_unique with (r := value a - half n); lia.
Qed.

Lemma div_loop_zero_top_set k : forall quo e : list Z,
  half n <= value a -> div_loop n k a quo (zero n) e = quo.
Proof.
  induction k as [|k IH]; intros quo e Hv; cbn [div_loop]; cbn zeta; rewrite op_sub_zero;
    destruct top_bit_cases as [[H _]|[_ ->]]; try lia;
    change (uint (1 - 1)) with 0; cbn [Z.eqb negb].
  - reflexivity.
  - rewrite op_shr_zero by lia. apply IH. exact Hv.
Qed.

Lemma div_loop_zero_top_clear k : forall quo e : list Z,
  value a < half n -> wf n quo -> wf n e -> value e = 2 ^ Z.of_nat k ->
  value quo + 2 ^ (Z.of_nat k + 1) - 1 < pow32 n ->
  let q := div_loop n k a quo (zero n) e in
  wf n q /\ value q = value quo + 2 ^ (Z.of_nat k + 1) - 1.
Proof.
  induction k as [|k IH]; intros quo e Hv Hquo He Ee Hfit; cbn [div_loop]; cbn zeta;
    rewrite op_sub_zero; destruct top_bit_cases as [[_ ->]|[H _]]; try lia;
    change (uint (1 - 0)) with 1; cbn [Z.eqb negb];
    pose proof (value_wf_range n quo Hquo) as Rq;
    pose proof (op_add_wf n quo e Hquo He) as Hqe;
    pose proof (op_add_value n quo e Hquo He) as Eqe.
  - change (2 ^ Z.of_nat 0) with 1 in *. change (2 ^ (Z.of_nat 0 + 1)) with 2 in *.
    split; [exact Hqe|]. rewrite Eqe, Ee. rewrite Z.mod_small; lia.
  - assert (0 < 2 ^ Z.of_nat k) as Hpk by (apply Z.pow_pos_nonneg; lia).
    assert (2 ^ Z.of_nat (S k) = 2 * 2 ^ Z.of_nat k) as E1.
    { rewrite Nat2Z.inj_succ, Z.pow_succ_r by lia. reflexivity. }
    assert (2 ^ (Z.of_nat (S k) + 1) = 4 * 2 ^ Z.of_nat k) as E2.
    { rewrite Z.pow_add_r, E1 by lia. change (2 ^ 1) with 2. lia. }
    assert (2 ^ (Z.of_nat k + 1) = 2 * 2 ^ Z.of_nat k) as E3.
    { rewrite Z.pow_add_r by lia. change (2 ^ 1) with 2. lia. }
    rewrite E2 in *. rewrite E1 in Ee.
    assert (value (op_add n quo e) = value quo + 2 * 2 ^ Z.of_nat k) as Eq'.
    { rewrite Eqe, Ee. apply Z.mod_small. lia. }
    destruct (IH (op_add n quo e) (op_shr n e 1)) as [Hw Hval].
    + exact Hv.
    + exact Hqe.
    + apply op_shr_wf; [exact He|lia].
    + rewrite op_shr_value by (exact He || lia). rewrite Ee. change (2 ^ 1) with 2.
      rewrite Z.mul_comm. apply Z.div_mul. lia.
    + rewrite Eq', E3. lia.
    + rewrite op_shr_zero by lia. split; [exact Hw|]. rewrite Hval, Eq', E3. lia.
Qed.

Lemma op_div_zero :
  wf n (op_div n a (zero n)) /\
  value (op_div n a (zero n)) =
    if value a <? half n then 2 ^ (bit_length (value a) + 1) - 1 else 0.
Proof.
  unfold op_div. rewrite op_lt_zero.
  rewrite !num_bits_value by (assumption || apply zero_wf).
  rewrite value_zero, bit_length_0, Z.sub_0_r.
  pose proof (value_wf_range n a a_wf) as Ra. pose proof (pow32_half n n_pos) as Ep.
  pose proof (half_pos n n_pos) as Hp.
  pose proof (bit_length_nonneg (value a)) as Hnn.
  assert (bit_length (value a) <= 32 * Z.of_nat n) as Hna
    by (apply bit_length_le_bound; [lia|apply Ra]).
  rewrite uint_small by (unfold in_word; lia).
  rewrite op_shl_zero by lia.
  destruct (Z.ltb_spec (value a) (half n)) as [Hlt|Hge].
  - assert (bit_length (value a) <= 32 * Z.of_nat n - 1) as Hna'
      by (apply bit_length_le_bound; [lia|fold (half n); lia]).
    set (na := bit_length (value a)) in *.
    assert (2 ^ (na + 1) <= pow32 n) as Hfit by (unfold pow32; apply Z.pow_le_mono_r; lia).
    assert (0 < 2 ^ na) as Hpna by (apply Z.pow_pos_nonneg; lia).
    assert (2 ^ (na + 1) = 2 * 2 ^ na) as E1.
    { rewrite Z.pow_add_r by lia. change (2 ^ 1) with 2. lia. }
    rewrite of_u64_0.
    destruct (div_loop_zero_top_clear (Z.to_nat na) (zero n) (op_shl n (of_u64 n 1) na))
      as [Hw Hval].
    + exact Hlt.
    + apply zero_wf.
    + apply op_shl_wf, of_u64_wf.
    + rewrite Z2Nat.id by lia. rewrite op_shl_value by (apply of_u64_wf || lia).
      rewrite of_u64_value by (unfold in_word; lia). rewrite Z.mul_1_l.
      apply Z.mod_small. lia.
    + rewrite Z2Nat.id, value_zero by lia. lia.
    + split; [exact Hw|]. rewrite Hval, value_zero, Z2Nat.id by lia. lia.
  - rewrite div_loop_zero_top_set by exact Hge. rewrite of_u64_0.
    split; [apply zero_wf|apply value_zero].
Qed.

End DivisionByZero.

(** ** Multiplication computes modulo [2 ^ bits] *)

Lemma value_insert (l : list Z) : forall k v,
  (k < length l)%nat -> value (<[k := v]> l) = value l + pow32 k * (v - l !!! k).
Proof.
  induction l as [|w l IH]; intros k v Hk; cbn in Hk; [lia|].
  destruct k as [|k]; cbn [value].
  - cbn. rewrite pow32_0. lia.
  - change (<[S k := v]> (w :: l)) with (w :: <[k := v]> l). cbn [value].
    rewrite IH by lia. rewrite pow32_S. change ((w :: l) !!! S k) with (l !!! k). lia.
Qed.

Section Multiplication.

Variable n : nat.
Hypothesis n_short : Z.of_nat n < 2 ^ 16.

Variables a x : list Z.
Hypothesis a_wf : wf n a.
Hypothesis x_wf : wf n x.

Lemma mul_inner_spec (i : nat) cnt : forall j carry (res : list Z),
  (cnt + j = n)%nat -> (i + j <= n)%nat -> wf n res -> in_word carry ->
  let r := mul_inner n cnt j i a x carry res in
  wf n r /\
  exists t, value r =
    value res + pow32 (i + j) * (carry + a !!! i * value (drop j x)) - pow32 n * t.
Proof.
  pose proof (wf_length _ _ x_wf) as Hlx.
  induction cnt as [|cnt IH]; intros j carry res Hcnt Hij Hres Hcarry; cbn [mul_inner]; cbn zeta.
  - split; [exact Hres|]. assert (j = n) as -> by lia. assert (i = 0%nat) as -> by lia.
    rewrite drop_ge by lia. cbn [value]. exists carry. cbn [Nat.add]. lia.
  - assert (ushort (i + j) = (i + j)%nat) as ->.
    { unfold ushort. rewrite Z.mod_small by lia. apply Nat2Z.id. }
    destruct (Nat.ltb_spec (i + j) n) as [Hlt|Hge].
    + pose proof (wf_lookup n res (i + j) Hres) as Hr.
      pose proof (wf_lookup n a i a_wf) as Ha. pose proof (wf_lookup n x j x_wf) as Hx.
      unfold in_word in Hr, Ha, Hx, Hcarry.
      assert (0 <= a !!! i * x !!! j <= (2 ^ 32 - 1) * (2 ^ 32 - 1)) as Hprod by nia.
      rewrite (ull_small (a !!! i * x !!! j)) by lia.
      set (temp := res !!! (i + j)%nat + a !!! i * x !!! j + carry) in *.
      assert (0 <= temp < 2 ^ 64) as Ht by (unfold temp; lia).
      rewrite (ull_small temp) by lia. rewrite Z.shiftr_div_pow2 by lia.
      destruct (IH (S j) (temp / 2 ^ 32) (<[(i + j)%nat := uint temp]> res)) as (Hw & t & Hv).
      * lia.
      * lia.
      * destruct Hres as [Hl Hw]. split; [rewrite length_insert; exact Hl|].
        apply Forall_insert; [exact Hw|apply uint_range].
      * unfold in_word. split; [apply Z.div_pos; lia|apply Z.div_lt_upper_bound; lia].
      * split; [exact Hw|]. exists t. rewrite Hv.
        rewrite value_insert by (rewrite (wf_length n) by exact Hres; lia).
        rewrite (drop_lookup_total x j) by lia. cbn [value].
        replace (i + S j)%nat with (S (i + j)) by lia. rewrite pow32_S.
        unfold uint. pose proof (Z.div_mod temp (2 ^ 32) ltac:(lia)) as Edm.
        fold temp. nia.
    + split; [exact Hres|]. assert (i + j = n)%nat as -> by lia.
      exists (carry + a !!! i * value (drop j x)). lia.
Qed.

Lemma mul_outer_spec cnt : forall i (res : list Z),
  (cnt + i = n)%nat -> wf n res ->
  let r := mul_outer n cnt i a x res in
  wf n r /\
  exists t, value r = value res + pow32 i * (value (drop i a) * value x) - pow32 n * t.
Proof.
  pose proof (wf_length _ _ a_wf) as Hla.
  induction cnt as [|cnt IH]; intros i res Hcnt Hres; cbn [mul_outer]; cbn zeta.
  - split; [exact Hres|]. rewrite drop_ge by lia. cbn [value]. exists 0. lia.
  - destruct (mul_inner_spec i n 0 0 res) as (Hw1 & t1 & Hv1);
      [lia|lia|exact Hres|unfold in_word; lia|].
    destruct (IH (S i) (mul_inner n n 0 i a x 0 res)) as (Hw2 & t2 & Hv2); [lia|exact Hw1|].
    split; [exact Hw2|]. exists (t1 + t2). rewrite Hv2, Hv1.
    rewrite (drop_lookup_total a i) by lia. cbn [value]. rewrite drop_0.
    rewrite Nat.add_0_r, pow32_S. lia.
Qed.

Lemma op_mul_wf : wf n (op_mul n a x).
Proof. apply mul_outer_spec; [lia|apply of_u64_wf]. Qed.

Lemma op_mul_value : value (op_mul n a x) = (value a * value x) mod pow32 n.
Proof.
  destruct (mul_outer_spec n 0 (of_u64 n 0)) as (Hw & t & Hv); [lia|apply of_u64_wf|].
  fold (op_mul n a x) in Hw, Hv.
  rewrite of_u64_0, value_zero, drop_0, pow32_0 in Hv.
  apply Z.mod_unique with (q := t); [left; apply value_wf_range; exact Hw|lia].
Qed.

End Multiplication.

(** ** Comparisons with an operand of a single word are exact *)

Lemma gt_loop_right_single k : forall a x : list Z,
  (k <= length a)%nat -> (k <= length x)%nat -> Forall in_word a -> Forall in_word x ->
  (forall j, (1 <= j < k)%nat -> x !!! j = 0) ->
  gt_loop k a x = (value (take k a) >? value (take k x)).
Proof.
  induction k as [|k IH]; intros a x Hla Hlx Ha Hx Hz; [reflexivity|].
  cbn [gt_loop]. rewrite !value_take_S by lia.
  pose proof (value_take_range a k Ha) as Ra. pose proof (value_take_range x k Hx) as Rx.
  pose proof (words_lookup a k Ha) as Wa. pose proof (words_lookup x k Hx) as Wx.
  unfold in_word in Wa, Wx. pose proof (pow32_pos k) as Hp.
  destruct k as [|k].
  - cbn [take value] in *. rewrite pow32_0, !Z.add_0_l, !Z.mul_1_l.
    destruct (Z.eqb_spec (a !!! 0%nat) 0) as [Ea|Ea];
      destruct (Z.eqb_spec (x !!! 0%nat) 0) as [Ex|Ex]; cbn [negb orb]; try reflexivity.
    rewrite Ea, Ex. reflexivity.
  - rewrite (Hz (S k)) in * by lia. rewrite Z.mul_0_r, Z.add_0_r. cbn [Z.eqb negb].
    rewrite orb_false_r. destruct (Z.eqb_spec (a !!! S k) 0) as [Ea|Ea]; cbn [negb].
    + rewrite Ea, Z.mul_0_r, Z.add_0_r. apply IH; try assumption; try lia.
      intros j Hj. apply Hz. lia.
    + transitivity true; [apply Z.gtb_gt; lia|]. symmetry. apply Z.gtb_gt. nia.
Qed.

Lemma gt_loop_left_single k : forall a x : list Z,
  (k <= length a)%nat -> (k <= length x)%nat -> Forall in_word a -> Forall in_word x ->
  (forall j, (1 <= j < k)%nat -> a !!! j = 0) ->
  gt_loop k a x = (value (take k a) >? value (take k x)).
Proof.
  induction k as [|k IH]; intros a x Hla Hlx Ha Hx Hz; [reflexivity|].
  cbn [gt_loop]. rewrite !value_take_S by lia.
  pose proof (value_take_range a k Ha) as Ra. pose proof (value_take_range x k Hx) as Rx.
  pose proof (words_lookup a k Ha) as Wa. pose proof (words_lookup x k Hx) as Wx.
  unfold in_word in Wa, Wx. pose proof (pow32_pos k) as Hp.
  destruct k as [|k].
  - cbn [take value] in *. rewrite pow32_0, !Z.add_0_l, !Z.mul_1_l.
    destruct (Z.eqb_spec (a !!! 0%nat) 0) as [Ea|Ea];
      destruct (Z.eqb_spec (x !!! 0%nat) 0) as [Ex|Ex]; cbn [negb orb]; try reflexivity.
    rewrite Ea, Ex. reflexivity.
  - rewrite (Hz (S k)) in * by lia. rewrite Z.mul_0_r, Z.add_0_r. cbn [Z.eqb negb orb].
    destruct (Z.eqb_spec (x !!! S k) 0) as [Ex|Ex]; cbn [negb].
    + rewrite Ex, Z.mul_0_r, Z.add_0_r. apply IH; try assumption; try lia.
      intros j Hj. apply Hz. lia.
    + transitivity false; [rewrite Z.gtb_ltb; apply Z.ltb_ge; lia|].
      symmetry. rewrite Z.gtb_ltb. apply Z.ltb_ge. nia.
Qed.

Lemma op_gt_single_word n (a x : list Z) :
  (1 <= n)%nat -> wf n a -> wf n x -> value a < 2 ^ 32 \/ value x < 2 ^ 32 ->
  op_gt n a x = (value a >? value x).
Proof.
  intros Hn Ha Hx Hs. pose proof Ha as [Hla Hwa]. pose proof Hx as [Hlx Hwx].
  unfold op_gt. rewrite <- (firstn_all a) at 2. rewrite <- (firstn_all x) at 2.
  rewrite Hla, Hlx. destruct Hs as [Hs|Hs].
  - apply gt_loop_left_single; try assumption; try lia.
    apply (single_word_shape n a Ha Hn Hs).
  - apply gt_loop_right_single; try assumption; try lia.
    apply (single_word_shape n x Hx Hn Hs).
Qed.

(** ** Greatest common divisor *)

Lemma op_ne_zero n (b : list Z) :
  wf n b -> op_ne n b (of_u64 n 0) = negb (value b =? 0).
Proof.
  intros Hb. rewrite op_ne_op_eq, of_u64_0, op_eq_value by (assumption || apply zero_wf).
  rewrite value_zero. f_equal.
  destruct (Z.eqb_spec (value b) 0) as [E|E];
    [apply bool_decide_eq_true_2|apply bool_decide_eq_false_2]; exact E.
Qed.

Lemma gcd_loop_value n fuel : forall a b : list Z,
  (1 <= n)%nat -> Z.of_nat n * 32 < 2 ^ 32 -> wf n a -> wf n b ->
  value b < Z.of_nat fuel ->
  exists g, gcd_loop n fuel a b = Some g /\ wf n g /\ value g = Z.gcd (value a) (value b).
Proof.
  induction fuel as [|fuel IH]; intros a b Hn Hbits Ha Hb Hfuel.
  - pose proof (value_wf_range n b Hb). lia.
  - cbn [gcd_loop]. rewrite op_ne_zero by exact Hb.
    pose proof (value_wf_range n a Ha) as Ra. pose proof (value_wf_range n b Hb) as Rb.
    destruct (Z.eqb_spec (value b) 0) as [E|E]; cbn [negb].
    + exists a. split; [reflexivity|]. split; [exact Ha|].
      rewrite E, Z.gcd_0_r, Z.abs_eq; lia.
    + destruct (div_mod_value n a b Hn Hbits Ha Hb ltac:(lia)) as (_ & Hm & Em & _).
      pose proof (Z.mod_pos_bound (value a) (value b) ltac:(lia)) as Hmb.
      destruct (IH b (op_mod n a b) Hn Hbits Hb Hm) as (g & Eg & Hg & Vg); [lia|].
      exists g. split; [exact Eg|]. split; [exact Hg|].
      rewrite Vg, Em, Z.gcd_comm, Z.gcd_mod by lia. apply Z.gcd_comm.
Qed.

(** ** Modular inverse *)

Lemma le_mul_diag k t : 1 <= k -> 0 <= t -> t <= k * t.
Proof. intros. nia. Qed.

Lemma same_sign_zero s m0 m1 :
  0 <= m0 -> 0 <= m1 -> (sgn s * m0) * (sgn s * m1) <= 0 -> m0 = 0 \/ m1 = 0.
Proof. destruct s; cbn [sgn]; intros; nia. Qed.

Lemma sign_step X0 X1 Y qt : X0 * X1 <= 0 -> 0 <= qt -> Y = X1 - qt * X0 -> Y * X0 <= 0.
Proof. intros. subst Y. nia. Qed.

Lemma mul_le_mul_nonneg q a m : 0 <= q <= a -> 0 <= m -> 0 <= q * m <= a * m.
Proof. intros. nia. Qed.

Lemma n_bits_short n : Z.of_nat n < 2 ^ 16 -> Z.of_nat n * 32 < 2 ^ 32.
Proof. intros H. lia. Qed.

Lemma pow32_two_words n : (2 <= n)%nat -> 2 ^ 32 * 2 ^ 32 <= pow32 n.
Proof.
  intros Hn. unfold pow32. rewrite <- Z.pow_add_r by lia. apply Z.pow_le_mono_r; lia.
Qed.

Section Inverse.

Variable n : nat.
Hypothesis n_min : (2 <= n)%nat.
Hypothesis n_short : Z.of_nat n < 2 ^ 16.

Variables A B : Z.
Hypothesis B_range : 2 <= B < pow32 n.

Lemma inverse_step (a b x0 : list Z) s0 (x1 : list Z) s1 :
  inverse_invariant n A B a b x0 s0 x1 s1 ->
  op_gt n a (of_u64 n 1) = true ->
  let q := op_div n a b in
  let qx0 := op_mul n q x0 in
  let x0' :=
    if negb (Bool.eqb s0 s1) then op_add n x1 qx0
    else if op_gt n x1 qx0 then op_sub n x1 qx0 else op_sub n qx0 x1 in
  let s0' :=
    if negb (Bool.eqb s0 s1) then s1
    else if op_gt n x1 qx0 then s1 else negb s0 in
  inverse_invariant n A B b (op_mod n a b) x0' s0' x0 s0 /\
  value (op_mod n a b) < value b.
Proof.
  intros (Ha & Hb & Hx0 & Hx1 & B0 & B1 & Ha1 & Hgcd & Hfirst & Hmag & Hsign & [u Hu] & [v Hv]) Hgt.
  pose proof (n_bits_short n n_short) as Hbits. pose proof (pow32_two_words n n_min) as Hpw.
  pose proof (value_wf_range n a Ha) as Ra. pose proof (value_wf_range n b Hb) as Rb.
  pose proof (value_wf_range n x0 Hx0) as R0. pose proof (value_wf_range n x1 Hx1) as R1.
  rewrite op_gt_single_word in Hgt;
    [|lia|exact Ha|apply of_u64_wf|right; rewrite of_u64_value by (unfold in_word; lia); lia].
  rewrite of_u64_value in Hgt by (unfold in_word; lia). apply Z.gtb_gt in Hgt.
  assert (1 <= value b) as Hb1.
  { destruct (Z.eq_dec (value b) 0) as [E|E]; [|lia].
    rewrite E, Z.gcd_0_r, Z.abs_eq in Hgcd; lia. }
  destruct (div_mod_value n a b ltac:(lia) Hbits Ha Hb ltac:(lia)) as (Hq & Hm & Em & Eq).
  pose proof (Z.div_mod (value a) (value b) ltac:(lia)) as Edm.
  pose proof (Z.mod_pos_bound (value a) (value b) ltac:(lia)) as Hmb.
  set (qt := value a / value b) in *.
  assert (0 <= qt <= value a) as Hqt.
  { split; [apply Z.div_pos; lia|].
    apply Z.div_le_upper_bound; [lia|apply le_mul_diag; lia]. }
  set (m0 := value x0) in *. set (m1 := value x1) in *.
  set (p := qt * m0).
  assert (0 <= p) as Hp0 by (unfold p; nia).
  assert (value b * (m1 + p) + value a mod value b * m0 = B) as Hmag'.
  { rewrite <- Hmag. unfold p.
    replace (value a mod value b) with (value a - value b * qt) by lia. ring. }
  assert (m1 + p <= B) as Hsum.
  { pose proof (Z.mul_nonneg_nonneg (value a mod value b) m0 ltac:(lia) ltac:(lia)).
    pose proof (le_mul_diag (value b) (m1 + p) ltac:(lia) ltac:(lia)). lia. }
  cbn zeta.
  assert (value (op_mul n (op_div n a b) x0) = p) as Eqx0.
  { rewrite op_mul_value by assumption. rewrite Eq. unfold p. fold m0.
    pose proof (pow32_pos n) as Hpp.
    destruct (op_lt n a b) eqn:Hlt.
    - apply op_lt_true in Hlt; [|assumption..]. rewrite (Hfirst Hlt).
      rewrite !Z.mul_0_r. apply Z.mod_0_l. lia.
    - apply Z.mod_small.
      pose proof (mul_le_mul_nonneg qt (value a) m0 Hqt ltac:(lia)).
      pose proof (Z.mul_nonneg_nonneg (value b) m1 ltac:(lia) ltac:(lia)). lia. }
  pose proof (op_mul_wf n n_short (op_div n a b) x0 Hq Hx0) as Hqx0.
  set (qx0 := op_mul n (op_div n a b) x0) in *.
  assert (exists x0' s0',
    (if negb (Bool.eqb s0 s1) then op_add n x1 qx0
     else if op_gt n x1 qx0 then op_sub n x1 qx0 else op_sub n qx0 x1) = x0' /\
    (if negb (Bool.eqb s0 s1) then s1
     else if op_gt n x1 qx0 then s1 else negb s0) = s0' /\
    wf n x0' /\ value x0' = m1 + p /\
    sgn s0' * value x0' = sgn s1 * m1 - sgn s0 * p) as (x0' & s0' & -> & -> & Hx0' & Ex0' & Es0').
  { destruct (Bool.eqb s0 s1) eqn:Es; cbn [negb].
    - apply Bool.eqb_prop in Es. subst s1.
      assert (m0 = 0 \/ m1 = 0) as Hz.
      { apply (same_sign_zero s0); [lia|lia|exact Hsign]. }
      rewrite op_gt_single_word; [|lia|exact Hx1|exact Hqx0|].
      2:{ destruct Hz as [Hz|Hz]; [right; rewrite Eqx0; unfold p; rewrite Hz; lia|left; lia]. }
      rewrite Eqx0. fold m1. destruct (Z.gtb_spec m1 p) as [Hc|Hc].
      + eexists _, _. split; [reflexivity|]. split; [reflexivity|].
        split; [apply op_sub_wf; assumption|].
        rewrite op_sub_value, Eqx0 by assumption. fold m1.
        rewrite Z.mod_small by lia.
        assert (p = 0) as -> by (destruct Hz as [Hz|Hz]; [unfold p; rewrite Hz|]; lia).
        split; lia.
      + eexists _, _. split; [reflexivity|]. split; [reflexivity|].
        split; [apply op_sub_wf; assumption|].
        rewrite op_sub_value, Eqx0 by assumption. fold m1.
        rewrite Z.mod_small by lia.
        assert (m1 = 0) as -> by (destruct Hz as [Hz|Hz]; [unfold p in Hc; rewrite Hz in Hc|]; lia).
        split; [lia|]. destruct s0; cbn [sgn negb]; lia.
    - eexists _, _. split; [reflexivity|]. split; [reflexivity|].
      split; [apply op_add_wf; assumption|].
      rewrite op_add_value, Eqx0 by assumption. fold m1.
      rewrite Z.mod_small by lia. split; [reflexivity|].
      destruct s0, s1; cbn in Es; try discriminate; cbn [sgn]; lia. }
  split; [|rewrite Em; lia].
  unfold inverse_invariant. rewrite Em, Ex0'. fold m0.
  split; [exact Hb|]. split; [exact Hm|]. split; [exact Hx0'|]. split; [exact Hx0|].
  split; [exact Hsum|]. split; [exact B0|]. split; [exact Hb1|].
  split; [rewrite Z.gcd_comm, Z.gcd_mod by lia; rewrite Z.gcd_comm; exact Hgcd|].
  split; [intros Hc; lia|]. split; [exact Hmag'|].
  replace (sgn s0' * (m1 + p)) with (sgn s0' * value x0') by (rewrite Ex0'; reflexivity).
  rewrite Es0'.
  assert (sgn s0 * p = qt * (sgn s0 * m0)) as Esp by (unfold p; ring).
  rewrite Esp. split; [apply (sign_step _ (sgn s1 * m1) _ qt); [exact Hsign|lia|reflexivity]|].
  split.
  - exists v. exact Hv.
  - exists (u - qt * v).
    replace (value a mod value b) with (value a - value b * qt) by lia.
    rewrite Hu, Hv. fold m0 m1. ring.
Qed.

Lemma inverse_loop_spec fuel : forall (a b x0 : list Z) s0 (x1 : list Z) s1,
  inverse_invariant n A B a b x0 s0 x1 s1 ->
  value b < Z.of_nat fuel ->
  exists r s, inverse_loop n fuel a b x0 s0 x1 s1 = Some (r, s) /\
    wf n r /\ value r <= B /\ exists u, 1 = sgn s * value r * A + u * B.
Proof.
  induction fuel as [|fuel IH]; intros a b x0 s0 x1 s1 Hinv Hfuel.
  - destruct Hinv as (_ & Hb & _). pose proof (value_wf_range n b Hb). lia.
  - cbn [inverse_loop]. destruct (op_gt n a (of_u64 n 1)) eqn:Hgt.
    + destruct (inverse_step a b x0 s0 x1 s1 Hinv Hgt) as [Hinv' Hdec].
      cbn zeta in Hinv'. apply IH; [exact Hinv'|lia].
    + destruct Hinv as (Ha & _ & _ & Hx1 & _ & B1 & Ha1 & _ & _ & _ & _ & [u Hu] & _).
      rewrite op_gt_single_word in Hgt;
        [|lia|exact Ha|apply of_u64_wf|right; rewrite of_u64_value by (unfold in_word; lia); lia].
      rewrite of_u64_value in Hgt by (unfold in_word; lia).
      rewrite Z.gtb_ltb in Hgt. apply Z.ltb_ge in Hgt.
      exists x1, s1. split; [reflexivity|]. split; [exact Hx1|]. split; [exact B1|].
      exists u. lia.
Qed.

End Inverse.

Lemma not_unit_multiple k B : 2 <= B -> 1 <> k * B.
Proof. intros HB E. assert (k <= 0 \/ 1 <= k) as [H|H] by lia; nia. Qed.

Lemma inverse_value n fuel (a b : list Z) :
  (2 <= n)%nat -> Z.of_nat n < 2 ^ 16 -> wf n a -> wf n b ->
  2 <= value b -> Z.gcd (value a) (value b) = 1 -> value b < Z.of_nat fuel ->
  exists x, inverse n fuel a b = Some x /\ wf n x /\
    0 <= value x < value b /\ (value a * value x) mod value b = 1.
Proof.
  intros Hn Hshort Ha Hb Hb2 Hgcd Hfuel.
  pose proof (value_wf_range n a Ha) as Ra. pose proof (value_wf_range n b Hb) as Rb.
  assert (1 <= value a) as Ha1.
  { destruct (Z.eq_dec (value a) 0) as [E|E]; [|lia].
    rewrite E, Z.gcd_0_l, Z.abs_eq in Hgcd; lia. }
  destruct (inverse_loop_spec n Hn Hshort (value a) (value b) ltac:(lia) fuel
              a b (of_u64 n 0) false (of_u64 n 1) false) as (r & s & Er & Hr & Br & u & Hu).
  { unfold inverse_invariant. rewrite of_u64_0, value_zero.
    rewrite of_u64_value by (unfold in_word; lia). cbn [sgn].
    split; [exact Ha|]. split; [exact Hb|]. split; [apply zero_wf|]. split; [apply of_u64_wf|].
    split; [lia|]. split; [lia|]. split; [exact Ha1|]. split; [exact Hgcd|].
    split; [reflexivity|]. split; [lia|]. split; [lia|]. split; [exists 0; lia|exists 1; lia]. }
  { exact Hfuel. }
  unfold inverse. rewrite Er. pose proof (value_wf_range n r Hr) as Rr.
  destruct s; cbn [sgn] in Hu.
  - exists (op_sub n b r). split; [reflexivity|]. split; [apply op_sub_wf; assumption|].
    rewrite op_sub_value by assumption. rewrite Z.mod_small by lia.
    assert (value r <> 0) as Hne.
    { intros E. rewrite E in Hu. apply (not_unit_multiple u (value b) Hb2). lia. }
    split; [lia|]. symmetry. apply Z.mod_unique with (q := value a - u); lia.
  - exists r. split; [reflexivity|]. split; [exact Hr|].
    assert (value r <> value b) as Hne.
    { intros E. rewrite E in Hu. apply (not_unit_multiple (value a + u) (value b) Hb2). lia. }
    split; [lia|]. symmetry. apply Z.mod_unique with (q := - u); lia.
Qed.

(** ** The Fermat test *)

Lemma prime_check_loop_S n k fuel (this high one a : list Z) rd pos :
  prime_check_loop n (S k) fuel this high one a rd pos =
  ('(a', pos') ← rng n (num_bits n high) rd pos a;
   g ← gcd n fuel this a';
   if op_ne n g one then Some false
   else
     e ← exponentiation n fuel a' high this;
     if op_ne n e one then Some false
     else prime_check_loop n k fuel this high one a' rd pos').
Proof. reflexivity. Qed.

(** A bound below 32 bits randomizes nothing. *)
Lemma rng_below_word n size_max rd pos (a : list Z) :
  0 < size_max < 32 -> rng n size_max rd pos a = Some (a, pos).
Proof.
  intros H. unfold rng. destruct (Z.eqb_spec size_max 0) as [E|_]; [lia|].
  rewrite Z.div_small by lia. reflexivity.
Qed.

(** ** Hexadecimal digits *)

Lemma hex_digit_char c d :
  hex_digit_value c = Some d ->
  0 <= d < 16 /\ hex_digit d = lower c /\ (d =? 0) = Ascii.eqb (lower c) "0".
Proof.
  destruct c as [[] [] [] [] [] [] [] []]; vm_compute; intros H;
    try discriminate; inversion H; subst; repeat split; discriminate.
Qed.

Lemma digit_values_digits s : Forall is_digit (digit_values s).
Proof.
  unfold digit_values. apply Forall_fmap, Forall_forall. intros c _. cbn.
  destruct (hex_digit_value c) as [d|] eqn:E; cbn; [|unfold is_digit; lia].
  apply (hex_digit_char c d E).
Qed.

Lemma foldl_digits_shift (ds : list Z) : forall acc,
  foldl (fun v d => 16 * v + d) acc ds =
  acc * 16 ^ Z.of_nat (length ds) + foldl (fun v d => 16 * v + d) 0 ds.
Proof.
  induction ds as [|d ds IH]; intros acc; cbn [foldl length].
  - cbn. lia.
  - rewrite IH, (IH (16 * 0 + d)). rewrite Nat2Z.inj_succ, Z.pow_succ_r by lia. lia.
Qed.

Lemma digits_value_app (a b : list Z) :
  digits_value (a ++ b) = digits_value a * 16 ^ Z.of_nat (length b) + digits_value b.
Proof.
  unfold digits_value. revert b. induction a as [|d a IH] using rev_ind; intros b.
  - cbn [app foldl]. lia.
  - rewrite <- app_assoc. cbn [app]. rewrite IH. cbn [foldl].
    rewrite (foldl_digits_shift b (16 * 0 + d)). rewrite IH. cbn [foldl length].
    rewrite Nat2Z.inj_succ, Z.pow_succ_r by lia. lia.
Qed.

Lemma digits_value_snoc (ds : list Z) d : digits_value (ds ++ [d]) = 16 * digits_value ds + d.
Proof. rewrite digits_value_app. cbn. lia. Qed.

Lemma digits_value_range (ds : list Z) :
  Forall is_digit ds -> 0 <= digits_value ds < 16 ^ Z.of_nat (length ds).
Proof.
  induction ds as [|d ds IH] using rev_ind; intros H.
  - cbn. lia.
  - apply Forall_app in H as [H1 H2]. inversion H2 as [|? ? Hd _]; subst.
    rewrite digits_value_snoc, length_app. cbn [length].
    replace (Z.of_nat (length ds + 1)) with (Z.succ (Z.of_nat (length ds))) by lia.
    rewrite Z.pow_succ_r by lia. specialize (IH H1). unfold is_digit in Hd. lia.
Qed.

Lemma number_digits_length k : forall v, length (number_digits k v) = k.
Proof.
  induction k as [|k IH]; intros v; cbn [number_digits]; [reflexivity|].
  rewrite length_app, IH. cbn. lia.
Qed.

Lemma number_digits_zero k : number_digits k 0 = replicate k 0.
Proof.
  induction k as [|k IH]; cbn [number_digits]; [reflexivity|].
  change (0 / 16) with 0. change (0 mod 16) with 0. rewrite IH.
  symmetry. apply replicate_S_end.
Qed.

Lemma number_digits_digits k : forall v, Forall is_digit (number_digits k v).
Proof.
  induction k as [|k IH]; intros v; cbn [number_digits]; [constructor|].
  apply Forall_app. split; [apply IH|]. constructor; [|constructor].
  unfold is_digit. apply Z.mod_pos_bound. lia.
Qed.

Lemma number_digits_app b : forall a v,
  number_digits (a + b) v = number_digits a (v / 16 ^ Z.of_nat b) ++ number_digits b v.
Proof.
  induction b as [|b IH]; intros a v.
  - rewrite Nat.add_0_r. cbn [number_digits Z.of_nat]. rewrite Z.pow_0_r, Z.div_1_r.
    symmetry. apply app_nil_r.
  - replace (a + S b)%nat with (S (a + b)) by lia. cbn [number_digits].
    rewrite IH, <- app_assoc. f_equal.
    rewrite Nat2Z.inj_succ, Z.pow_succ_r by lia.
    rewrite Z.div_div by (try apply Z.pow_pos_nonneg; lia).
    reflexivity.
Qed.

Lemma number_digits_mod k : forall v u, number_digits k (v + 16 ^ Z.of_nat k * u) = number_digits k v.
Proof.
  induction k as [|k IH]; intros v u; cbn [number_digits]; [reflexivity|].
  rewrite Nat2Z.inj_succ, Z.pow_succ_r by lia.
  replace (v + 16 * 16 ^ Z.of_nat k * u) with (v + (16 ^ Z.of_nat k * u) * 16) by lia.
  rewrite Z.div_add, Z.mod_add by lia. rewrite IH. reflexivity.
Qed.

Lemma number_digits_value (ds : list Z) : forall m,
  Forall is_digit ds -> (length ds <= m)%nat ->
  number_digits m (digits_value ds) = replicate (m - length ds) 0 ++ ds.
Proof.
  induction ds as [|d ds IH] using rev_ind; intros m Hd Hm.
  - cbn [length]. rewrite Nat.sub_0_r, app_nil_r. apply number_digits_zero.
  - apply Forall_app in Hd as [H1 H2]. inversion H2 as [|? ? Hd _]; subst.
    rewrite length_app in *. cbn [length] in *.
    destruct m as [|m]; [lia|]. cbn [number_digits]. rewrite digits_value_snoc.
    unfold is_digit in Hd.
    replace ((16 * digits_value ds + d) / 16) with (digits_value ds)
      by (apply Z.div_unique with (r := d); lia).
    replace ((16 * digits_value ds + d) mod 16) with d
      by (apply Z.mod_unique with (q := digits_value ds); lia).
    rewrite IH by (assumption || lia).
    replace (S m - (length ds + 1))%nat with (m - length ds)%nat by lia.
    rewrite app_assoc. reflexivity.
Qed.

Lemma be_digits_value (x : list Z) :
  Forall in_word x -> be_digits x = number_digits (8 * length x) (value x).
Proof.
  induction 1 as [|w x Hw Hx IH]; cbn [be_digits value length]; [reflexivity|].
  replace (8 * S (length x))%nat with (8 * length x + 8)%nat by lia.
  rewrite number_digits_app. change (16 ^ Z.of_nat 8) with (2 ^ 32).
  unfold in_word in Hw.
  rewrite (Z.mul_comm (2 ^ 32)), Z.div_add, Z.div_small, Z.add_0_l by lia.
  rewrite IH. f_equal.
  symmetry. rewrite (Z.mul_comm (value x)). apply (number_digits_mod 8 w (value x)).
Qed.

(** ** Rendering *)

Lemma strip0_zeros_app k (l : list Z) : strip0 (replicate k 0 ++ l) = strip0 l.
Proof. induction k as [|k IH]; cbn; [reflexivity|exact IH]. Qed.

Lemma strip0_app_nonnil (a b : list Z) : strip0 a <> [] -> strip0 (a ++ b) = strip0 a ++ b.
Proof.
  induction a as [|d a IH]; intros H; cbn in *; [congruence|].
  destruct (d =? 0); [apply IH; exact H|reflexivity].
Qed.

Lemma strip0_app_nil (a b : list Z) : strip0 (a ++ b) = [] -> strip0 a = [] /\ strip0 b = [].
Proof.
  induction a as [|d a IH]; intros H; cbn in *; [split; [reflexivity|exact H]|].
  destruct (d =? 0); [apply IH; exact H|discriminate].
Qed.

Lemma strip0_pad (l : list Z) :
  replicate (length l - length (strip0 l)) 0 ++ strip0 l = l /\
  (length (strip0 l) <= length l)%nat.
Proof.
  induction l as [|d l [IH1 IH2]]; cbn [strip0 length]; [split; reflexivity|].
  destruct (Z.eqb_spec d 0) as [->|Hd].
  - replace (S (length l) - length (strip0 l))%nat
      with (S (length l - length (strip0 l))) by lia.
    cbn [replicate app]. rewrite IH1. split; [reflexivity|lia].
  - cbn [length]. rewrite Nat.sub_diag. split; [reflexivity|lia].
Qed.

Lemma strip0_number_digits_nil k : forall v,
  0 <= v < 16 ^ Z.of_nat k -> strip0 (number_digits k v) = [] -> v = 0.
Proof.
  induction k as [|k IH]; intros v Hv H.
  - cbn in Hv. lia.
  - cbn [number_digits] in H. apply strip0_app_nil in H as [H1 H2].
    rewrite Nat2Z.inj_succ, Z.pow_succ_r in Hv by lia.
    assert (v / 16 = 0) as Hq.
    { apply IH; [|exact H1]. split; [apply Z.div_pos; lia|apply Z.div_lt_upper_bound; lia]. }
    cbn [strip0] in H2. destruct (Z.eqb_spec (v mod 16) 0) as [Hr|Hr]; [|discriminate].
    pose proof (Z.div_mod v 16 ltac:(lia)). lia.
Qed.

Lemma hex_digits_spec f : forall w acc,
  0 < w < 16 ^ Z.of_nat f ->
  hex_digits f w acc = map hex_digit (strip0 (number_digits f w)) ++ acc.
Proof.
  induction f as [|f IH]; intros w acc Hw.
  - cbn in Hw. lia.
  - cbn [hex_digits number_digits].
    rewrite Nat2Z.inj_succ, Z.pow_succ_r in Hw by lia.
    pose proof (Z.div_mod w 16 ltac:(lia)) as Edm.
    pose proof (Z.mod_pos_bound w 16 ltac:(lia)) as Hm.
    destruct (Z.eqb_spec (w / 16) 0) as [Hq|Hq].
    + rewrite Hq, number_digits_zero, strip0_zeros_app. cbn [strip0].
      destruct (Z.eqb_spec (w mod 16) 0) as [Hr|Hr]; [lia|]. reflexivity.
    + assert (0 < w / 16 < 16 ^ Z.of_nat f) as Hq'.
      { split; [|apply Z.div_lt_upper_bound; lia].
        assert (0 <= w / 16) by (apply Z.div_pos; lia). lia. }
      rewrite IH by exact Hq'. rewrite strip0_app_nonnil.
      * rewrite map_app, <- app_assoc. reflexivity.
      * intros E. apply strip0_number_digits_nil in E; lia.
Qed.

Lemma hex_spec w : 0 < w < 2 ^ 32 -> hex w = map hex_digit (strip0 (number_digits 8 w)).
Proof.
  intros Hw. unfold hex. rewrite hex_digits_spec by (change (16 ^ Z.of_nat 8) with (2 ^ 32); lia).
  apply app_nil_r.
Qed.

Lemma setw_hex w :
  0 <= w < 2 ^ 32 -> setw_fill 8 "0"%char (hex w) = map hex_digit (number_digits 8 w).
Proof.
  intros Hw. destruct (Z.eq_dec w 0) as [->|Hne]; [reflexivity|].
  rewrite hex_spec by lia. unfold setw_fill. rewrite length_map.
  destruct (strip0_pad (number_digits 8 w)) as [E _].
  rewrite number_digits_length in E. rewrite <- E at 3.
  rewrite map_app. f_equal.
  generalize (8 - length (strip0 (number_digits 8 w)))%nat. intros k.
  induction k as [|k IH]; cbn; [reflexivity|]. f_equal. exact IH.
Qed.

Lemma be_digits_snoc (l : list Z) w : be_digits (l ++ [w]) = number_digits 8 w ++ be_digits l.
Proof.
  induction l as [|v l IH]; cbn [be_digits app].
  - symmetry. apply app_nil_r.
  - rewrite IH, app_assoc. reflexivity.
Qed.

Lemma render_loop_spec (x : list Z) k : forall isnull os,
  (k <= length x)%nat -> Forall in_word x ->
  render_loop k x isnull os =
  if isnull then
    match strip0 (be_digits (take k x)) with
    | [] => (os, true)
    | t => (os ++ map hex_digit t, false)
    end
  else (os ++ map hex_digit (be_digits (take k x)), false).
Proof.
  induction k as [|k IH]; intros isnull os Hk Hx.
  - cbn. destruct isnull; [reflexivity|]. rewrite app_nil_r. reflexivity.
  - cbn [render_loop].
    rewrite (take_S_r x k (x !!! k)) by (apply list_lookup_lookup_total_lt; lia).
    rewrite be_digits_snoc.
    pose proof (words_lookup x k Hx) as Hw. unfold in_word in Hw.
    destruct isnull.
    + destruct (Z.eqb_spec (x !!! k) 0) as [E|E]; cbn [negb].
      * rewrite IH by (assumption || lia). rewrite E, number_digits_zero, strip0_zeros_app.
        reflexivity.
      * rewrite IH by (assumption || lia). rewrite hex_spec by lia.
        assert (strip0 (number_digits 8 (x !!! k)) <> []) as Hnn.
        { intros E'. apply strip0_number_digits_nil in E';
            [lia|change (16 ^ Z.of_nat 8) with (2 ^ 32); lia]. }
        rewrite strip0_app_nonnil by exact Hnn.
        destruct (strip0 (number_digits 8 (x !!! k))) as [|d t]; [congruence|].
        cbn [app]. rewrite <- app_assoc, <- map_app. reflexivity.
    + rewrite IH by (assumption || lia). rewrite setw_hex by lia.
      rewrite <- app_assoc, <- map_app. reflexivity.
Qed.

Lemma render_spec n (x : list Z) :
  Z.of_nat n < 2 ^ 16 -> wf n x ->
  render n x =
  match strip0 (be_digits x) with
  | [] => ["0"%char]
  | t => map hex_digit t
  end.
Proof.
  intros Hn [Hl Hx]. unfold render.
  assert (ushort n = n) as ->.
  { unfold ushort. rewrite Z.mod_small by lia. apply Nat2Z.id. }
  rewrite render_loop_spec by (assumption || lia).
  rewrite <- Hl, firstn_all.
  destruct (strip0 (be_digits x)); reflexivity.
Qed.

(** ** Construction from hexadecimal text *)

Lemma string_check_cons c s :
  string_check (c :: s) = true ->
  (exists d, hex_digit_value c = Some d) /\ string_check s = true.
Proof.
  cbn [string_check]. unfold isxdigit. destruct (hex_digit_value c) as [d|]; cbn [negb].
  - intros H. split; [exists d; reflexivity|exact H].
  - discriminate.
Qed.

Lemma string_check_drop k : forall s, string_check s = true -> string_check (drop k s) = true.
Proof.
  induction k as [|k IH]; intros s H; [exact H|].
  destruct s as [|c s]; [reflexivity|]. cbn [drop].
  apply IH. apply (string_check_cons c s H).
Qed.

Lemma scan_digits_checked w : forall s,
  string_check s = true -> scan_digits w s = digit_values (take w s).
Proof.
  induction w as [|w IH]; intros s H; [destruct s; reflexivity|].
  destruct s as [|c s]; [reflexivity|].
  destruct (string_check_cons c s H) as [[d Hd] Hs].
  cbn [scan_digits take]. unfold digit_values. cbn [map]. rewrite Hd. cbn [default].
  f_equal. apply IH. exact Hs.
Qed.

Lemma digit_values_length s : length (digit_values s) = length s.
Proof. apply length_map. Qed.

Lemma digit_values_app s t : digit_values (s ++ t) = digit_values s ++ digit_values t.
Proof. apply map_app. Qed.

Lemma pow16_pow32 (i : nat) : 16 ^ Z.of_nat (8 * i) = pow32 i.
Proof.
  unfold pow32. change 16 with (2 ^ 4). rewrite <- Z.pow_mul_r by lia. f_equal. lia.
Qed.

Section Parse.

Variable scanf_overflow : Z -> Z.
Variable n : nat.
Variable s : list ascii.
Hypothesis s_checked : string_check s = true.

Lemma sscanf_X_spec w (t : list ascii) i (storage : list Z) :
  string_check t = true -> (1 <= w <= 8)%nat -> (w <= length t)%nat ->
  (i < length storage)%nat ->
  sscanf_X scanf_overflow w t i storage =
  Returns (<[i := digits_value (digit_values (take w t))]> storage).
Proof.
  intros Ht Hw Hlen Hi. unfold sscanf_X. rewrite scan_digits_checked by exact Ht.
  pose proof (digits_value_range _ (digit_values_digits (take w t))) as Hr.
  rewrite digit_values_length, length_take in Hr.
  replace (w `min` length t)%nat with w in Hr by lia.
  assert (16 ^ Z.of_nat w <= 2 ^ 32) as Hp.
  { change (2 ^ 32) with (16 ^ 8). apply Z.pow_le_mono_r; lia. }
  destruct (digit_values (take w t)) as [|d ds] eqn:E.
  - apply (f_equal length) in E. rewrite digit_values_length, length_take in E.
    cbn in E. lia.
  - destruct (Z.ltb_spec (digits_value (d :: ds)) (2 ^ 32)) as [_|Hge]; [|lia].
    unfold store. destruct (Nat.ltb_spec i (length storage)); [reflexivity|lia].
Qed.

Lemma runs_loop_spec (runs : nat) k : forall i (storage : list Z),
  (i + k = runs)%nat -> (8 * runs <= length s)%nat -> (runs <= n)%nat ->
  wf n storage -> (forall j, (i <= j < n)%nat -> storage !!! j = 0) ->
  value storage = digits_value (digit_values (drop (length s - 8 * i) s)) ->
  exists st,
    runs_loop scanf_overflow k i (length s - 8 * (i + 1)) s storage = Returns (st, runs) /\
    wf n st /\ (forall j, (runs <= j < n)%nat -> st !!! j = 0) /\
    value st = digits_value (digit_values (drop (length s - 8 * runs) s)).
Proof.
  induction k as [|k IH]; intros i storage Hik Hruns Hn Hst Hz Hv; cbn [runs_loop].
  - assert (i = runs) as -> by lia. exists storage.
    split; [reflexivity|]. split; [exact Hst|]. split; [exact Hz|exact Hv].
  - pose proof Hst as [Hl Hw].
    rewrite sscanf_X_spec;
      [|apply string_check_drop; exact s_checked|lia|rewrite length_drop; lia|lia].
    cbn [mbind outcome_bind].
    set (v := digits_value (digit_values (take 8 (drop (length s - 8 * (i + 1)) s)))).
    replace (length s - 8 * (i + 1) - 8)%nat with (length s - 8 * (S i + 1))%nat by lia.
    apply IH.
    + lia.
    + exact Hruns.
    + exact Hn.
    + split; [rewrite length_insert; exact Hl|].
      apply Forall_insert; [exact Hw|].
      pose proof (digits_value_range _
        (digit_values_digits (take 8 (drop (length s - 8 * (i + 1)) s)))) as Hr.
      rewrite digit_values_length, length_take, length_drop in Hr.
      replace (8 `min` (length s - (length s - 8 * (i + 1))))%nat with 8%nat in Hr by lia.
      unfold in_word. fold v in Hr. change (16 ^ Z.of_nat 8) with (2 ^ 32) in Hr. exact Hr.
    + intros j Hj. rewrite list_lookup_total_insert_ne by lia. apply Hz. lia.
    + rewrite value_insert by lia. rewrite Hz by lia. rewrite Hv, Z.sub_0_r.
      replace (length s - 8 * S i)%nat with (length s - 8 * (i + 1))%nat by lia.
      rewrite <- (take_drop 8 (drop (length s - 8 * (i + 1)) s)).
      rewrite drop_drop.
      replace (length s - 8 * (i + 1) + 8)%nat with (length s - 8 * i)%nat by lia.
      rewrite digit_values_app, digits_value_app. fold v.
      rewrite digit_values_length, length_drop.
      replace (length s - (length s - 8 * i))%nat with (8 * i)%nat by lia.
      rewrite pow16_pow32. lia.
Qed.

Lemma Bigint_of_string_value :
  (1 <= n)%nat -> Z.of_nat n < 2 ^ 16 ->
  (length s <= 8)%nat \/ (16 <= length s <= 8 * n)%nat ->
  exists x, Bigint_of_string scanf_overflow n s = Returns x /\ wf n x /\
    value x = digits_value (digit_values s).
Proof.
  intros Hn Hshort Hlen. unfold Bigint_of_string. rewrite s_checked. cbn [negb].
  pose proof (Nat.div_mod_eq (length s) 8) as Edm.
  pose proof (Nat.mod_upper_bound (length s) 8 ltac:(lia)) as Hr8.
  set (q := (length s / 8)%nat) in *. set (r := (length s mod 8)%nat) in *.
  assert (ushort q = q) as ->.
  { unfold ushort. rewrite Z.mod_small by lia. apply Nat2Z.id. }
  destruct Hlen as [Hlen|Hlen].
  - destruct (Nat.ltb_spec 1 q) as [H|_]; [lia|].
    destruct (decide (length s = 0)%nat) as [E|E].
    + destruct s; [|discriminate]. exists (zero n).
      split; [reflexivity|]. split; [apply zero_wf|]. rewrite value_zero. reflexivity.
    + rewrite sscanf_X_spec; [|exact s_checked|lia|lia|rewrite zero_length; lia].
      rewrite firstn_all. eexists. split; [reflexivity|]. split.
      * split; [rewrite length_insert; apply zero_length|].
        apply Forall_insert; [apply zero_wf|].
        pose proof (digits_value_range _ (digit_values_digits s)) as Hr.
        rewrite digit_values_length in Hr. unfold in_word.
        assert (16 ^ Z.of_nat (length s) <= 2 ^ 32); [|lia].
        change (2 ^ 32) with (16 ^ 8). apply Z.pow_le_mono_r; lia.
      * rewrite value_insert by (rewrite zero_length; lia).
        rewrite value_zero, zero_lookup, pow32_0 by lia. lia.
  - destruct (Nat.ltb_spec 1 q) as [_|H]; [|lia].
    destruct (runs_loop_spec q q 0 (zero n))
      as (st & Est & Hst & Hz & Hv).
    + lia.
    + lia.
    + lia.
    + apply zero_wf.
    + intros j Hj. apply zero_lookup. lia.
    + rewrite value_zero, drop_ge by lia. reflexivity.
    + replace (length s - 8 * (0 + 1))%nat with (length s - 8)%nat in Est by lia.
      rewrite Est. cbn [mbind outcome_bind].
      destruct (Nat.eqb_spec r 0) as [E|E]; cbn [negb].
      * exists st. split; [reflexivity|]. split; [exact Hst|].
        rewrite Hv. replace (length s - 8 * q)%nat with 0%nat by lia.
        reflexivity.
      * pose proof Hst as [Hl Hw].
        rewrite sscanf_X_spec; [|exact s_checked|lia|lia|lia].
        eexists. split; [reflexivity|]. split.
        -- split; [rewrite length_insert; exact Hl|]. apply Forall_insert; [exact Hw|].
           pose proof (digits_value_range _ (digit_values_digits (take r s))) as Hr.
           rewrite digit_values_length, length_take in Hr. unfold in_word.
           assert (16 ^ Z.of_nat (r `min` length s) <= 2 ^ 32); [|lia].
           change (2 ^ 32) with (16 ^ 8). apply Z.pow_le_mono_r; lia.
        -- rewrite value_insert by lia. rewrite Hz by lia. rewrite Hv, Z.sub_0_r.
           replace (length s - 8 * q)%nat with r%nat by lia.
           rewrite <- (take_drop r s) at 3.
           rewrite digit_values_app, digits_value_app.
           rewrite digit_values_length, length_drop.
           replace (length s - r)%nat with (8 * q)%nat by lia.
           rewrite pow16_pow32. lia.
Qed.

End Parse.

(** ** The text that comes back *)

Lemma show_digit_values s :
  string_check s = true -> map hex_digit (digit_values s) = map lower s.
Proof.
  induction s as [|c s IH]; intros H; [reflexivity|].
  destruct (string_check_cons c s H) as [[d Hd] Hs].
  change (digit_values (c :: s)) with (default 0 (hex_digit_value c) :: digit_values s).
  rewrite Hd. change (default 0 (Some d)) with d. cbn [map].
  rewrite IH by exact Hs. f_equal. apply (hex_digit_char c d Hd).
Qed.

Lemma canonical_digit_values s :
  string_check s = true ->
  match strip0 (digit_values s) with
  | [] => ["0"%char]
  | t => map hex_digit t
  end = canonical s.
Proof.
  unfold canonical. induction s as [|c s IH]; intros H; [reflexivity|].
  destruct (string_check_cons c s H) as [[d Hd] Hs].
  destruct (hex_digit_char c d Hd) as (_ & Eh & Ez).
  change (digit_values (c :: s)) with (default 0 (hex_digit_value c) :: digit_values s).
  rewrite Hd. change (default 0 (Some d)) with d.
  cbn [strip0 map strip_zero_chars]. rewrite <- Ez.
  destruct (d =? 0); [apply IH; exact Hs|].
  cbn [map]. rewrite Eh, show_digit_values by exact Hs. reflexivity.
Qed.

Lemma render_length_one_word n (w : Z) :
  Z.of_nat n < 2 ^ 16 -> (1 <= n)%nat -> in_word w ->
  (length (render n (<[0%nat := w]> (zero n))) <= 8)%nat.
Proof.
  intros Hn Hn1 Hw.
  assert (wf n (<[0%nat := w]> (zero n))) as Hwf.
  { split; [rewrite length_insert; apply zero_length|].
    apply Forall_insert; [apply zero_wf|exact Hw]. }
  rewrite render_spec by assumption.
  rewrite be_digits_value by apply Hwf.
  rewrite value_insert by (rewrite zero_length; lia).
  rewrite value_zero, zero_lookup, pow32_0, length_insert, zero_length by lia.
  replace (0 + 1 * (w - 0)) with (digits_value (number_digits 8 w)).
  2:{ unfold in_word in Hw. clear -Hw.
      assert (forall k v, 0 <= v < 16 ^ Z.of_nat k -> digits_value (number_digits k v) = v) as H.
      { induction k as [|k IH]; intros v Hv.
        - cbn in *. lia.
        - cbn [number_digits]. rewrite digits_value_snoc.
          rewrite Nat2Z.inj_succ, Z.pow_succ_r in Hv by lia.
          rewrite IH.
          + pose proof (Z.div_mod v 16 ltac:(lia)). lia.
          + split; [apply Z.div_pos; lia|apply Z.div_lt_upper_bound; lia]. }
      rewrite (H 8%nat w) by (change (16 ^ Z.of_nat 8) with (2 ^ 32); lia). lia. }
  rewrite number_digits_value;
    [|apply number_digits_digits|rewrite number_digits_length; lia].
  rewrite strip0_zeros_app.
  destruct (strip0_pad (number_digits 8 w)) as [_ Hle].
  rewrite number_digits_length in Hle.
  destruct (strip0 (number_digits 8 w)) as [|d t] eqn:E; [cbn; lia|].
  rewrite length_map. exact Hle.
Qed.

(** ** Bits shifted out *)

(** Nothing is lost by [a << s] exactly when the top [s] bits of [a] are
    zero. *)
Lemma top_bits_zero_iff n (a : list Z) s :
  wf n a -> 0 <= s <= 32 * Z.of_nat n ->
  value a * 2 ^ s < pow32 n <->
  (forall k, 32 * Z.of_nat n - s <= k < 32 * Z.of_nat n -> Z.testbit (value a) k = false).
Proof.
  intros Ha Hs. pose proof (value_wf_range n a Ha) as Ra.
  assert (0 < 2 ^ s) as Hps by (apply Z.pow_pos_nonneg; lia).
  assert (pow32 n = 2 ^ (32 * Z.of_nat n - s) * 2 ^ s) as Ep.
  { unfold pow32. rewrite <- Z.pow_add_r by lia. f_equal. lia. }
  assert (0 < 2 ^ (32 * Z.of_nat n - s)) as Hpm by (apply Z.pow_pos_nonneg; lia).
  split.
  - intros Hfit k Hk. assert (value a < 2 ^ (32 * Z.of_nat n - s)) as Hlt by nia.
    rewrite <- (Z.mod_small (value a) (2 ^ (32 * Z.of_nat n - s))) by lia.
    apply Z.mod_pow2_bits_high. lia.
  - intros Hbits.
    assert (value a = value a mod 2 ^ (32 * Z.of_nat n - s)) as E.
    { apply Z.bits_inj'. intros k Hk.
      destruct (Z.lt_ge_cases k (32 * Z.of_nat n - s)) as [Hlo|Hhi].
      - rewrite Z.mod_pow2_bits_low by lia. reflexivity.
      - rewrite Z.mod_pow2_bits_high by lia.
        destruct (Z.lt_ge_cases k (32 * Z.of_nat n)) as [Hin|Hout].
        + apply Hbits. lia.
        + apply testbit_value_high; [apply (wf_words n a Ha)|].
          rewrite (wf_length n a Ha). exact Hout. }
    pose proof (Z.mod_pos_bound (value a) (2 ^ (32 * Z.of_nat n - s)) Hpm) as Hm.
    rewrite Ep. apply Z.mul_lt_mono_pos_r; lia.
Qed.
(** * The claims of the specification *)

(** C9: addition and subtraction undo each other at every width of at least
    64 bits: [a + b - b == a] and [a - b + b == a], both operations wrapping
    modulo [2 ^ bits]. *)
Theorem add_sub_inverse n (a b : list Z) :
  (2 <= n)%nat -> wf n a -> wf n b ->
  op_eq n (op_sub n (op_add n a b) b) a = true /\
  op_eq n (op_add n (op_sub n a b) b) a = true.
Proof.
  intros _ Ha Hb.
  pose proof (value_wf_range n a Ha) as Ra.
  pose proof (op_add_wf n a b Ha Hb) as Hab. pose proof (op_sub_wf n a b Ha Hb) as Hsb.
  split.
  - rewrite op_eq_value; [|apply op_sub_wf; assumption|assumption].
    apply bool_decide_eq_true.
    rewrite op_sub_value, op_add_value by assumption.
    rewrite Zminus_mod_idemp_l. replace (value a + value b - value b) with (value a) by lia.
    apply Z.mod_small. exact Ra.
  - rewrite op_eq_value; [|apply op_add_wf; assumption|assumption].
    apply bool_decide_eq_true.
    rewrite op_add_value, op_sub_value by assumption.
    rewrite Zplus_mod_idemp_l. replace (value a - value b + value b) with (value a) by lia.
    apply Z.mod_small. exact Ra.
Qed.

Lemma add_sub_inverse_witness :
  op_eq 2 (op_sub 2 (op_add 2 [4294967295; 7] [9; 4294967295]) [9; 4294967295])
    [4294967295; 7] = true /\
  op_eq 2 (op_add 2 (op_sub 2 [4294967295; 7] [9; 4294967295]) [9; 4294967295])
    [4294967295; 7] = true.
Proof.
  apply (add_sub_inverse 2%nat [4294967295; 7] [9; 4294967295]).
  - lia.
  - split; [reflexivity|]. repeat constructor; unfold in_word; lia.
  - split; [reflexivity|]. repeat constructor; unfold in_word; lia.
Defined.

(** C10: the ordering operators are not the numeric order.  At 64 bits the
    values [2 ^ 32 + 5] and [2 ^ 32 + 7] are distinct, yet neither [<] nor
    [>] holds between them; in general both operators are decided by the
    most significant word position at which either operand is non-zero, also
    when the two words there are equal. *)
Theorem comparison_stops_at_first_nonzero_word :
  (exists a b : list Z,
     wf 2 a /\ wf 2 b /\ a <> b /\ value a = 2 ^ 32 + 5 /\ value b = 2 ^ 32 + 7 /\
     op_lt 2 a b = false /\ op_gt 2 a b = false) /\
  (forall n (a b : list Z) i,
     (i < n)%nat ->
     (forall j, (i < j < n)%nat -> a !!! j = 0 /\ b !!! j = 0) ->
     a !!! i <> 0 \/ b !!! i <> 0 ->
     op_lt n a b = (a !!! i <? b !!! i) /\ op_gt n a b = (a !!! i >? b !!! i)).
Proof.
  split.
  - exists [5; 1], [7; 1].
    repeat split; try reflexivity; try discriminate; repeat constructor; unfold in_word; lia.
  - intros n a b i Hi Hz Hnz. unfold op_lt, op_gt.
    replace n with (S i + (n - S i))%nat by lia.
    destruct (lt_gt_loop_skip (n - S i) (S i) a b) as [-> ->].
    { intros j Hj. apply Hz. lia. }
    cbn [lt_loop gt_loop].
    assert (negb (a !!! i =? 0) || negb (b !!! i =? 0) = true) as ->; [|split; reflexivity].
    destruct Hnz as [H|H]; apply Z.eqb_neq in H; rewrite H; cbn; [reflexivity|].
    apply orb_true_r.
Qed.

Lemma comparison_stops_at_first_nonzero_word_witness :
  op_lt 3 [5; 1; 0] [7; 1; 0] = false /\ op_gt 3 [5; 1; 0] [7; 1; 0] = false.
Proof.
  apply (proj2 comparison_stops_at_first_nonzero_word 3%nat [5; 1; 0] [7; 1; 0] 1%nat).
  - lia.
  - intros j Hj. assert (j = 2%nat) as -> by lia. split; reflexivity.
  - left. discriminate.
Defined.

(** C6: at 32 bits the from-integer constructor stores to word 1, which is
    outside the single allocated word, whatever the input. *)
Theorem Bigint_of_u64_32_bits_out_of_bounds x :
  Bigint_of_u64 1 x = OutOfBounds 1.
Proof. reflexivity. Qed.

(** Below the divisor the remainder is the dividend, as C1 says; the
    quotient is the zero value only when [operator<] does not see that
    [a < b], and the dividend itself when it does. *)
Lemma div_mod_below_divisor n (a b : list Z) :
  (1 <= n)%nat -> Z.of_nat n * 32 < 2 ^ 32 -> wf n a -> wf n b ->
  value a < value b ->
  op_mod n a b = a /\ op_div n a b = if op_lt n a b then a else zero n.
Proof.
  intros Hn Hbits Ha Hb Hlt. pose proof (value_wf_range n a Ha) as Ra.
  destruct (div_mod_value n a b Hn Hbits Ha Hb ltac:(lia)) as (Hq & Hm & Em & Eq).
  split.
  - apply (wf_value_inj n); [exact Hm|exact Ha|]. rewrite Em. apply Z.mod_small. lia.
  - destruct (op_lt n a b) eqn:E.
    + unfold op_div. rewrite E. reflexivity.
    + apply (wf_value_inj n); [exact Hq|apply zero_wf|].
      rewrite Eq, value_zero. apply Z.div_small. lia.
Qed.

(** C1: with [a = 3] and [b = 5] at 64 bits the fast path of the division is
    taken and returns the dividend [3], not zero; the modulo returns [3]. *)
Theorem div_fast_path_returns_dividend :
  op_lt 2 [3; 0] [5; 0] = true /\
  op_div 2 [3; 0] [5; 0] = [3; 0] /\
  op_eq 2 (op_div 2 [3; 0] [5; 0]) (zero 2) = false /\
  op_mod 2 [3; 0] [5; 0] = [3; 0].
Proof. repeat split; vm_compute; reflexivity. Qed.

(** Where the fast path is not taken the identity of C2 holds (widths of
    fewer than 65536 words, for [operator*]). *)
Lemma div_mod_identity_slow_path n (a b : list Z) :
  (1 <= n)%nat -> Z.of_nat n < 2 ^ 16 -> wf n a -> wf n b -> 0 < value b ->
  op_lt n a b = false ->
  op_eq n (op_add n (op_mul n (op_div n a b) b) (op_mod n a b)) a = true.
Proof.
  intros Hn Hshort Ha Hb Hpos Hlt. pose proof (value_wf_range n a Ha) as Ra.
  destruct (div_mod_value n a b Hn ltac:(lia) Ha Hb Hpos) as (Hq & Hm & Em & Eq).
  rewrite Hlt in Eq.
  pose proof (op_mul_wf n Hshort _ _ Hq Hb) as Hqb.
  rewrite op_eq_value by (try apply op_add_wf; assumption).
  apply bool_decide_eq_true.
  rewrite op_add_value, op_mul_value, Em, Eq by assumption.
  pose proof (Z.div_mod (value a) (value b) ltac:(lia)) as Edm.
  pose proof (Z.mod_pos_bound (value a) (value b) Hpos) as Hr.
  assert (0 <= value a / value b) as Hq0 by (apply Z.div_pos; lia).
  pose proof (Z.mul_nonneg_nonneg _ _ Hq0 (Z.lt_le_incl _ _ Hpos)) as Hprod.
  rewrite (Z.mod_small (value a / value b * value b)) by lia.
  rewrite Z.mod_small by lia. lia.
Qed.

(** C2: with [a = 3] and [b = 5] at 64 bits, [(a / b) * b + (a % b)] is
    [18], not [a]. *)
Theorem div_mod_identity_fails_below_divisor :
  op_add 2 (op_mul 2 (op_div 2 [3; 0] [5; 0]) [5; 0]) (op_mod 2 [3; 0] [5; 0]) = [18; 0] /\
  op_eq 2
    (op_add 2 (op_mul 2 (op_div 2 [3; 0] [5; 0]) [5; 0]) (op_mod 2 [3; 0] [5; 0]))
    [3; 0] = false.
Proof. split; vm_compute; reflexivity. Qed.

(** C4: at every width from 64 bits on, the Fermat test answers false for
    every candidate from 2 to [2 ^ 31], so for every prime in that range
    (97 among them), on every random source: [rng] is asked for fewer than
    32 bits and randomizes no word, the base stays zero and [gcd (p, 0)] is
    [p], not 1. *)
Theorem prime_check_small_false n (p : list Z) (rd : nat -> Z) (fuel : nat) :
  (2 <= n)%nat -> Z.of_nat n * 32 < 2 ^ 32 -> wf n p -> 2 <= value p <= 2 ^ 31 ->
  prime_check n (S fuel) p rd = Some false.
Proof.
  intros Hn Hbits Hp Hv. unfold prime_check.
  pose proof (of_u64_wf n 1) as H1.
  assert (value (of_u64 n 1) = 1) as E1 by (apply of_u64_value; [lia|unfold in_word; lia]).
  pose proof (op_sub_wf n p (of_u64 n 1) Hp H1) as Hh.
  pose proof (op_sub_value n p (of_u64 n 1) Hp H1) as Eh.
  pose proof (pow32_two_words n Hn) as Hpw.
  rewrite E1, Z.mod_small in Eh by lia.
  set (high := op_sub n p (of_u64 n 1)) in *.
  assert (1 <= bit_length (value high) <= 31) as Hnb.
  { split.
    - rewrite bit_length_pos by lia. pose proof (Z.log2_nonneg (value high)). lia.
    - apply bit_length_le_bound; lia. }
  change 100%nat with (S 99). rewrite prime_check_loop_S.
  rewrite num_bits_value by (assumption || lia).
  rewrite rng_below_word by lia. cbn [mbind option_bind].
  unfold gcd. cbn [gcd_loop].
  rewrite op_ne_zero by apply of_u64_wf. rewrite of_u64_0, value_zero. cbn [Z.eqb negb].
  cbn [mbind option_bind].
  rewrite op_ne_op_eq, op_eq_value by assumption. rewrite E1.
  rewrite bool_decide_eq_false_2 by lia. reflexivity.
Qed.

Lemma prime_check_small_false_witness :
  prime_check 2 (S 0) [97; 0] (fun _ => 2654435769) = Some false.
Proof.
  apply (prime_check_small_false 2%nat [97; 0] (fun _ => 2654435769) 0%nat).
  - lia.
  - lia.
  - split; [reflexivity|]. repeat constructor; unfold in_word; lia.
  - cbn. lia.
Defined.

(** C8: at every width of at least 64 bits and for every unsigned shift
    count [s], [a << s >> s == a] whenever the [s] bits shifted out of [a]
    are all zero, that is [a * 2 ^ s < 2 ^ bits] (the top [s] bits of [a]
    are zero, [top_bits_zero_iff]); and for [s >= bits] both [a << s] and
    [a >> s] are the zero value. *)
Theorem shift_left_right n (a : list Z) s :
  (2 <= n)%nat -> wf n a -> 0 <= s < 2 ^ 32 ->
  (value a * 2 ^ s < pow32 n -> op_eq n (op_shr n (op_shl n a s) s) a = true) /\
  (Z.of_nat n * 32 <= s -> op_shl n a s = zero n /\ op_shr n a s = zero n).
Proof.
  intros _ Ha Hs. split.
  - intros Hfit. pose proof (value_wf_range n a Ha) as Ra.
    assert (0 < 2 ^ s) as Hp by (apply Z.pow_pos_nonneg; lia).
    rewrite op_eq_value; [|apply op_shr_wf; [apply op_shl_wf; exact Ha|lia]|exact Ha].
    apply bool_decide_eq_true.
    rewrite op_shr_value by (apply op_shl_wf, Ha || lia).
    rewrite op_shl_value by (exact Ha || lia).
    rewrite Z.mod_small by nia. apply Z.div_mul. lia.
  - intros Hbig. split; [apply op_shl_big|apply op_shr_big]; exact Hbig.
Qed.

Lemma shift_left_right_witness :
  op_eq 2 (op_shr 2 (op_shl 2 [4294967295; 171] 20) 20) [4294967295; 171] = true /\
  (op_shl 2 [4294967295; 171] 64 = zero 2 /\ op_shr 2 [4294967295; 171] 64 = zero 2).
Proof.
  assert (wf 2 [4294967295; 171]) as Hwf.
  { split; [reflexivity|]. repeat constructor; unfold in_word; lia. }
  split.
  - apply (proj1 (shift_left_right 2%nat [4294967295; 171] 20 ltac:(lia) Hwf ltac:(lia))).
    vm_compute. reflexivity.
  - apply (proj2 (shift_left_right 2%nat [4294967295; 171] 64 ltac:(lia) Hwf ltac:(lia))).
    vm_compute. discriminate.
Defined.

(** C3, as stated, fails: at 64 bits [6 / 0] returns 15 and [6 % 0] returns
    6; no exception is raised. *)
Lemma division_by_zero_not_raised :
  call_div 2 [6; 0] (zero 2) = Returns [15; 0] /\
  call_mod 2 [6; 0] (zero 2) = Returns [6; 0] /\
  ~ (exists e, call_div 2 [6; 0] (zero 2) = Throws e) /\
  ~ (exists e, call_mod 2 [6; 0] (zero 2) = Throws e).
Proof.
  repeat split; try (vm_compute; reflexivity); intros [e H]; vm_compute in H; discriminate.
Qed.

(** C3, amended: at every width from 64 bits on, division and modulo by the
    zero value raise nothing and return: [a % 0] is [a], and [a / 0] is
    [2 ^ (num_bits (a) + 1) - 1] when the top bit of [a] is clear and the
    zero value when it is set. *)
Theorem division_by_zero_returns n (a : list Z) :
  (2 <= n)%nat -> Z.of_nat n * 32 < 2 ^ 32 -> wf n a ->
  call_mod n a (zero n) = Returns a /\
  exists q, call_div n a (zero n) = Returns q /\ wf n q /\
    value q = if value a <? half n then 2 ^ (num_bits n a + 1) - 1 else 0.
Proof.
  intros Hn Hbits Ha. unfold call_mod, call_div. split.
  - rewrite op_mod_zero by (assumption || lia). reflexivity.
  - exists (op_div n a (zero n)). split; [reflexivity|].
    rewrite num_bits_value by (assumption || lia).
    apply op_div_zero; (assumption || lia).
Qed.

Lemma division_by_zero_returns_witness :
  call_mod 2 [6; 0] (zero 2) = Returns [6; 0] /\
  exists q, call_div 2 [6; 0] (zero 2) = Returns q /\ wf 2 q /\
    value q = if value [6; 0] <? half 2 then 2 ^ (num_bits 2 [6; 0] + 1) - 1 else 0.
Proof.
  apply (division_by_zero_returns 2%nat [6; 0]).
  - lia.
  - vm_compute. reflexivity.
  - split; [reflexivity|]. repeat constructor; unfold in_word; lia.
Defined.

(** C7, as stated, fails in two ways.  With [b = 1] every remainder is 0, so
    no [x] has [(a * x) % b == 1]; and at 64 bits with [a = 5] and
    [b = 2 ^ 64 - 59], where [gcd (a, b) == 1], the product [a * x] wraps and
    [(a * x) % b] is [2 ^ 64 - 117]. *)
Lemma inverse_product_not_one :
  (gcd 2 100 [3; 0] [1; 0] = Some (of_u64 2 1) /\
   exists x, inverse 2 100 [3; 0] [1; 0] = Some x /\
     op_eq 2 (op_mod 2 (op_mul 2 [3; 0] x) [1; 0]) (of_u64 2 1) = false) /\
  (gcd 2 100 [5; 0] [4294967237; 4294967295] = Some (of_u64 2 1) /\
   exists x, inverse 2 100 [5; 0] [4294967237; 4294967295] = Some x /\
     op_mod 2 (op_mul 2 [5; 0] x) [4294967237; 4294967295] = [4294967179; 4294967295] /\
     op_eq 2 (op_mod 2 (op_mul 2 [5; 0] x) [4294967237; 4294967295]) (of_u64 2 1) = false).
Proof.
  split; (split; [vm_compute; reflexivity|]).
  - exists [0; 0]. split; vm_compute; reflexivity.
  - exists [1717986895; 1717986918]. repeat split; vm_compute; reflexivity.
Qed.

(** C7, amended: at every width from 64 bits up to 65535 words, for every
    pair of values [a], [b] with [b > 1] and [gcd (a, b) == 1], the call
    [inverse (a, b)] returns a value [x] below [b] with [a * x] congruent to
    1 modulo [b] as numbers, so that [(a * x) % b == 1] whenever the product
    [a * x] is below [2 ^ bits]; in particular [inverse (3, 11) == 4]. *)
Theorem inverse_correct :
  (forall n fuel (a b : list Z),
     (2 <= n)%nat -> Z.of_nat n < 2 ^ 16 -> wf n a -> wf n b -> 2 <= value b ->
     gcd n fuel a b = Some (of_u64 n 1) -> value b < Z.of_nat fuel ->
     exists x, inverse n fuel a b = Some x /\ wf n x /\
       0 <= value x < value b /\ (value a * value x) mod value b = 1 /\
       (value a * value x < pow32 n ->
        op_eq n (op_mod n (op_mul n a x) b) (of_u64 n 1) = true)) /\
  (forall fuel, inverse 2 (5 + fuel) [3; 0] [11; 0] = Some [4; 0]).
Proof.
  split; [|intros fuel; reflexivity].
  intros n fuel a b Hn Hshort Ha Hb Hb2 Hgcd Hfuel.
  assert (Z.of_nat n * 32 < 2 ^ 32) as Hbits by lia.
  assert (Z.gcd (value a) (value b) = 1) as Hg.
  { destruct (gcd_loop_value n fuel a b ltac:(lia) Hbits Ha Hb Hfuel) as (g & Eg & _ & Vg).
    unfold gcd in Hgcd. rewrite Hgcd in Eg. inversion Eg; subst g.
    rewrite of_u64_value in Vg by (unfold in_word; lia). symmetry. exact Vg. }
  destruct (inverse_value n fuel a b Hn Hshort Ha Hb Hb2 Hg Hfuel) as (x & Ex & Hx & Rx & Em).
  exists x. split; [exact Ex|]. split; [exact Hx|]. split; [exact Rx|]. split; [exact Em|].
  intros Hfit. pose proof (value_wf_range n a Ha) as Ra.
  pose proof (op_mul_wf n Hshort a x Ha Hx) as Hm.
  destruct (div_mod_value n (op_mul n a x) b ltac:(lia) Hbits Hm Hb ltac:(lia))
    as (_ & Hmod & Emod & _).
  rewrite op_eq_value by (exact Hmod || apply of_u64_wf).
  apply bool_decide_eq_true.
  rewrite Emod, op_mul_value by assumption.
  rewrite (Z.mod_small (value a * value x)) by nia.
  rewrite of_u64_value by (unfold in_word; lia). exact Em.
Qed.

Lemma inverse_correct_witness :
  exists x, inverse 2 20 [3; 0] [11; 0] = Some x /\ wf 2 x /\
    0 <= value x < value [11; 0] /\ (value [3; 0] * value x) mod value [11; 0] = 1 /\
    (value [3; 0] * value x < pow32 2 ->
     op_eq 2 (op_mod 2 (op_mul 2 [3; 0] x) [11; 0]) (of_u64 2 1) = true).
Proof.
  apply (proj1 inverse_correct 2%nat 20%nat [3; 0] [11; 0]).
  - lia.
  - lia.
  - split; [reflexivity|]. repeat constructor; unfold in_word; lia.
  - split; [reflexivity|]. repeat constructor; unfold in_word; lia.
  - vm_compute. discriminate.
  - vm_compute. reflexivity.
  - vm_compute. reflexivity.
Defined.

(** C5, as stated, fails: the text ["AB"] comes back as ["ab"], since
    [std::hex] writes lower-case digits. *)
Lemma hex_round_trip_upper_case :
  exists x, Bigint_of_string glibc_overflow 2 (str "AB") = Returns x /\
    render 2 x = str "ab" /\ render 2 x <> str "AB".
Proof.
  exists [171; 0]. split; [vm_compute; reflexivity|].
  split; [vm_compute; reflexivity|]. vm_compute. discriminate.
Qed.

(** C5, amended: at every width of fewer than 65536 words, for every
    hexadecimal string [s] of at most 8 digits, or of at least 16 digits
    that fit the width, rendering the value constructed from [s] produces
    [s] in lower case with its leading zeros stripped, and ["0"] when no
    digit is left; whatever [sscanf] does on overflow. *)
Theorem hex_round_trip (scanf_overflow : Z -> Z) n (s : list ascii) :
  (1 <= n)%nat -> Z.of_nat n < 2 ^ 16 -> string_check s = true ->
  (length s <= 8)%nat \/ (16 <= length s <= 8 * n)%nat ->
  exists x, Bigint_of_string scanf_overflow n s = Returns x /\ wf n x /\
    render n x = canonical s.
Proof.
  intros Hn Hshort Hs Hlen.
  destruct (Bigint_of_string_value scanf_overflow n s Hs Hn Hshort Hlen) as (x & Ex & Hx & Vx).
  exists x. split; [exact Ex|]. split; [exact Hx|].
  rewrite render_spec by assumption.
  rewrite be_digits_value by apply Hx. rewrite (wf_length n x Hx), Vx.
  rewrite number_digits_value; [|apply digit_values_digits|].
  - rewrite strip0_zeros_app. apply canonical_digit_values. exact Hs.
  - rewrite digit_values_length. destruct Hlen; lia.
Qed.

Lemma hex_round_trip_witness :
  exists x,
    Bigint_of_string glibc_overflow 4 (str "00123456789ABCdef0120000000A") = Returns x /\
    wf 4 x /\ render 4 x = canonical (str "00123456789ABCdef0120000000A").
Proof.
  apply (hex_round_trip glibc_overflow 4%nat (str "00123456789ABCdef0120000000A")).
  - lia.
  - lia.
  - vm_compute. reflexivity.
  - right. vm_compute. lia.
Defined.

(** A string of 9 to 15 digits takes the branch of a single [sscanf] into
    one word: at 64 bits ["123456789"] never comes back, whatever [sscanf]
    stores on overflow (["23456789"] with the GNU C library). *)
Lemma hex_nine_digits_lost :
  (forall scanf_overflow, exists x,
     Bigint_of_string scanf_overflow 2 (str "123456789") = Returns x /\
     render 2 x <> str "123456789") /\
  (exists x, Bigint_of_string glibc_overflow 2 (str "123456789") = Returns x /\
     render 2 x = str "23456789").
Proof.
  split.
  - intros ovf. exists (<[0%nat := uint (ovf 4886718345)]> (zero 2)).
    split; [reflexivity|]. intros E.
    pose proof (render_length_one_word 2 (uint (ovf 4886718345))
                  ltac:(lia) ltac:(lia) (uint_range _)) as H.
    rewrite E in H. cbn in H. lia.
  - exists [591751049; 0]. split; vm_compute; reflexivity.
Qed.

(** * Further properties of the code *)

Ltac wf_concrete := split; [reflexivity | repeat constructor; unfold in_word; lia].

(** ** Construction from an integer *)

Lemma of_u64_value_64 n x :
  (2 <= n)%nat -> 0 <= x < 2 ^ 64 -> value (of_u64 n x) = x.
Proof.
  intros Hn Hx. destruct n as [|[|n]]; [lia|lia|].
  unfold of_u64. cbn -[Z.pow Z.mul uint ull Z.shiftr].
  change (replicate n 0) with (zero n). rewrite value_zero.
  rewrite ull_small by lia. rewrite Z.shiftr_div_pow2 by lia.
  assert (0 <= x / 2 ^ 32 < 2 ^ 32) as Hq.
  { split; [apply Z.div_pos; lia|apply Z.div_lt_upper_bound; lia]. }
  rewrite (uint_small (x / 2 ^ 32)) by exact Hq. unfold uint.
  pose proof (Z.div_mod x (2 ^ 32) ltac:(lia)). lia.
Qed.

(** X1: at widths of at least 64 bits the from-integer constructor returns,
    for every [unsigned long long] input, a value that stores that number in
    its two low words and zero above. *)
Theorem from_integer_constructor_value n x :
  (2 <= n)%nat -> 0 <= x < 2 ^ 64 ->
  exists v, Bigint_of_u64 n x = Returns v /\ wf n v /\ value v = x /\
    forall j, (2 <= j < n)%nat -> v !!! j = 0.
Proof.
  intros Hn Hx. exists (of_u64 n x).
  split; [apply Bigint_of_u64_defined; exact Hn|].
  split; [apply of_u64_wf|]. split; [apply of_u64_value_64; assumption|].
  intros j Hj. unfold of_u64. rewrite !list_lookup_total_insert_ne by lia.
  apply zero_lookup. lia.
Qed.

Lemma from_integer_constructor_value_witness :
  exists v, Bigint_of_u64 3 18446744073709551615 = Returns v /\ wf 3 v /\
    value v = 18446744073709551615 /\ forall j, (2 <= j < 3)%nat -> v !!! j = 0.
Proof.
  apply (from_integer_constructor_value 3%nat 18446744073709551615); lia.
Defined.

(** ** Arithmetic modulo [2 ^ bits]

    The operators build their result in a default-constructed value, which
    takes two words: the statements are for widths of at least 64 bits. *)

(** X2: [operator+] returns the sum of the two numbers modulo [2 ^ bits];
    the carry out of the top word is dropped. *)
Theorem operator_add_modular n (a b : list Z) :
  (2 <= n)%nat -> wf n a -> wf n b ->
  wf n (op_add n a b) /\
  value (op_add n a b) = (value a + value b) mod 2 ^ (32 * Z.of_nat n).
Proof.
  intros _ Ha Hb. split; [apply op_add_wf|apply op_add_value]; assumption.
Qed.

Lemma operator_add_modular_witness :
  wf 2 (op_add 2 [4294967295; 4294967295] [2; 0]) /\
  value (op_add 2 [4294967295; 4294967295] [2; 0]) =
    (value [4294967295; 4294967295] + value [2; 0]) mod 2 ^ (32 * Z.of_nat 2).
Proof.
  apply (operator_add_modular 2%nat [4294967295; 4294967295] [2; 0]);
    [lia|wf_concrete|wf_concrete].
Defined.

(** X3: [operator-] returns the difference modulo [2 ^ bits]: a smaller
    minus a larger number wraps around instead of failing. *)
Theorem operator_sub_modular n (a b : list Z) :
  (2 <= n)%nat -> wf n a -> wf n b ->
  wf n (op_sub n a b) /\
  value (op_sub n a b) = (value a - value b) mod 2 ^ (32 * Z.of_nat n).
Proof.
  intros _ Ha Hb. split; [apply op_sub_wf|apply op_sub_value]; assumption.
Qed.

Lemma operator_sub_modular_witness :
  wf 2 (op_sub 2 [3; 0] [5; 0]) /\
  value (op_sub 2 [3; 0] [5; 0]) = (value [3; 0] - value [5; 0]) mod 2 ^ (32 * Z.of_nat 2).
Proof.
  apply (operator_sub_modular 2%nat [3; 0] [5; 0]); [lia|wf_concrete|wf_concrete].
Defined.

(** X4: at widths of fewer than 65536 words [operator*] returns the low
    [bits] bits of the product, that is the product modulo [2 ^ bits]. *)
Theorem operator_mul_modular n (a b : list Z) :
  (2 <= n)%nat -> Z.of_nat n < 2 ^ 16 -> wf n a -> wf n b ->
  wf n (op_mul n a b) /\
  value (op_mul n a b) = (value a * value b) mod 2 ^ (32 * Z.of_nat n).
Proof.
  intros _ Hshort Ha Hb. split; [apply op_mul_wf|apply op_mul_value]; assumption.
Qed.

Lemma operator_mul_modular_witness :
  wf 2 (op_mul 2 [4294967295; 7] [4294967295; 9]) /\
  value (op_mul 2 [4294967295; 7] [4294967295; 9]) =
    (value [4294967295; 7] * value [4294967295; 9]) mod 2 ^ (32 * Z.of_nat 2).
Proof.
  apply (operator_mul_modular 2%nat [4294967295; 7] [4294967295; 9]);
    [lia|lia|wf_concrete|wf_concrete].
Defined.

(** X5: [operator<<] multiplies by [2 ^ shift] modulo [2 ^ bits], for every
    unsigned shift count (the result is zero from [shift >= bits] on). *)
Theorem operator_shl_value n (a : list Z) s :
  (2 <= n)%nat -> wf n a -> 0 <= s < 2 ^ 32 ->
  wf n (op_shl n a s) /\
  value (op_shl n a s) = (value a * 2 ^ s) mod 2 ^ (32 * Z.of_nat n).
Proof.
  intros _ Ha Hs. split; [apply op_shl_wf; exact Ha|apply op_shl_value; [exact Ha|lia]].
Qed.

Lemma operator_shl_value_witness :
  wf 2 (op_shl 2 [4294967295; 171] 37) /\
  value (op_shl 2 [4294967295; 171] 37) =
    (value [4294967295; 171] * 2 ^ 37) mod 2 ^ (32 * Z.of_nat 2).
Proof.
  apply (operator_shl_value 2%nat [4294967295; 171] 37); [lia|wf_concrete|lia].
Defined.

(** X6: [operator>>] is the logical right shift: it divides by [2 ^ shift],
    rounding down, for every unsigned shift count. *)
Theorem operator_shr_value n (a : list Z) s :
  (2 <= n)%nat -> wf n a -> 0 <= s < 2 ^ 32 ->
  wf n (op_shr n a s) /\ value (op_shr n a s) = value a / 2 ^ s.
Proof.
  intros _ Ha Hs. split; [apply op_shr_wf|apply op_shr_value]; (exact Ha || lia).
Qed.

Lemma operator_shr_value_witness :
  wf 2 (op_shr 2 [4294967295; 171] 37) /\
  value (op_shr 2 [4294967295; 171] 37) = value [4294967295; 171] / 2 ^ 37.
Proof.
  apply (operator_shr_value 2%nat [4294967295; 171] 37); [lia|wf_concrete|lia].
Defined.

(** ** Division, remainder and greatest common divisor *)

(** X7: for every non-zero divisor [operator%] returns the remainder of the
    division of the two numbers, on the fast path and on the loop alike. *)
Theorem operator_mod_remainder n (a b : list Z) :
  (2 <= n)%nat -> Z.of_nat n * 32 < 2 ^ 32 -> wf n a -> wf n b -> 0 < value b ->
  wf n (op_mod n a b) /\ value (op_mod n a b) = value a mod value b.
Proof.
  intros Hn Hbits Ha Hb Hpos.
  destruct (div_mod_value n a b ltac:(lia) Hbits Ha Hb Hpos) as (_ & Hm & Em & _).
  split; assumption.
Qed.

Lemma operator_mod_remainder_witness :
  wf 2 (op_mod 2 [17; 3] [5; 0]) /\
  value (op_mod 2 [17; 3] [5; 0]) = value [17; 3] mod value [5; 0].
Proof.
  apply (operator_mod_remainder 2%nat [17; 3] [5; 0]);
    [lia|lia|wf_concrete|wf_concrete|vm_compute; reflexivity].
Defined.

(** X8: whenever the dividend is at least the (non-zero) divisor,
    [operator/] returns the quotient of the two numbers, rounded down. *)
Theorem operator_div_quotient n (a b : list Z) :
  (2 <= n)%nat -> Z.of_nat n * 32 < 2 ^ 32 -> wf n a -> wf n b ->
  0 < value b <= value a ->
  wf n (op_div n a b) /\ value (op_div n a b) = value a / value b.
Proof.
  intros Hn Hbits Ha Hb Hpos.
  destruct (div_mod_value n a b ltac:(lia) Hbits Ha Hb ltac:(lia)) as (Hq & _ & _ & Eq).
  split; [exact Hq|].
  destruct (op_lt n a b) eqn:E; [|exact Eq].
  apply op_lt_true in E; [lia|assumption..].
Qed.

Lemma operator_div_quotient_witness :
  wf 2 (op_div 2 [17; 3] [5; 0]) /\
  value (op_div 2 [17; 3] [5; 0]) = value [17; 3] / value [5; 0].
Proof.
  apply (operator_div_quotient 2%nat [17; 3] [5; 0]);
    [lia|lia|wf_concrete|wf_concrete|vm_compute; split; [reflexivity|discriminate]].
Defined.

(** X9: [gcd] returns the greatest common divisor of the two numbers, once
    the loop bound exceeds the second operand; [gcd (a, 0)] is [a]. *)
Theorem gcd_is_greatest_common_divisor n fuel (a b : list Z) :
  (2 <= n)%nat -> Z.of_nat n * 32 < 2 ^ 32 -> wf n a -> wf n b ->
  value b < Z.of_nat fuel ->
  exists g, gcd n fuel a b = Some g /\ wf n g /\ value g = Z.gcd (value a) (value b).
Proof.
  intros Hn Hbits Ha Hb Hfuel. unfold gcd.
  apply gcd_loop_value; (assumption || lia).
Qed.

Lemma gcd_is_greatest_common_divisor_witness :
  exists g, gcd 2 19 [12; 1] [18; 0] = Some g /\ wf 2 g /\
    value g = Z.gcd (value [12; 1]) (value [18; 0]).
Proof.
  apply (gcd_is_greatest_common_divisor 2%nat 19%nat [12; 1] [18; 0]);
    [lia|lia|wf_concrete|wf_concrete|vm_compute; reflexivity].
Defined.

(** ** Introspection and comparison *)

(** X10: [num_bits] is the bit length of the number: 0 for zero, otherwise
    the [k] with [2 ^ (k - 1) <= a < 2 ^ k]; it never exceeds [bits]. *)
Theorem num_bits_bit_length n (a : list Z) :
  (1 <= n)%nat -> Z.of_nat n * 32 < 2 ^ 32 -> wf n a ->
  (value a = 0 -> num_bits n a = 0) /\
  (0 < value a -> 2 ^ (num_bits n a - 1) <= value a < 2 ^ num_bits n a) /\
  0 <= num_bits n a <= 32 * Z.of_nat n.
Proof.
  intros Hn Hbits Ha. rewrite num_bits_value by assumption.
  pose proof (value_wf_range n a Ha) as Ra.
  split; [intros ->; reflexivity|]. split.
  - intros Hpos. split; [apply bit_length_lower; exact Hpos|apply bit_length_upper; lia].
  - split; [apply bit_length_nonneg|apply bit_length_le_bound; [lia|exact Ra]].
Qed.

Lemma num_bits_bit_length_witness :
  (value [4294967295; 171] = 0 -> num_bits 2 [4294967295; 171] = 0) /\
  (0 < value [4294967295; 171] ->
   2 ^ (num_bits 2 [4294967295; 171] - 1) <= value [4294967295; 171]
     < 2 ^ num_bits 2 [4294967295; 171]) /\
  0 <= num_bits 2 [4294967295; 171] <= 32 * Z.of_nat 2.
Proof.
  apply (num_bits_bit_length 2%nat [4294967295; 171]); [lia|lia|wf_concrete].
Defined.

Lemma testbit_land_1 w : (Z.land w 1 =? 0) = negb (Z.odd w).
Proof.
  change 1 with (Z.ones 1). rewrite Z.land_ones by lia. change (2 ^ 1) with 2.
  rewrite <- Z.bit0_odd, <- (Z.bit0_mod w).
  destruct (Z.testbit w 0); reflexivity.
Qed.

Lemma parity_bit n (a : list Z) : (1 <= n)%nat -> wf n a -> is_odd a = Z.odd (value a).
Proof.
  intros Hn Ha. unfold is_odd. rewrite testbit_land_1, negb_involutive.
  rewrite <- !Z.bit0_odd. symmetry.
  apply (testbit_value a 0 0); [apply (wf_words n a Ha)| |lia].
  rewrite (wf_length n a Ha). lia.
Qed.

(** X11: [is_odd] and [is_even] are the parity of the number. *)
Theorem parity_of_number n (a : list Z) :
  (1 <= n)%nat -> wf n a ->
  is_odd a = Z.odd (value a) /\ is_even a = Z.even (value a).
Proof.
  intros Hn Ha. split; [apply (parity_bit n); assumption|].
  change (is_even a) with (negb (is_odd a)).
  rewrite (parity_bit n) by assumption. apply Z.negb_odd.
Qed.

Lemma parity_of_number_witness :
  is_odd [4294967295; 170] = Z.odd (value [4294967295; 170]) /\
  is_even [4294967295; 170] = Z.even (value [4294967295; 170]).
Proof.
  apply (parity_of_number 2%nat [4294967295; 170]); [lia|wf_concrete].
Defined.

(** X12: [operator==] holds exactly between equal numbers (equal storages),
    and [operator!=] is its negation. *)
Theorem operator_eq_numbers n (a b : list Z) :
  wf n a -> wf n b ->
  (op_eq n a b = true <-> value a = value b) /\
  (op_eq n a b = true <-> a = b) /\
  op_ne n a b = negb (op_eq n a b).
Proof.
  intros Ha Hb. split; [|split].
  - rewrite op_eq_value by assumption. apply bool_decide_eq_true.
  - split; [apply op_eq_true; assumption|intros ->; apply op_eq_refl].
  - apply op_ne_op_eq.
Qed.

Lemma operator_eq_numbers_witness :
  (op_eq 2 [5; 1] [7; 1] = true <-> value [5; 1] = value [7; 1]) /\
  (op_eq 2 [5; 1] [7; 1] = true <-> [5; 1] = [7; 1]) /\
  op_ne 2 [5; 1] [7; 1] = negb (op_eq 2 [5; 1] [7; 1]).
Proof.
  apply (operator_eq_numbers 2%nat [5; 1] [7; 1]); wf_concrete.
Defined.

Lemma lt_loop_gt_loop k (a x : list Z) : lt_loop k a x = gt_loop k x a.
Proof.
  induction k as [|k IH]; cbn [lt_loop gt_loop]; [reflexivity|].
  rewrite IH, orb_comm, Z.gtb_ltb. reflexivity.
Qed.

(** X13: the ordering operators never claim more than the numeric order:
    when [a < b] returns true the number [a] is below [b], when [a > b]
    returns true it is above, and [a < b] is the same test as [b > a]. *)
Theorem ordering_sound n (a b : list Z) :
  wf n a -> wf n b ->
  (op_lt n a b = true -> value a < value b) /\
  (op_gt n a b = true -> value b < value a) /\
  op_lt n a b = op_gt n b a.
Proof.
  intros Ha Hb. split; [apply op_lt_true; assumption|].
  split; [apply op_gt_true; assumption|apply lt_loop_gt_loop].
Qed.

Lemma ordering_sound_witness :
  (op_lt 2 [9; 1] [7; 2] = true -> value [9; 1] < value [7; 2]) /\
  (op_gt 2 [9; 1] [7; 2] = true -> value [7; 2] < value [9; 1]) /\
  op_lt 2 [9; 1] [7; 2] = op_gt 2 [7; 2] [9; 1].
Proof.
  apply (ordering_sound 2%nat [9; 1] [7; 2]); wf_concrete.
Defined.

(** X14: when at least one operand is below [2 ^ 32], so that it fills one
    word, the ordering operators are exactly the numeric order. *)
Theorem ordering_exact_single_word n (a b : list Z) :
  (1 <= n)%nat -> wf n a -> wf n b -> value a < 2 ^ 32 \/ value b < 2 ^ 32 ->
  op_lt n a b = (value a <? value b) /\ op_gt n a b = (value a >? value b).
Proof.
  intros Hn Ha Hb Hs. split.
  - unfold op_lt. rewrite lt_loop_gt_loop. fold (op_gt n b a).
    rewrite op_gt_single_word by (assumption || tauto). apply Z.gtb_ltb.
  - apply op_gt_single_word; assumption.
Qed.

Lemma ordering_exact_single_word_witness :
  op_lt 2 [5; 1] [7; 0] = (value [5; 1] <? value [7; 0]) /\
  op_gt 2 [5; 1] [7; 0] = (value [5; 1] >? value [7; 0]).
Proof.
  apply (ordering_exact_single_word 2%nat [5; 1] [7; 0]);
    [lia|wf_concrete|wf_concrete|right; vm_compute; reflexivity].
Defined.

(** ** Modular exponentiation *)

Lemma square_pow_mod c a m k :
  0 < m -> 0 <= k -> (c * ((a * a) mod m) ^ k) mod m = (c * a ^ (2 * k)) mod m.
Proof.
  intros Hm Hk. rewrite Z.mul_mod by lia. rewrite Z.mod_pow_l.
  rewrite <- Z.mul_mod by lia. rewrite Z.pow_mul_r by lia. rewrite Z.pow_2_r. reflexivity.
Qed.

Lemma mul_below_square c a m : 0 <= c <= m -> 0 <= a < m -> 0 <= c * a < m * m.
Proof. intros. nia. Qed.

Lemma exponentiation_loop_spec n (m : list Z) fuel : forall a b c : list Z,
  (2 <= n)%nat -> Z.of_nat n < 2 ^ 16 ->
  wf n a -> wf n b -> wf n c -> wf n m ->
  0 < value m -> value a * value a < pow32 n -> value m * value a < pow32 n ->
  value c <= value m -> value m * value m <= pow32 n ->
  value b < 2 ^ (Z.of_nat fuel - 1) ->
  exists r, exponentiation_loop n fuel a b c m = Some r /\ wf n r /\
    value r = if value b =? 0 then value c else (value c * value a ^ value b) mod value m.
Proof.
  induction fuel as [|fuel IH];
    intros a b c Hn Hshort Ha Hb Hc Hm Hmpos Paa Pma Hcm Hsq Hfuel.
  - pose proof (value_wf_range n b Hb). cbn in Hfuel. lia.
  - pose proof (value_wf_range n a Ha) as Ra. pose proof (value_wf_range n b Hb) as Rb.
    pose proof (value_wf_range n c Hc) as Rc.
    cbn [exponentiation_loop]. rewrite op_ne_zero by exact Hb.
    destruct (Z.eqb_spec (value b) 0) as [E|E]; cbn [negb].
    + exists c. split; [reflexivity|]. split; [exact Hc|reflexivity].
    + replace (Z.of_nat (S fuel) - 1) with (Z.of_nat fuel) in Hfuel by lia.
      assert (1 <= Z.of_nat fuel) as Hf1.
      { destruct fuel; [cbn in Hfuel; lia|lia]. }
      assert (2 ^ Z.of_nat fuel = 2 * 2 ^ (Z.of_nat fuel - 1)) as Epow.
      { replace (Z.of_nat fuel) with (1 + (Z.of_nat fuel - 1)) at 1 by lia.
        rewrite Z.pow_add_r by lia. reflexivity. }
      assert (Z.of_nat n * 32 < 2 ^ 32) as Hbits by lia.
      pose proof (mul_le_mul_nonneg (value c) (value m) (value a) ltac:(lia) ltac:(lia)) as Pca.
      pose proof (op_mul_wf n Hshort c a Hc Ha) as Hca.
      pose proof (op_mul_wf n Hshort a a Ha Ha) as Haa.
      destruct (div_mod_value n (op_mul n c a) m ltac:(lia) Hbits Hca Hm ltac:(lia))
        as (_ & Hcam & Ecam & _).
      destruct (div_mod_value n (op_mul n a a) m ltac:(lia) Hbits Haa Hm ltac:(lia))
        as (_ & Haam & Eaam & _).
      rewrite op_mul_value, (Z.mod_small (value c * value a) (pow32 n)) in Ecam
        by (assumption || lia).
      rewrite op_mul_value, (Z.mod_small (value a * value a) (pow32 n)) in Eaam
        by (assumption || lia).
      pose proof (Z.mod_pos_bound (value c * value a) (value m) ltac:(lia)) as Bc.
      pose proof (Z.mod_pos_bound (value a * value a) (value m) ltac:(lia)) as Ba.
      pose proof (mul_below_square _ _ (value m) ltac:(split; [apply Ba|apply Z.lt_le_incl, Ba]) Ba)
        as Pa2.
      pose proof (mul_below_square (value m) _ (value m) ltac:(lia) Ba) as Pma2.
      rewrite <- Eaam in Pa2, Pma2.
      pose proof (op_shr_wf n b Hb 1 ltac:(lia)) as Hb'.
      pose proof (op_shr_value n b Hb 1 ltac:(lia)) as Eb'. change (2 ^ 1) with 2 in Eb'.
      pose proof (Z.div_mod (value b) 2 ltac:(lia)) as Edm.
      pose proof (Zmod_odd (value b)) as Eodd.
      assert (0 <= value b / 2 < 2 ^ (Z.of_nat fuel - 1)) as Hhalf.
      { split; [apply Z.div_pos; lia|apply Z.div_lt_upper_bound; lia]. }
      rewrite (parity_bit n b ltac:(lia) Hb).
      destruct (Z.odd (value b)) eqn:Eo.
      * destruct (IH (op_mod n (op_mul n a a) m) (op_shr n b 1) (op_mod n (op_mul n c a) m))
          as (r & Er & Hr & Vr); try assumption; try lia.
        exists r. split; [exact Er|]. split; [exact Hr|].
        rewrite Vr, Eb', Eaam, Ecam.
        destruct (Z.eqb_spec (value b / 2) 0) as [E2|E2].
        -- assert (value b = 1) as E1 by lia.
           rewrite E1, Z.pow_1_r. reflexivity.
        -- rewrite square_pow_mod by lia. rewrite Z.mul_mod_idemp_l by lia.
           assert (value a ^ value b = value a * value a ^ (2 * (value b / 2))) as ->.
           { rewrite <- Z.pow_succ_r by lia. f_equal. lia. }
           f_equal. ring.
      * destruct (IH (op_mod n (op_mul n a a) m) (op_shr n b 1) c)
          as (r & Er & Hr & Vr); try assumption; try lia.
        exists r. split; [exact Er|]. split; [exact Hr|].
        rewrite Vr, Eb', Eaam.
        destruct (Z.eqb_spec (value b / 2) 0) as [E2|E2]; [lia|].
        rewrite square_pow_mod by lia.
        assert (value a ^ value b = value a ^ (2 * (value b / 2))) as -> by (f_equal; lia).
        reflexivity.
Qed.

(** X15: [exponentiation] returns [a ^ b mod m] whenever [a < m] and [m * m]
    does not exceed [2 ^ bits], so that no product wraps (widths of fewer
    than 65536 words); for [b = 0] it returns 1.  The loop runs once per bit
    of the exponent. *)
Theorem exponentiation_modular_power n fuel (a b m : list Z) :
  (2 <= n)%nat -> Z.of_nat n < 2 ^ 16 -> wf n a -> wf n b -> wf n m ->
  value a < value m -> value m * value m <= 2 ^ (32 * Z.of_nat n) ->
  bit_length (value b) < Z.of_nat fuel ->
  exists r, exponentiation n fuel a b m = Some r /\ wf n r /\
    value r = if value b =? 0 then 1 else (value a ^ value b) mod value m.
Proof.
  intros Hn Hshort Ha Hb Hm Ham Hsq Hfuel. unfold exponentiation. fold (pow32 n) in Hsq.
  pose proof (value_wf_range n a Ha) as Ra. pose proof (value_wf_range n b Hb) as Rb.
  pose proof (mul_below_square (value a) (value a) (value m) ltac:(lia) ltac:(lia)) as Paa.
  pose proof (mul_below_square (value m) (value a) (value m) ltac:(lia) ltac:(lia)) as Pma.
  assert (value (of_u64 n 1) = 1) as E1 by (apply of_u64_value; [lia|unfold in_word; lia]).
  destruct (exponentiation_loop_spec n m fuel a b (of_u64 n 1)) as (r & Er & Hr & Vr);
    try assumption; try apply of_u64_wf; try lia.
  - apply Z.lt_le_trans with (2 ^ bit_length (value b)); [apply bit_length_upper; lia|].
    apply Z.pow_le_mono_r; lia.
  - exists r. split; [exact Er|]. split; [exact Hr|]. rewrite Vr, E1.
    destruct (value b =? 0); [reflexivity|]. rewrite Z.mul_1_l. reflexivity.
Qed.

Lemma exponentiation_modular_power_witness :
  exists r, exponentiation 2 4 [3; 0] [5; 0] [7; 0] = Some r /\ wf 2 r /\
    value r = if value [5; 0] =? 0 then 1 else (value [3; 0] ^ value [5; 0]) mod value [7; 0].
Proof.
  apply (exponentiation_modular_power 2%nat 4%nat [3; 0] [5; 0] [7; 0]);
    [lia|lia|wf_concrete|wf_concrete|wf_concrete| | |]; vm_compute; (reflexivity || discriminate).
Defined.

(** ** Randomization *)

Lemma rng_loop_spec rd k : forall i pos (a : list Z),
  (i + k <= length a)%nat ->
  exists a', rng_loop k i rd pos a = (a', (pos + k)%nat) /\ length a' = length a /\
    (forall j, (i <= j < i + k)%nat -> a' !!! j = uint (rd (pos + (j - i))%nat)) /\
    (forall j, (j < i \/ i + k <= j)%nat -> a' !!! j = a !!! j).
Proof.
  induction k as [|k IH]; intros i pos a Hk; cbn [rng_loop].
  - exists a. rewrite Nat.add_0_r. split; [reflexivity|]. split; [reflexivity|].
    split; [intros j Hj; lia|reflexivity].
  - destruct (IH (S i) (S pos) (<[i := uint (rd pos)]> a)) as (a' & E & Hl & Hin & Hout).
    { rewrite length_insert. lia. }
    exists a'. rewrite E, length_insert in *.
    split; [f_equal; lia|]. split; [exact Hl|]. split.
    + intros j Hj. destruct (decide (j = i)) as [->|Hne].
      * rewrite Hout by lia. rewrite list_lookup_total_insert_eq by lia.
        rewrite Nat.sub_diag, Nat.add_0_r. reflexivity.
      * rewrite Hin by lia. do 2 f_equal. lia.
    + intros j Hj. rewrite Hout by lia. apply list_lookup_total_insert_ne. lia.
Qed.

(** X16: [rng] overwrites the low [size_max / 32] words (all [bits / 32]
    words for [size_max = 0]) with the next outputs of the random device, in
    order, and leaves every other word as it was; a bound below 32 bits
    changes nothing. *)
Theorem rng_overwrites_low_words n size_max (rd : nat -> Z) pos (a : list Z) :
  length a = n -> Z.of_nat n < 2 ^ 16 -> 0 <= size_max <= 32 * Z.of_nat n ->
  let cnt := if size_max =? 0 then n else Z.to_nat (size_max / 32) in
  exists a', rng n size_max rd pos a = Some (a', (pos + cnt)%nat) /\ length a' = n /\
    (forall j, (j < cnt)%nat -> a' !!! j = uint (rd (pos + j)%nat)) /\
    (forall j, (cnt <= j)%nat -> a' !!! j = a !!! j).
Proof.
  intros Hl Hshort Hs cnt. unfold rng. fold cnt.
  assert (cnt <= n)%nat as Hcnt.
  { unfold cnt. destruct (size_max =? 0); [lia|].
    assert (size_max / 32 <= Z.of_nat n) by (apply Z.div_le_upper_bound; lia).
    assert (0 <= size_max / 32) by (apply Z.div_pos; lia). lia. }
  destruct (Z.leb_spec (2 ^ 16) (Z.of_nat cnt)) as [H|_]; [lia|].
  destruct (rng_loop_spec rd cnt 0 pos a ltac:(lia)) as (a' & E & Hl' & Hin & Hout).
  exists a'. rewrite E. split; [reflexivity|]. split; [lia|]. split.
  - intros j Hj. rewrite Hin by lia. do 2 f_equal. lia.
  - intros j Hj. apply Hout. lia.
Qed.

Lemma rng_overwrites_low_words_witness :
  let cnt := if 40 =? 0 then 3%nat else Z.to_nat (40 / 32) in
  exists a', rng 3 40 (fun k => Z.of_nat k + 4294967296) 5 [1; 2; 3] =
               Some (a', (5 + cnt)%nat) /\ length a' = 3%nat /\
    (forall j, (j < cnt)%nat -> a' !!! j = uint ((fun k => Z.of_nat k + 4294967296) (5 + j)%nat)) /\
    (forall j, (cnt <= j)%nat -> a' !!! j = [1; 2; 3] !!! j).
Proof.
  apply (rng_overwrites_low_words 3%nat 40 (fun k => Z.of_nat k + 4294967296) 5%nat [1; 2; 3]);
    [reflexivity|lia|lia].
Defined.

(** ** Construction from text: errors and bounds *)

Lemma string_check_false_iff s :
  string_check s = false <-> exists c, In c s /\ isxdigit c = false.
Proof.
  induction s as [|c s IH]; cbn [string_check In].
  - split; [discriminate|intros (c & [] & _)].
  - destruct (isxdigit c) eqn:E; cbn [negb].
    + rewrite IH. split.
      * intros (d & Hd & Ed). exists d. split; [right; exact Hd|exact Ed].
      * intros (d & [<-|Hd] & Ed); [congruence|]. exists d. split; assumption.
    + split; [intros _; exists c; split; [left; reflexivity|exact E]|reflexivity].
Qed.

Lemma store_not_thrown i v (storage : list Z) e : store i v storage <> Throws e.
Proof. unfold store. destruct (_ <? _)%nat; discriminate. Qed.

Lemma sscanf_X_not_thrown ovf w t i (storage : list Z) e :
  sscanf_X ovf w t i storage <> Throws e.
Proof.
  unfold sscanf_X. destruct (scan_digits w t); [discriminate|apply store_not_thrown].
Qed.

Lemma runs_loop_not_thrown ovf t k : forall i sp (storage : list Z) e,
  runs_loop ovf k i sp t storage <> Throws e.
Proof.
  induction k as [|k IH]; intros i sp storage e; cbn [runs_loop]; [discriminate|].
  destruct (sscanf_X ovf 8 (drop sp t) i storage) as [st|e'|j] eqn:E;
    cbn [mbind outcome_bind].
  - apply IH.
  - exfalso. exact (sscanf_X_not_thrown _ _ _ _ _ _ E).
  - discriminate.
Qed.

(** X17: the constructor from text throws [std::domain_error] exactly when
    the text has a character that is not a hexadecimal digit; the width and
    the length of the text play no part. *)
Theorem hex_constructor_throws_iff ovf n (s : list ascii) :
  Bigint_of_string ovf n s = Throws domain_error <->
  exists c, In c s /\ isxdigit c = false.
Proof.
  rewrite <- string_check_false_iff. unfold Bigint_of_string.
  destruct (string_check s); cbn [negb]; [|split; reflexivity].
  split; [|discriminate]. intros H. exfalso. revert H.
  destruct (_ <? _)%nat; [|apply sscanf_X_not_thrown].
  destruct (runs_loop ovf _ 0 _ s (zero n)) as [[st i]|e'|j] eqn:E; cbn [mbind outcome_bind].
  - destruct (negb _); [apply sscanf_X_not_thrown|discriminate].
  - exfalso. exact (runs_loop_not_thrown _ _ _ _ _ _ _ E).
  - discriminate.
Qed.

(** X18: for a text of hexadecimal digits that is at most 8 digits long, or
    at least 16 digits long and within the width, the constructor returns
    the value that stores the number the digits denote. *)
Theorem hex_constructor_number ovf n (s : list ascii) :
  (1 <= n)%nat -> Z.of_nat n < 2 ^ 16 -> string_check s = true ->
  (length s <= 8)%nat \/ (16 <= length s <= 8 * n)%nat ->
  exists x, Bigint_of_string ovf n s = Returns x /\ wf n x /\
    value x = digits_value (digit_values s).
Proof.
  intros Hn Hshort Hs Hlen. apply Bigint_of_string_value; assumption.
Qed.

Lemma hex_constructor_number_witness :
  exists x, Bigint_of_string glibc_overflow 2 (str "fedcba9876543210") = Returns x /\
    wf 2 x /\ value x = digits_value (digit_values (str "fedcba9876543210")).
Proof.
  apply (hex_constructor_number glibc_overflow 2%nat (str "fedcba9876543210"));
    [lia|lia|vm_compute; reflexivity|right; vm_compute; lia].
Defined.

Section Overflow.

Variable ovf : Z -> Z.
Variable n : nat.
Variable s : list ascii.
Hypothesis s_checked : string_check s = true.

Lemma sscanf_X_oob w (t : list ascii) i (storage : list Z) :
  string_check t = true -> (1 <= w <= 8)%nat -> (w <= length t)%nat ->
  (length storage <= i)%nat ->
  sscanf_X ovf w t i storage = OutOfBounds i.
Proof.
  intros Ht Hw Hlen Hi. unfold sscanf_X. rewrite scan_digits_checked by exact Ht.
  destruct (digit_values (take w t)) as [|d ds] eqn:E.
  - apply (f_equal length) in E. rewrite digit_values_length, length_take in E.
    cbn in E. lia.
  - unfold store. destruct (Nat.ltb_spec i (length storage)); [lia|reflexivity].
Qed.

Lemma runs_loop_oob (runs : nat) k : forall i (storage : list Z),
  (i + k = runs)%nat -> (8 * runs <= length s)%nat -> length storage = n ->
  (i <= n < runs)%nat ->
  runs_loop ovf k i (length s - 8 * (i + 1)) s storage = OutOfBounds n.
Proof.
  induction k as [|k IH]; intros i storage Hik Hruns Hl Hin; [lia|].
  cbn [runs_loop]. destruct (decide (i = n)) as [->|Hne].
  - rewrite sscanf_X_oob;
      [reflexivity|apply string_check_drop; exact s_checked|lia|rewrite length_drop; lia|lia].
  - rewrite (sscanf_X_spec ovf);
      [|apply string_check_drop; exact s_checked|lia|rewrite length_drop; lia|lia].
    cbn [mbind outcome_bind].
    replace (length s - 8 * (i + 1) - 8)%nat with (length s - 8 * (S i + 1))%nat by lia.
    apply IH; [lia|exact Hruns|rewrite length_insert; exact Hl|lia].
Qed.

Lemma Bigint_of_string_oob :
  (16 <= length s)%nat -> (8 * n < length s)%nat -> Z.of_nat (length s) < 8 * 2 ^ 16 ->
  Bigint_of_string ovf n s = OutOfBounds n.
Proof.
  intros H16 Hbig Hlen. unfold Bigint_of_string. rewrite s_checked. cbn [negb].
  pose proof (Nat.div_mod_eq (length s) 8) as Edm.
  pose proof (Nat.mod_upper_bound (length s) 8 ltac:(lia)) as Hr8.
  set (q := (length s / 8)%nat) in *. set (r := (length s mod 8)%nat) in *.
  assert (ushort q = q) as ->.
  { unfold ushort. rewrite Z.mod_small by lia. apply Nat2Z.id. }
  destruct (Nat.ltb_spec 1 q) as [_|H]; [|lia].
  replace (length s - 8)%nat with (length s - 8 * (0 + 1))%nat by lia.
  destruct (decide (n < q)%nat) as [Hnq|Hnq].
  - rewrite (runs_loop_oob q q 0 (zero n)); [reflexivity|lia|lia|apply zero_length|lia].
  - destruct (runs_loop_spec ovf n s s_checked q q 0 (zero n)) as (st & Est & Hst & _ & _).
    + lia.
    + lia.
    + lia.
    + apply zero_wf.
    + intros j Hj. apply zero_lookup. lia.
    + rewrite value_zero, drop_ge by lia. reflexivity.
    + rewrite Est. cbn [mbind outcome_bind]. fold r.
      destruct (Nat.eqb_spec r 0) as [E|E]; [lia|]. cbn [negb].
      assert (q = n) as -> by lia.
      apply sscanf_X_oob; [exact s_checked|lia|lia|rewrite (wf_length n st Hst); lia].
Qed.

End Overflow.

(** X19: a text of hexadecimal digits, 16 or more, that has more digits than
    the storage holds makes the constructor store at word index [bits / 32],
    the first index outside the allocation; no error is raised for it. *)
Theorem hex_constructor_overflow ovf n (s : list ascii) :
  string_check s = true -> (16 <= length s)%nat -> (8 * n < length s)%nat ->
  Z.of_nat (length s) < 8 * 2 ^ 16 ->
  Bigint_of_string ovf n s = OutOfBounds n.
Proof. intros Hs H16 Hbig Hlen. apply Bigint_of_string_oob; assumption. Qed.

Lemma hex_constructor_overflow_witness :
  Bigint_of_string glibc_overflow 2 (str "10000000000000000") = OutOfBounds 2.
Proof.
  apply (hex_constructor_overflow glibc_overflow 2%nat (str "10000000000000000"));
    [vm_compute; reflexivity|vm_compute; lia|vm_compute; lia|vm_compute; reflexivity].
Defined.

(** ** Rendering *)

Lemma hex_digit_back d : is_digit d -> hex_digit_value (hex_digit d) = Some d.
Proof.
  unfold is_digit. intros H.
  assert (d = 0 \/ d = 1 \/ d = 2 \/ d = 3 \/ d = 4 \/ d = 5 \/ d = 6 \/ d = 7 \/
          d = 8 \/ d = 9 \/ d = 10 \/ d = 11 \/ d = 12 \/ d = 13 \/ d = 14 \/ d = 15)
    as Hd by lia.
  repeat (destruct Hd as [->|Hd]; [reflexivity|]). subst. reflexivity.
Qed.

Lemma digit_values_hex_digits (l : list Z) :
  Forall is_digit l ->
  digit_values (map hex_digit l) = l /\ string_check (map hex_digit l) = true.
Proof.
  induction 1 as [|d l Hd Hl [IH1 IH2]]; [split; reflexivity|].
  cbn [map]. change (digit_values (hex_digit d :: map hex_digit l))
    with (default 0 (hex_digit_value (hex_digit d)) :: digit_values (map hex_digit l)).
  cbn [string_check]. unfold isxdigit. rewrite (hex_digit_back d Hd), IH1.
  change (default 0 (Some d)) with d. split; [reflexivity|exact IH2].
Qed.

Lemma digits_value_strip0 (l : list Z) : digits_value (strip0 l) = digits_value l.
Proof.
  induction l as [|d l IH]; cbn [strip0]; [reflexivity|].
  destruct (Z.eqb_spec d 0) as [->|Hd]; [|reflexivity].
  rewrite IH. change (0 :: l) with ([0] ++ l). rewrite digits_value_app.
  change (digits_value [0]) with 0. lia.
Qed.

Lemma digits_value_number_digits k : forall v,
  0 <= v < 16 ^ Z.of_nat k -> digits_value (number_digits k v) = v.
Proof.
  induction k as [|k IH]; intros v Hv.
  - cbn in Hv. cbn. lia.
  - cbn [number_digits]. rewrite digits_value_snoc.
    rewrite Nat2Z.inj_succ, Z.pow_succ_r in Hv by lia.
    rewrite IH.
    + pose proof (Z.div_mod v 16 ltac:(lia)). lia.
    + split; [apply Z.div_pos; lia|apply Z.div_lt_upper_bound; lia].
Qed.

Lemma strip0_digits (l : list Z) : Forall is_digit l -> Forall is_digit (strip0 l).
Proof.
  induction 1 as [|d l Hd Hl IH]; cbn [strip0]; [constructor|].
  destruct (d =? 0); [exact IH|constructor; assumption].
Qed.

Lemma strip0_idemp (l : list Z) : strip0 (strip0 l) = strip0 l.
Proof.
  induction l as [|d l IH]; cbn [strip0]; [reflexivity|].
  destruct (d =? 0) eqn:E; [exact IH|]. cbn [strip0]. rewrite E. reflexivity.
Qed.

Lemma be_digits_spec n (x : list Z) :
  wf n x ->
  Forall is_digit (be_digits x) /\ length (be_digits x) = (8 * n)%nat /\
  digits_value (be_digits x) = value x.
Proof.
  intros Hx. pose proof (value_wf_range n x Hx) as Rx.
  rewrite be_digits_value by apply Hx. rewrite (wf_length n x Hx).
  split; [apply number_digits_digits|]. split; [apply number_digits_length|].
  apply digits_value_number_digits. rewrite pow16_pow32. exact Rx.
Qed.

(** What is written for a value, as digits. *)
Lemma render_digits n (x : list Z) :
  Z.of_nat n < 2 ^ 16 -> wf n x ->
  string_check (render n x) = true /\
  strip0 (digit_values (render n x)) = strip0 (be_digits x) /\
  digits_value (digit_values (render n x)) = value x /\
  (1 <= length (render n x))%nat /\
  ((length (render n x) <= 8 * n)%nat \/ value x = 0 /\ length (render n x) = 1%nat) /\
  (forall k : nat, value x < 16 ^ Z.of_nat k -> (1 <= k)%nat -> (length (render n x) <= k)%nat) /\
  (forall k : nat, 16 ^ Z.of_nat k <= value x -> (k < length (render n x))%nat).
Proof.
  intros Hn Hx. rewrite render_spec by assumption.
  destruct (be_digits_spec n x Hx) as (Hd & Hl & Hv).
  pose proof (strip0_digits _ Hd) as Hsd.
  pose proof (digits_value_strip0 (be_digits x)) as Hsv. rewrite Hv in Hsv.
  pose proof (strip0_idemp (be_digits x)) as Hsi.
  destruct (strip0_pad (be_digits x)) as [_ Hsl]. rewrite Hl in Hsl.
  pose proof (digits_value_range _ Hsd) as Hr. rewrite Hsv in Hr.
  destruct (strip0 (be_digits x)) as [|d t] eqn:E.
  - cbn in Hsv. split; [reflexivity|]. split; [reflexivity|]. split; [exact Hsv|].
    split; [cbn; lia|]. split; [right; split; [symmetry; exact Hsv|reflexivity]|].
    split; [intros k _ Hk; cbn; lia|].
    intros k Hk. assert (0 < 16 ^ Z.of_nat k) by (apply Z.pow_pos_nonneg; lia). lia.
  - destruct (digit_values_hex_digits _ Hsd) as [Edv Esc]. rewrite Edv, Esc, length_map.
    split; [reflexivity|]. split; [exact Hsi|]. split; [exact Hsv|].
    split; [cbn; lia|]. split; [left; exact Hsl|].
    assert (16 ^ Z.of_nat (length t) <= value x) as Hlow.
    { change (d :: t) with ([d] ++ t) in Hsv. rewrite digits_value_app in Hsv.
      change (digits_value [d]) with (16 * 0 + d) in Hsv.
      cbn [strip0] in Hsi. destruct (Z.eqb_spec d 0) as [->|Hd0].
      - apply (f_equal length) in Hsi. pose proof (strip0_pad t) as [_ Ht].
        cbn [length] in Hsi. lia.
      - inversion Hsd as [|? ? Hdd Htd]; subst. unfold is_digit in Hdd.
        pose proof (digits_value_range t Htd) as Rt.
        assert (0 < 16 ^ Z.of_nat (length t)) by (apply Z.pow_pos_nonneg; lia). nia. }
    split.
    + intros k Hk _. destruct (Nat.le_gt_cases (length (d :: t)) k) as [Hle|Hgt]; [exact Hle|].
      exfalso. cbn [length] in Hgt.
      assert (16 ^ Z.of_nat k <= 16 ^ Z.of_nat (length t)) by (apply Z.pow_le_mono_r; lia).
      lia.
    + intros k Hk. destruct (Nat.le_gt_cases (length (d :: t)) k) as [Hle|Hgt]; [|exact Hgt].
      exfalso.
      assert (16 ^ Z.of_nat (length (d :: t)) <= 16 ^ Z.of_nat k) by (apply Z.pow_le_mono_r; lia).
      lia.
Qed.

(** X20: the text written for a value consists of hexadecimal digits that
    denote the stored number; it is in lower case without a leading zero
    (["0"] for zero), and has at most [bits / 4] characters. *)
Theorem render_denotes_number n (x : list Z) :
  (1 <= n)%nat -> Z.of_nat n < 2 ^ 16 -> wf n x ->
  string_check (render n x) = true /\
  digits_value (digit_values (render n x)) = value x /\
  canonical (render n x) = render n x /\
  (1 <= length (render n x) <= 8 * n)%nat.
Proof.
  intros Hn1 Hn Hx.
  destruct (render_digits n x Hn Hx) as (Hs & Hst & Hv & Hl1 & Hl2 & _).
  split; [exact Hs|]. split; [exact Hv|]. split; [|lia].
  rewrite <- (canonical_digit_values _ Hs), Hst. symmetry. apply render_spec; assumption.
Qed.

Lemma render_denotes_number_witness :
  string_check (render 2 [2748; 10]) = true /\
  digits_value (digit_values (render 2 [2748; 10])) = value [2748; 10] /\
  canonical (render 2 [2748; 10]) = render 2 [2748; 10] /\
  (1 <= length (render 2 [2748%Z; 10%Z]) <= 8 * 2)%nat.
Proof.
  apply (render_denotes_number 2%nat [2748; 10]); [lia|lia|wf_concrete].
Defined.

(** X21: writing a value and constructing from the text gives the value
    back when the number is below [2 ^ 32] or at least [2 ^ 60], so that the
    text has at most 8 or at least 16 digits; whatever [sscanf] does on
    overflow. *)
Theorem constructor_of_rendered_value ovf n (x : list Z) :
  (1 <= n)%nat -> Z.of_nat n < 2 ^ 16 -> wf n x ->
  value x < 2 ^ 32 \/ 2 ^ 60 <= value x ->
  Bigint_of_string ovf n (render n x) = Returns x.
Proof.
  intros Hn1 Hn Hx Hv.
  destruct (render_digits n x Hn Hx) as (Hs & _ & Ev & Hl1 & Hl2 & Hup & Hlow).
  destruct (Bigint_of_string_value ovf n (render n x) Hs Hn1 Hn) as (y & Ey & Hy & Vy).
  - destruct Hv as [Hv|Hv].
    + left. apply (Hup 8%nat); [exact Hv|lia].
    + right. specialize (Hlow 15%nat Hv). lia.
  - rewrite Ey. f_equal. apply (wf_value_inj n); [exact Hy|exact Hx|]. rewrite Vy. exact Ev.
Qed.

Lemma constructor_of_rendered_value_witness :
  Bigint_of_string glibc_overflow 2 (render 2 [2748; 4026531840]) = Returns [2748; 4026531840].
Proof.
  apply (constructor_of_rendered_value glibc_overflow 2%nat [2748; 4026531840]);
    [lia|lia|wf_concrete|right; vm_compute; discriminate].
Defined.

Lemma Bigint_of_string_one_conversion ovf n (s : list ascii) :
  (1 <= n)%nat -> string_check s = true -> (1 <= length s <= 15)%nat ->
  Bigint_of_string ovf n s =
  Returns (<[0%nat := let v := digits_value (digit_values s) in
                      if v <? 2 ^ 32 then v else uint (ovf v)]> (zero n)).
Proof.
  intros Hn Hs Hl. unfold Bigint_of_string. rewrite Hs. cbn [negb].
  assert (length s / 8 <= 1)%nat as Hq.
  { pose proof (Nat.div_mod_eq (length s) 8) as Edm.
    pose proof (Nat.mod_upper_bound (length s) 8 ltac:(lia)) as Hr8.
    set (q := (length s / 8)%nat) in *. set (r := (length s mod 8)%nat) in *. lia. }
  assert (ushort (length s / 8) = (length s / 8)%nat) as ->.
  { unfold ushort. rewrite Z.mod_small by lia. apply Nat2Z.id. }
  destruct (Nat.ltb_spec 1 (length s / 8)) as [H|_]; [lia|].
  unfold sscanf_X. rewrite scan_digits_checked by exact Hs. rewrite firstn_all.
  destruct (digit_values s) as [|d ds] eqn:E.
  - apply (f_equal length) in E. rewrite digit_values_length in E. cbn in E. lia.
  - unfold store. rewrite zero_length.
    destruct (Nat.ltb_spec 0 n) as [_|H]; [reflexivity|lia].
Qed.

(** X22: a text of 9 to 15 hexadecimal digits is converted by one [sscanf]
    into word 0: the value constructed is below [2 ^ 32], so it is not the
    number of the text unless the leading digits are zeros, whatever
    [sscanf] does on overflow. *)
Theorem hex_constructor_nine_to_fifteen_digits ovf n (s : list ascii) :
  (1 <= n)%nat -> string_check s = true -> (9 <= length s <= 15)%nat ->
  exists x, Bigint_of_string ovf n s = Returns x /\ wf n x /\ value x < 2 ^ 32 /\
    (2 ^ 32 <= digits_value (digit_values s) -> value x <> digits_value (digit_values s)) /\
    (digits_value (digit_values s) < 2 ^ 32 -> value x = digits_value (digit_values s)).
Proof.
  intros Hn Hs Hl. rewrite Bigint_of_string_one_conversion by (assumption || lia).
  pose proof (digits_value_range _ (digit_values_digits s)) as Rv.
  set (v := digits_value (digit_values s)) in *. cbv zeta.
  set (w := if v <? 2 ^ 32 then v else uint (ovf v)).
  assert (in_word w) as Hw.
  { unfold w, in_word. destruct (Z.ltb_spec v (2 ^ 32)); [lia|apply uint_range]. }
  exists (<[0%nat := w]> (zero n)). split; [reflexivity|].
  assert (value (<[0%nat := w]> (zero n)) = w) as Ev.
  { rewrite value_insert by (rewrite zero_length; lia).
    rewrite value_zero, zero_lookup, pow32_0 by lia. lia. }
  split; [|rewrite Ev; unfold in_word in Hw; split; [lia|]].
  - split; [rewrite length_insert; apply zero_length|].
    apply Forall_insert; [apply zero_wf|exact Hw].
  - split; [lia|]. unfold w. destruct (Z.ltb_spec v (2 ^ 32)); [intros _; reflexivity|lia].
Qed.

Lemma hex_constructor_nine_to_fifteen_digits_witness :
  exists x, Bigint_of_string glibc_overflow 2 (str "123456789") = Returns x /\ wf 2 x /\
    value x < 2 ^ 32 /\
    (2 ^ 32 <= digits_value (digit_values (str "123456789")) ->
     value x <> digits_value (digit_values (str "123456789"))) /\
    (digits_value (digit_values (str "123456789")) < 2 ^ 32 ->
     value x = digits_value (digit_values (str "123456789"))).
Proof.
  apply (hex_constructor_nine_to_fifteen_digits glibc_overflow 2%nat (str "123456789"));
    [lia|vm_compute; reflexivity|vm_compute; lia].
Defined.

(** ** The primality test *)

Lemma take_drawn (f : nat -> Z) (a : list Z) : forall c,
  (c <= length a)%nat -> (forall j, (j < c)%nat -> a !!! j = f j) ->
  take c a = map f (seq 0 c).
Proof.
  induction c as [|c IH]; intros Hc Hf; [reflexivity|].
  rewrite (take_S_r a c (a !!! c)) by (apply list_lookup_lookup_total_lt; lia).
  rewrite seq_S, map_app, IH by (lia || (intros j Hj; apply Hf; lia)).
  cbn [map Nat.add]. rewrite Hf by lia. reflexivity.
Qed.

Lemma drawn_words n (a : list Z) rd pos cnt :
  length a = n -> (cnt <= n)%nat ->
  (forall j, (j < cnt)%nat -> a !!! j = uint (rd (pos + j)%nat)) ->
  (forall j, (cnt <= j < n)%nat -> a !!! j = 0) ->
  wf n a /\ value a = drawn rd pos cnt /\ 0 <= value a < pow32 cnt.
Proof.
  intros Hl Hc Hlow Hhigh.
  assert (Forall in_word a) as Hw.
  { apply Forall_in_word_lookup. intros j Hj.
    destruct (Nat.lt_ge_cases j cnt) as [H|H].
    - rewrite Hlow by exact H. apply uint_range.
    - rewrite Hhigh by lia. unfold in_word. lia. }
  split; [split; assumption|].
  assert (value a = value (take cnt a)) as Ev.
  { apply value_high_zeros; [lia|]. intros j Hj. apply Hhigh. lia. }
  split.
  - rewrite Ev. unfold drawn. f_equal. apply take_drawn; [lia|exact Hlow].
  - rewrite Ev. apply value_take_range. exact Hw.
Qed.

Lemma prime_check_bounds n p :
  2 <= p -> p * p <= pow32 n ->
  1 <= bit_length (p - 1) /\
  0 <= bit_length (p - 1) / 32 <= Z.of_nat n /\
  2 * (bit_length (p - 1) / 32) <= Z.of_nat n /\
  forall a, 0 <= a < 2 ^ (32 * (bit_length (p - 1) / 32)) ->
    a * a < pow32 n /\ p * a < pow32 n.
Proof.
  intros Hp Hsq. set (nb := bit_length (p - 1)).
  set (hp := 2 ^ (16 * Z.of_nat n)).
  assert (pow32 n = hp * hp) as Epw.
  { unfold pow32, hp. rewrite <- Z.pow_add_r by lia. f_equal. lia. }
  assert (0 < hp) as Hhp by (apply Z.pow_pos_nonneg; lia).
  assert (p <= hp) as Hph.
  { apply Z.square_le_simpl_nonneg; [lia|]. rewrite <- Epw. exact Hsq. }
  assert (1 <= nb) as Hnb1.
  { unfold nb. rewrite bit_length_pos by lia. pose proof (Z.log2_nonneg (p - 1)). lia. }
  assert (nb <= 16 * Z.of_nat n) as Hnb.
  { apply bit_length_le_bound; [lia|]. fold hp. lia. }
  pose proof (Z.mul_div_le nb 32 ltac:(lia)) as Hq.
  assert (0 <= nb / 32) as Hq0 by (apply Z.div_pos; lia).
  split; [exact Hnb1|]. split; [lia|]. split; [lia|].
  intros a Ha.
  assert (2 ^ (32 * (nb / 32)) <= hp) as Hle by (apply Z.pow_le_mono_r; lia).
  rewrite Epw.
  split; [apply (mul_below_square a a hp)|apply (mul_below_square p a hp)]; lia.
Qed.

Section Fermat.

Variable n : nat.
Variable fuel : nat.
Variable p : list Z.
Variable rd : nat -> Z.

Hypothesis two_words : (2 <= n)%nat.
Hypothesis short : Z.of_nat n < 2 ^ 16.
Hypothesis p_wf : wf n p.
Hypothesis p_two : 2 <= value p.
Hypothesis p_square : value p * value p <= pow32 n.

Let cnt : nat := Z.to_nat (bit_length (value p - 1) / 32).

Hypothesis fuel_bits : bit_length (value p - 1) < Z.of_nat fuel.

Lemma prime_check_high :
  wf n (op_sub n p (of_u64 n 1)) /\ value (op_sub n p (of_u64 n 1)) = value p - 1.
Proof.
  pose proof (value_wf_range n p p_wf) as Rp.
  assert (value (of_u64 n 1) = 1) as E1 by (apply of_u64_value; [lia|unfold in_word; lia]).
  split; [apply op_sub_wf; [exact p_wf|apply of_u64_wf]|].
  rewrite op_sub_value by (exact p_wf || apply of_u64_wf).
  rewrite E1. apply Z.mod_small. lia.
Qed.

Lemma prime_check_loop_spec k : forall i (a : list Z),
  (forall t, (i <= t < i + k)%nat -> drawn rd (t * cnt) cnt < Z.of_nat fuel) ->
  length a = n -> (forall j, (cnt <= j < n)%nat -> a !!! j = 0) ->
  prime_check_loop n k fuel p (op_sub n p (of_u64 n 1)) (of_u64 n 1) a rd (i * cnt) =
  Some (forallb (fun t => fermat_passes (value p) (drawn rd (t * cnt) cnt)) (seq i k)).
Proof.
  pose proof (value_wf_range n p p_wf) as Rp.
  destruct prime_check_high as [Hh Vh].
  destruct (prime_check_bounds n (value p) p_two p_square) as (Hnb1 & Hq & Hq2 & Hbase).
  assert (Z.of_nat n * 32 < 2 ^ 32) as Hbits by lia.
  assert (value (of_u64 n 1) = 1) as E1 by (apply of_u64_value; [lia|unfold in_word; lia]).
  assert (Z.of_nat cnt = bit_length (value p - 1) / 32) as Ecnt by (unfold cnt; lia).
  induction k as [|k IH]; intros i a Hfuel Hl Hz; [reflexivity|].
  rewrite prime_check_loop_S.
  rewrite num_bits_value by (assumption || lia). rewrite Vh.
  unfold rng. destruct (Z.eqb_spec (bit_length (value p - 1)) 0) as [E|_]; [lia|].
  fold cnt. destruct (Z.leb_spec (2 ^ 16) (Z.of_nat cnt)) as [H|_]; [lia|].
  destruct (rng_loop_spec rd cnt 0 (i * cnt) a ltac:(lia)) as (a' & Ea & Hl' & Hin & Hout).
  rewrite Ea. cbn [mbind option_bind].
  destruct (drawn_words n a' rd (i * cnt) cnt) as (Ha' & Va' & Ra').
  { lia. }
  { lia. }
  { intros j Hj. rewrite Hin by lia. do 2 f_equal. lia. }
  { intros j Hj. rewrite Hout by lia. apply Hz. lia. }
  destruct (Hbase (value a')) as [Paa Ppa].
  { unfold pow32 in Ra'. rewrite Ecnt in Ra'. exact Ra'. }
  destruct (gcd_loop_value n fuel p a' ltac:(lia) Hbits p_wf Ha') as (g & Eg & Hg & Vg).
  { rewrite Va'. apply Hfuel. lia. }
  unfold gcd. rewrite Eg. cbn [mbind option_bind].
  rewrite op_ne_op_eq, op_eq_value, Vg, E1 by (assumption || apply of_u64_wf).
  cbn [seq forallb]. unfold fermat_passes at 1. rewrite <- Va'.
  destruct (Z.eqb_spec (Z.gcd (value p) (value a')) 1) as [G|G].
  2:{ rewrite bool_decide_eq_false_2 by exact G. reflexivity. }
  rewrite bool_decide_eq_true_2 by exact G. cbn [negb andb].
  destruct (exponentiation_loop_spec n p fuel a' (op_sub n p (of_u64 n 1)) (of_u64 n 1))
    as (e & Ee & He & Ve); try assumption; try apply of_u64_wf; try lia.
  { rewrite Vh. apply Z.lt_le_trans with (2 ^ bit_length (value p - 1));
      [apply bit_length_upper; lia|apply Z.pow_le_mono_r; lia]. }
  unfold exponentiation. rewrite Ee. cbn [mbind option_bind].
  rewrite op_ne_op_eq, op_eq_value, Ve, Vh, E1 by (assumption || apply of_u64_wf).
  destruct (Z.eqb_spec (value p - 1) 0) as [E0|_]; [lia|]. rewrite Z.mul_1_l.
  destruct (Z.eqb_spec (value a' ^ (value p - 1) mod value p) 1) as [F|F].
  2:{ rewrite bool_decide_eq_false_2 by exact F. reflexivity. }
  rewrite bool_decide_eq_true_2 by exact F. cbn [negb].
  replace (i * cnt + cnt)%nat with (S i * cnt)%nat by lia.
  apply IH.
  - intros t Ht. apply Hfuel. lia.
  - lia.
  - intros j Hj. rewrite Hout by lia. apply Hz. lia.
Qed.

Lemma prime_check_spec :
  (forall t, (t < 100)%nat -> drawn rd (t * cnt) cnt < Z.of_nat fuel) ->
  prime_check n fuel p rd =
  Some (forallb (fun t => fermat_passes (value p) (drawn rd (t * cnt) cnt)) (seq 0 100)).
Proof.
  intros Hfuel. unfold prime_check.
  apply (prime_check_loop_spec 100 0 (of_u64 n 0)).
  - intros t Ht. apply Hfuel. lia.
  - apply of_u64_length.
  - intros j Hj. rewrite of_u64_0. apply zero_lookup. lia.
Qed.

End Fermat.

(** X23: [prime_check] is the test of Fermat on 100 bases: the candidate [p]
    passes when every base [a] drawn has [gcd (p, a) = 1] and
    [a ^ (p - 1) mod p = 1].  Each base is made of the next
    [num_bits (p - 1) / 32] outputs of the random device as its low words;
    bases 0 and 1 are not excluded.  Stated for candidates whose square fits
    the width, so that no product wraps. *)
Theorem prime_check_is_fermat_test n fuel (p : list Z) (rd : nat -> Z) :
  (2 <= n)%nat -> Z.of_nat n < 2 ^ 16 -> wf n p -> 2 <= value p ->
  value p * value p <= 2 ^ (32 * Z.of_nat n) ->
  bit_length (value p - 1) < Z.of_nat fuel ->
  (forall t, (t < 100)%nat ->
     drawn rd (t * Z.to_nat (bit_length (value p - 1) / 32))
       (Z.to_nat (bit_length (value p - 1) / 32)) < Z.of_nat fuel) ->
  prime_check n fuel p rd =
  Some (forallb (fun t => fermat_passes (value p)
                   (drawn rd (t * Z.to_nat (bit_length (value p - 1) / 32))
                      (Z.to_nat (bit_length (value p - 1) / 32))))
          (seq 0 100)).
Proof.
  intros Hn Hshort Hp Hp2 Hsq Hfb Hfuel. apply prime_check_spec; assumption.
Qed.

Lemma prime_check_is_fermat_test_witness :
  prime_check 2 40 [4294967291; 0] (fun _ => 2) =
  Some (forallb (fun t => fermat_passes (value [4294967291; 0])
                   (drawn (fun _ => 2) (t * Z.to_nat (bit_length (value [4294967291; 0] - 1) / 32))
                      (Z.to_nat (bit_length (value [4294967291; 0] - 1) / 32))))
          (seq 0 100)).
Proof.
  apply (prime_check_is_fermat_test 2%nat 40%nat [4294967291; 0] (fun _ => 2));
    [lia|lia|wf_concrete|vm_compute; discriminate|vm_compute; discriminate
    |vm_compute; reflexivity|intros t _; vm_compute; reflexivity].
Defined.

(** ** The modular inverse on arbitrary operands *)

Lemma inverse_loop_returns n fuel : forall (a b x0 : list Z) s0 (x1 : list Z) s1,
  (2 <= n)%nat -> Z.of_nat n < 2 ^ 16 ->
  wf n a -> wf n b -> wf n x0 -> wf n x1 ->
  value b + 1 < Z.of_nat fuel ->
  exists r s, inverse_loop n fuel a b x0 s0 x1 s1 = Some (r, s) /\ wf n r.
Proof.
  induction fuel as [|fuel IH]; intros a b x0 s0 x1 s1 Hn Hshort Ha Hb H0 H1 Hfuel.
  - pose proof (value_wf_range n b Hb). lia.
  - pose proof (value_wf_range n a Ha) as Ra. pose proof (value_wf_range n b Hb) as Rb.
    assert (Z.of_nat n * 32 < 2 ^ 32) as Hbits by lia.
    assert (value (of_u64 n 1) = 1) as E1 by (apply of_u64_value; [lia|unfold in_word; lia]).
    assert (forall c, wf n c -> op_gt n c (of_u64 n 1) = (value c >? 1)) as Hgt.
    { intros c Hc. rewrite op_gt_single_word, E1;
        [reflexivity|lia|exact Hc|apply of_u64_wf|right; rewrite E1; lia]. }
    cbn [inverse_loop]. rewrite (Hgt a Ha).
    destruct (Z.gtb_spec (value a) 1) as [Hgt1|Hle1]; [|exists x1, s1; split; [reflexivity|exact H1]].
    cbv zeta.
    pose proof (op_mul_wf n Hshort (op_div n a b) x0) as Hq.
    assert (wf n (op_div n a b) /\ wf n (op_mod n a b) /\ value (op_mod n a b) <= value a /\
            (0 < value b -> value (op_mod n a b) < value b)) as (Hd & Hm & Hma & Hmb).
    { destruct (Z.eq_dec (value b) 0) as [E|E].
      - assert (b = zero n) as -> by (apply (wf_value_inj n); [exact Hb|apply zero_wf|
          rewrite value_zero; exact E]).
        rewrite op_mod_zero by (assumption || lia).
        split; [apply op_div_zero; (assumption || lia)|]. split; [exact Ha|]. split; lia.
      - destruct (div_mod_value n a b ltac:(lia) Hbits Ha Hb ltac:(lia)) as (Hd & Hm & Em & _).
        pose proof (Z.mod_pos_bound (value a) (value b) ltac:(lia)) as Hr.
        split; [exact Hd|]. split; [exact Hm|]. rewrite Em. split; [|lia].
        apply Z.mod_le; lia. }
    specialize (Hq Hd H0).
    set (x0' := if negb (Bool.eqb s0 s1) then op_add n x1 (op_mul n (op_div n a b) x0)
                else if op_gt n x1 (op_mul n (op_div n a b) x0)
                     then op_sub n x1 (op_mul n (op_div n a b) x0)
                     else op_sub n (op_mul n (op_div n a b) x0) x1).
    assert (wf n x0') as H0'.
    { unfold x0'. destruct (negb _); [apply op_add_wf; assumption|].
      destruct (op_gt _ _ _); apply op_sub_wf; assumption. }
    destruct (Z.eq_dec (value b) 0) as [E|E].
    + destruct fuel as [|fuel]; [lia|]. cbn [inverse_loop]. rewrite (Hgt b Hb).
      destruct (Z.gtb_spec (value b) 1) as [H|_]; [lia|].
      exists x0, s0. split; [reflexivity|exact H0].
    + apply IH; try assumption. lia.
Qed.

(** X24: [inverse] returns a value on every pair of operands, once the loop
    bound exceeds the modulus by two; also for operands with a common
    factor, where no inverse exists: no error is signalled, and the value
    returned is then not an inverse. *)
Theorem inverse_returns_on_every_input n fuel (a b : list Z) :
  (2 <= n)%nat -> Z.of_nat n < 2 ^ 16 -> wf n a -> wf n b ->
  value b + 1 < Z.of_nat fuel ->
  exists x, inverse n fuel a b = Some x /\ wf n x /\
    (Z.gcd (value a) (value b) <> 1 -> (value a * value x) mod value b <> 1).
Proof.
  intros Hn Hshort Ha Hb Hfuel.
  destruct (inverse_loop_returns n fuel a b (of_u64 n 0) false (of_u64 n 1) false)
    as (r & s & Er & Hr); try assumption; try apply of_u64_wf.
  unfold inverse. rewrite Er.
  exists (if s then op_sub n b r else r). split; [reflexivity|].
  split; [destruct s; [apply op_sub_wf|]; assumption|].
  intros Hg Hx. apply Hg.
  destruct (Z.eq_dec (value b) 0) as [E|E].
  { rewrite E, Z.mod_0_r in Hx. rewrite E, Z.gcd_0_r.
    destruct (Z.mul_eq_1 _ _ Hx) as [H|H]; rewrite H; reflexivity. }
  pose proof (Z.div_mod (value a * value (if s then op_sub n b r else r)) (value b) E) as Edm.
  rewrite Hx in Edm.
  pose proof (Z.gcd_divide_l (value a) (value b)) as [u Hu].
  pose proof (Z.gcd_divide_r (value a) (value b)) as [v Hv].
  pose proof (Z.gcd_nonneg (value a) (value b)) as Hpos.
  set (g := Z.gcd (value a) (value b)) in *.
  set (x := value (if s then op_sub n b r else r)) in *.
  set (q := value a * x / value b) in *.
  assert (g * (u * x - v * q) = 1) as Hone by (rewrite Hu, Hv in Edm at 1; lia).
  destruct (Z.mul_eq_1 _ _ Hone) as [H|H]; lia.
Qed.

Lemma inverse_returns_on_every_input_witness :
  exists x, inverse 2 12 [6; 0] [9; 0] = Some x /\ wf 2 x /\
    (Z.gcd (value [6; 0]) (value [9; 0]) <> 1 ->
     (value [6; 0] * value x) mod value [9; 0] <> 1).
Proof.
  apply (inverse_returns_on_every_input 2%nat 12%nat [6; 0] [9; 0]);
    [lia|lia|wf_concrete|wf_concrete|vm_compute; reflexivity].
Defined.
